(** * Reactive authentication state of authok-angular

    A shallow embedding of the class [AuthState] (auth.state.ts): the four
    subjects it owns (l.27-30), the cold [isAuthenticatedTrigger$] pipeline
    (l.62-79) with its [accessTokenTrigger$] (l.41-55), the shared
    [isAuthenticated$] stream (l.85-88) and the derived [user$] and
    [idTokenClaims$] streams (l.93-106).

    JavaScript runs one task at a time, so an instance is modelled by a
    deterministic step function over the events that can reach it: a call
    of one of its public mutators (l.119-145), a subscription to one of its
    public streams, and the settlement of a promise that the AuthokClient
    returned to it.  The client is the environment: it settles the promises
    in any order and with any value.  The RxJS operators have their
    documented behaviour: a [BehaviorSubject] and a [ReplaySubject(1)]
    replay their last value to a new observer and a [Subject] does not;
    [merge] and [mergeMap] subscribe every inner observable at once, while
    [concatMap] waits for the inner one to complete; [shareReplay(1)]
    keeps one subscription to its source and subscribes it anew, with an
    empty buffer, for the first subscriber that comes after an error. *)

From stdpp Require Import gmap strings list sorting.

Set Default Proof Using "Type".

(** ** Values *)

Definition Token := string.
Definition Err := string.
Definition Profile := string.

(** What a derived stream can carry: [null] (from [of(null)]), or what the
    client resolved [getUser()] / [getIdTokenClaims()] to ([undefined] or an
    object). *)
Inductive Nullable (A : Type) : Type :=
| JsNull
| JsUndefined
| JsValue (a : A).
Arguments JsNull {A}.
Arguments JsUndefined {A}.
Arguments JsValue {A} a.

Definition of_resolved {A} (o : option A) : Nullable A :=
  match o with
  | Some a => JsValue a
  | None => JsUndefined
  end.

Inductive Derived := User | IdTokenClaims.

Inductive Stream :=
| IsLoadingS
| IsAuthenticatedS
| DerivedS (d : Derived)
| ErrorS.

Inductive Value :=
| VBool (b : bool)
| VProfile (x : Nullable Profile)
| VErr (e : Err).

Inductive Notification :=
| Next (v : Value)
| Error (e : Err).

(** One notification received by one subscription of a public stream. *)
Record Obs := { obs_sub : nat; obs_stream : Stream; obs_note : Notification }.

#[global] Instance Nullable_eq_dec {A} `{EqDecision A} : EqDecision (Nullable A).
Proof. solve_decision. Defined.
#[global] Instance Derived_eq_dec : EqDecision Derived.
Proof. solve_decision. Defined.
#[global] Instance Stream_eq_dec : EqDecision Stream.
Proof. solve_decision. Defined.
#[global] Instance Value_eq_dec : EqDecision Value.
Proof. solve_decision. Defined.
#[global] Instance Notification_eq_dec : EqDecision Notification.
Proof. solve_decision. Defined.
#[global] Instance Obs_eq_dec : EqDecision Obs.
Proof. solve_decision. Defined.

(** ** The RxJS operators of the pipelines, on finite synchronous streams *)

Module Rx.

(** [scan(f, seed)]: emits every intermediate accumulator. *)
Fixpoint scan {A B} (f : B → A → B) (acc : B) (xs : list A) : list B :=
  match xs with
  | [] => []
  | x :: xs' => let acc' := f acc x in acc' :: scan f acc' xs'
  end.

(** [distinctUntilChanged()] with the state it keeps between values. *)
Fixpoint distinctUntilChanged_from {A} `{EqDecision A}
    (last : option A) (xs : list A) : list A :=
  match xs with
  | [] => []
  | x :: xs' =>
      if decide (last = Some x) then distinctUntilChanged_from last xs'
      else x :: distinctUntilChanged_from (Some x) xs'
  end.

Definition distinctUntilChanged {A} `{EqDecision A} (xs : list A) : list A :=
  distinctUntilChanged_from None xs.

End Rx.

(** ** accessTokenTrigger$ *)

(** The accumulator of the [scan] in [accessTokenTrigger$] (l.42-53):
    [{ current: string | null; previous: string | null }]. *)
Record TokenPair := { previous : option Token; current : option Token }.

#[global] Instance TokenPair_eq_dec : EqDecision TokenPair.
Proof. solve_decision. Defined.

Definition seed : TokenPair := {| previous := None; current := None |}.

Definition scan_step (acc : TokenPair) (cur : option Token) : TokenPair :=
  {| previous := current acc; current := cur |}.

(** [filter(({ previous, current }) => previous !== current)] (l.54);
    on strings and [null], [!==] is inequality of values. *)
Definition token_changed (p : TokenPair) : bool :=
  bool_decide (previous p ≠ current p).

(** The whole pipe, run over the tokens a subscription receives. *)
Definition accessTokenTrigger (tokens : list Token) : list TokenPair :=
  List.filter token_changed (Rx.scan scan_step seed (Some <$> tokens)).

(** ** One subscription to isAuthenticatedTrigger$ *)

(** [isAuthenticatedTrigger$] is cold: [isAuthenticated$] (through
    [shareReplay]) and every subscriber of [user$] and [idTokenClaims$] own a
    subscription of their own, with the operator that follows it. *)
Inductive Pipe :=
| SharedPipe (last : option bool)
    (* distinctUntilChanged() feeding shareReplay(1) *)
| ConcatPipe (d : Derived) (sub : nat) (buffer : list bool) (active : bool).
    (* concatMap(...) feeding subscription [sub] of user$ / idTokenClaims$ *)

Record TriggerSub := {
  live : bool;          (* not yet terminated by an error *)
  switched : bool;      (* a [false] of isLoading$ went through switchMap *)
  tokenAcc : TokenPair; (* scan state of its accessTokenTrigger$ subscription *)
  pipe : Pipe;
}.

Inductive Origin := Initial | TokenChange | Refreshed.

Inductive Call :=
| IsAuthenticated (o : Origin)
| GetProfile (d : Derived).

(** A promise returned by the client, and the trigger subscription waiting
    for it.  The promise's identifier is its position in [issued]. *)
Record Pending := { call : Call; owner : nat }.

#[global] Instance Pipe_eq_dec : EqDecision Pipe.
Proof. solve_decision. Defined.
#[global] Instance TriggerSub_eq_dec : EqDecision TriggerSub.
Proof. solve_decision. Defined.
#[global] Instance Origin_eq_dec : EqDecision Origin.
Proof. solve_decision. Defined.
#[global] Instance Call_eq_dec : EqDecision Call.
Proof. solve_decision. Defined.
#[global] Instance Pending_eq_dec : EqDecision Pending.
Proof. solve_decision. Defined.

Definition with_pipe (p : Pipe) (tr : TriggerSub) : TriggerSub :=
  {| live := live tr; switched := switched tr; tokenAcc := tokenAcc tr; pipe := p |}.

Definition with_tokenAcc (acc : TokenPair) (tr : TriggerSub) : TriggerSub :=
  {| live := live tr; switched := switched tr; tokenAcc := acc; pipe := pipe tr |}.

Definition with_switched (tr : TriggerSub) : TriggerSub :=
  {| live := live tr; switched := true; tokenAcc := tokenAcc tr; pipe := pipe tr |}.

Definition terminated (tr : TriggerSub) : TriggerSub :=
  {| live := false; switched := switched tr; tokenAcc := tokenAcc tr; pipe := pipe tr |}.

Definition active_sub (tr : TriggerSub) : bool := live tr && switched tr.

(** accessToken$ emits [t] to the inner subscription: scan, filter, then
    [mergeMap(() => this.authokClient.isAuthenticated())] (l.73-75). *)
Definition tr_token (t : Token) (tr : TriggerSub) : TriggerSub * list Call :=
  if active_sub tr then
    let acc := scan_step (tokenAcc tr) (Some t) in
    (with_tokenAcc acc tr,
     if token_changed acc then [IsAuthenticated TokenChange] else [])
  else (tr, []).

(** The project function of [switchMap] (l.65-78): subscribe the [merge].
    [defer] calls the client at once; the [ReplaySubject(1)] replays its
    token, if it holds one; [refresh$] is a plain [Subject] and replays
    nothing. *)
Definition tr_activate (tok : option Token) (tr : TriggerSub)
    : TriggerSub * list Call :=
  let tr1 := with_switched tr in
  match tok with
  | Some t => let r := tr_token t tr1 in (r.1, IsAuthenticated Initial :: r.2)
  | None => (tr1, [IsAuthenticated Initial])
  end.

(** isLoading$ emits [loading] (l.62-65): [filter((loading) => !loading)],
    then [distinctUntilChanged()] (only the first [false] goes through),
    then [switchMap]. *)
Definition tr_loading (loading : bool) (tok : option Token) (tr : TriggerSub)
    : TriggerSub * list Call :=
  if live tr && negb (switched tr) && negb loading then tr_activate tok tr
  else (tr, []).

(** refresh$ emits: [mergeMap(() => this.authokClient.isAuthenticated())]
    (l.76). *)
Definition tr_refresh (tr : TriggerSub) : TriggerSub * list Call :=
  (tr, if active_sub tr then [IsAuthenticated Refreshed] else []).

(** [concatMap((authenticated) => authenticated ? getUser() : of(null))]
    (l.94-96, l.103-105): once the inner observable has completed, the
    buffered outer values are projected one after the other; [of(null)]
    emits [null] and completes at once, a promise of the client does not. *)
Fixpoint drain (buffer : list bool)
    : list (Nullable Profile) * list bool * bool :=
  match buffer with
  | [] => ([], [], false)
  | true :: rest => ([], rest, true)
  | false :: rest =>
      let r := drain rest in (JsNull :: r.1.1, r.1.2, r.2)
  end.

Definition concat_next (b : bool) (buffer : list bool) (active : bool)
    : list (Nullable Profile) * list bool * bool :=
  if active then ([], buffer ++ [b], true) else drain (b :: buffer).

(** ** The state of an AuthState instance *)

(** The [ReplaySubject(1)] inside [shareReplay(1)], with the flag the
    operator keeps to resubscribe its source after an error. *)
Record ShareReplay := {
  shareStarted : bool;
  shareHasError : bool;
  shareBuffer : option bool;
  shareObservers : list nat;
}.

Record AuthState := {
  isLoadingSubject : bool;          (* BehaviorSubject<boolean>(true) *)
  accessToken : option Token;       (* ReplaySubject<string>(1) *)
  errorSubject : option Err;        (* ReplaySubject<Error>(1) *)
  loadingObservers : list nat;
  errorObservers : list nat;
  triggers : list TriggerSub;       (* subscriptions to isAuthenticatedTrigger$ *)
  share : ShareReplay;              (* isAuthenticated$ *)
  issued : list Pending;            (* every client call made, oldest first *)
  settled : gset nat;               (* the promises already settled *)
  fired : list (nat * bool);        (* what each trigger subscription emitted *)
  log : list Obs;                   (* what the subscribers received *)
  nextSub : nat;
}.

Definition init : AuthState := {|
  isLoadingSubject := true;
  accessToken := None;
  errorSubject := None;
  loadingObservers := [];
  errorObservers := [];
  triggers := [];
  share := {| shareStarted := false; shareHasError := false;
              shareBuffer := None; shareObservers := [] |};
  issued := [];
  settled := ∅;
  fired := [];
  log := [];
  nextSub := 0;
|}.

Definition set_isLoadingSubject (b : bool) (s : AuthState) : AuthState :=
  {| isLoadingSubject := b; accessToken := accessToken s;
     errorSubject := errorSubject s; loadingObservers := loadingObservers s;
     errorObservers := errorObservers s; triggers := triggers s;
     share := share s; issued := issued s; settled := settled s;
     fired := fired s; log := log s; nextSub := nextSub s |}.

Definition set_accessToken (t : option Token) (s : AuthState) : AuthState :=
  {| isLoadingSubject := isLoadingSubject s; accessToken := t;
     errorSubject := errorSubject s; loadingObservers := loadingObservers s;
     errorObservers := errorObservers s; triggers := triggers s;
     share := share s; issued := issued s; settled := settled s;
     fired := fired s; log := log s; nextSub := nextSub s |}.

Definition set_errorSubject (e : option Err) (s : AuthState) : AuthState :=
  {| isLoadingSubject := isLoadingSubject s; accessToken := accessToken s;
     errorSubject := e; loadingObservers := loadingObservers s;
     errorObservers := errorObservers s; triggers := triggers s;
     share := share s; issued := issued s; settled := settled s;
     fired := fired s; log := log s; nextSub := nextSub s |}.

Definition set_loadingObservers (l : list nat) (s : AuthState) : AuthState :=
  {| isLoadingSubject := isLoadingSubject s; accessToken := accessToken s;
     errorSubject := errorSubject s; loadingObservers := l;
     errorObservers := errorObservers s; triggers := triggers s;
     share := share s; issued := issued s; settled := settled s;
     fired := fired s; log := log s; nextSub := nextSub s |}.

Definition set_errorObservers (l : list nat) (s : AuthState) : AuthState :=
  {| isLoadingSubject := isLoadingSubject s; accessToken := accessToken s;
     errorSubject := errorSubject s; loadingObservers := loadingObservers s;
     errorObservers := l; triggers := triggers s;
     share := share s; issued := issued s; settled := settled s;
     fired := fired s; log := log s; nextSub := nextSub s |}.

Definition set_triggers (l : list TriggerSub) (s : AuthState) : AuthState :=
  {| isLoadingSubject := isLoadingSubject s; accessToken := accessToken s;
     errorSubject := errorSubject s; loadingObservers := loadingObservers s;
     errorObservers := errorObservers s; triggers := l;
     share := share s; issued := issued s; settled := settled s;
     fired := fired s; log := log s; nextSub := nextSub s |}.

Definition set_share (sh : ShareReplay) (s : AuthState) : AuthState :=
  {| isLoadingSubject := isLoadingSubject s; accessToken := accessToken s;
     errorSubject := errorSubject s; loadingObservers := loadingObservers s;
     errorObservers := errorObservers s; triggers := triggers s;
     share := sh; issued := issued s; settled := settled s;
     fired := fired s; log := log s; nextSub := nextSub s |}.

Definition set_issued (l : list Pending) (s : AuthState) : AuthState :=
  {| isLoadingSubject := isLoadingSubject s; accessToken := accessToken s;
     errorSubject := errorSubject s; loadingObservers := loadingObservers s;
     errorObservers := errorObservers s; triggers := triggers s;
     share := share s; issued := l; settled := settled s;
     fired := fired s; log := log s; nextSub := nextSub s |}.

Definition set_settled (x : gset nat) (s : AuthState) : AuthState :=
  {| isLoadingSubject := isLoadingSubject s; accessToken := accessToken s;
     errorSubject := errorSubject s; loadingObservers := loadingObservers s;
     errorObservers := errorObservers s; triggers := triggers s;
     share := share s; issued := issued s; settled := x;
     fired := fired s; log := log s; nextSub := nextSub s |}.

Definition set_fired (l : list (nat * bool)) (s : AuthState) : AuthState :=
  {| isLoadingSubject := isLoadingSubject s; accessToken := accessToken s;
     errorSubject := errorSubject s; loadingObservers := loadingObservers s;
     errorObservers := errorObservers s; triggers := triggers s;
     share := share s; issued := issued s; settled := settled s;
     fired := l; log := log s; nextSub := nextSub s |}.

Definition set_log (l : list Obs) (s : AuthState) : AuthState :=
  {| isLoadingSubject := isLoadingSubject s; accessToken := accessToken s;
     errorSubject := errorSubject s; loadingObservers := loadingObservers s;
     errorObservers := errorObservers s; triggers := triggers s;
     share := share s; issued := issued s; settled := settled s;
     fired := fired s; log := l; nextSub := nextSub s |}.

Definition set_nextSub (n : nat) (s : AuthState) : AuthState :=
  {| isLoadingSubject := isLoadingSubject s; accessToken := accessToken s;
     errorSubject := errorSubject s; loadingObservers := loadingObservers s;
     errorObservers := errorObservers s; triggers := triggers s;
     share := share s; issued := issued s; settled := settled s;
     fired := fired s; log := log s; nextSub := n |}.

(** ** Delivering notifications *)

Definition mkObs (st : Stream) (n : Notification) (sub : nat) : Obs :=
  {| obs_sub := sub; obs_stream := st; obs_note := n |}.

(** One notification to every observer of a subject, in subscription order. *)
Definition emit_all (subs : list nat) (st : Stream) (n : Notification)
    (s : AuthState) : AuthState :=
  set_log (log s ++ (mkObs st n <$> subs)) s.

(** Several notifications, one after the other, to one subscription. *)
Definition emit_to (sub : nat) (st : Stream) (ns : list Notification)
    (s : AuthState) : AuthState :=
  set_log (log s ++ ((λ n, mkObs st n sub) <$> ns)) s.

Definition mkPending (k : nat) (c : Call) : Pending :=
  {| call := c; owner := k |}.

(** Trigger subscription [k] calls the client. *)
Definition issue (k : nat) (cs : list Call) (s : AuthState) : AuthState :=
  set_issued (issued s ++ (mkPending k <$> cs)) s.

(** A subject emits to the trigger subscriptions, oldest first.  (The
    observers of isLoading$ outside the class are notified in [setIsLoading];
    how the two groups interleave shows in no log.) *)
Definition broadcast (f : TriggerSub → TriggerSub * list Call)
    (s : AuthState) : AuthState :=
  set_issued
    (issued s ++ mjoin (imap (λ k tr, mkPending k <$> (f tr).2) (triggers s)))
    (set_triggers ((λ tr, (f tr).1) <$> triggers s) s).

(** Subscribing to [isAuthenticatedTrigger$]: the [BehaviorSubject] behind
    isLoading$ emits its current value to the new subscription at once. *)
Definition subscribeTrigger (p : Pipe) (s : AuthState) : AuthState :=
  let k := length (triggers s) in
  let tr0 := {| live := true; switched := false; tokenAcc := seed; pipe := p |} in
  let r := tr_loading (isLoadingSubject s) (accessToken s) tr0 in
  issue k r.2 (set_triggers (triggers s ++ [r.1]) s).

(** [subject.next(b)] of the [ReplaySubject(1)] in [shareReplay]. *)
Definition share_next (b : bool) (s : AuthState) : AuthState :=
  let sh := share s in
  emit_all (shareObservers sh) IsAuthenticatedS (Next (VBool b))
    (set_share {| shareStarted := shareStarted sh;
                  shareHasError := shareHasError sh;
                  shareBuffer := Some b;
                  shareObservers := shareObservers sh |} s).

(** [hasError = true; subject.error(err)]: the observers are notified and
    the subject is stopped. *)
Definition share_error (e : Err) (s : AuthState) : AuthState :=
  let sh := share s in
  emit_all (shareObservers sh) IsAuthenticatedS (Error e)
    (set_share {| shareStarted := shareStarted sh;
                  shareHasError := true;
                  shareBuffer := shareBuffer sh;
                  shareObservers := [] |} s).

Definition profile_call (d : Derived) (started : bool) : list Call :=
  if started then [GetProfile d] else [].

(** Trigger subscription [k] emits [b]: [distinctUntilChanged()] and
    [shareReplay(1)] for [isAuthenticated$] (l.85-88), [concatMap] for
    [user$] and [idTokenClaims$]. *)
Definition deliver (k : nat) (b : bool) (s : AuthState) : AuthState :=
  match triggers s !! k with
  | None => s
  | Some tr =>
      let s1 := set_fired (fired s ++ [(k, b)]) s in
      match pipe tr with
      | SharedPipe last =>
          if decide (last = Some b) then s1
          else share_next b
                 (set_triggers (<[k := with_pipe (SharedPipe (Some b)) tr]> (triggers s1)) s1)
      | ConcatPipe d sub buffer active =>
          let r := concat_next b buffer active in
          issue k (profile_call d (negb active && r.2))
            (emit_to sub (DerivedS d) (Next ∘ VProfile <$> r.1.1)
               (set_triggers
                  (<[k := with_pipe (ConcatPipe d sub r.1.2 r.2) tr]> (triggers s1)) s1))
      end
  end.

(** The promise of [getUser()] / [getIdTokenClaims()] resolves: the inner
    observable of [concatMap] emits and completes. *)
Definition complete_inner (k : nat) (u : option Profile) (s : AuthState)
    : AuthState :=
  match triggers s !! k with
  | Some tr =>
      match pipe tr with
      | ConcatPipe d sub buffer _ =>
          let r := drain buffer in
          issue k (profile_call d r.2)
            (emit_to sub (DerivedS d)
               (Next ∘ VProfile <$> (of_resolved u :: r.1.1))
               (set_triggers
                  (<[k := with_pipe (ConcatPipe d sub r.1.2 r.2) tr]> (triggers s)) s))
      | SharedPipe _ => s
      end
  | None => s
  end.

(** A promise rejects: the error goes down the pipeline of trigger
    subscription [k] and ends it. *)
Definition fail (k : nat) (e : Err) (s : AuthState) : AuthState :=
  match triggers s !! k with
  | Some tr =>
      let s1 := set_triggers (<[k := terminated tr]> (triggers s)) s in
      match pipe tr with
      | SharedPipe _ => share_error e s1
      | ConcatPipe d sub _ _ => emit_to sub (DerivedS d) [Error e] s1
      end
  | None => s
  end.

(** ** The public mutators (l.119-145) *)

Definition setIsLoading (isLoading : bool) (s : AuthState) : AuthState :=
  broadcast (tr_loading isLoading (accessToken s))
    (emit_all (loadingObservers s) IsLoadingS (Next (VBool isLoading))
       (set_isLoadingSubject isLoading s)).

Definition refresh (s : AuthState) : AuthState :=
  broadcast tr_refresh s.

Definition setAccessToken (t : Token) (s : AuthState) : AuthState :=
  broadcast (tr_token t) (set_accessToken (Some t) s).

Definition setError (e : Err) (s : AuthState) : AuthState :=
  emit_all (errorObservers s) ErrorS (Next (VErr e))
    (set_errorSubject (Some e) s).

(** ** Subscribing to the public streams *)

Definition replay {A} (f : A → Value) (o : option A) : list Notification :=
  match o with
  | Some a => [Next (f a)]
  | None => []
  end.

Definition subscribe (st : Stream) (s : AuthState) : AuthState :=
  let sub := nextSub s in
  let s1 := set_nextSub (S sub) s in
  match st with
  | IsLoadingS =>
      emit_to sub IsLoadingS [Next (VBool (isLoadingSubject s1))]
        (set_loadingObservers (loadingObservers s1 ++ [sub]) s1)
  | ErrorS =>
      emit_to sub ErrorS (replay VErr (errorSubject s1))
        (set_errorObservers (errorObservers s1 ++ [sub]) s1)
  | IsAuthenticatedS =>
      let sh := share s1 in
      if negb (shareStarted sh) || shareHasError sh then
        subscribeTrigger (SharedPipe None)
          (set_share {| shareStarted := true; shareHasError := false;
                        shareBuffer := None; shareObservers := [sub] |} s1)
      else
        emit_to sub IsAuthenticatedS (replay VBool (shareBuffer sh))
          (set_share {| shareStarted := shareStarted sh;
                        shareHasError := shareHasError sh;
                        shareBuffer := shareBuffer sh;
                        shareObservers := shareObservers sh ++ [sub] |} s1)
  | DerivedS d => subscribeTrigger (ConcatPipe d sub [] false) s1
  end.

(** ** Settling a promise of the client *)

Inductive Outcome :=
| ResolveBool (b : bool)
| ResolveProfile (u : option Profile)
| Reject (e : Err).

Definition mark_settled (p : nat) (s : AuthState) : AuthState :=
  set_settled ({[p]} ∪ settled s) s.

(** A promise settles once; a subscription that an error has ended has
    unsubscribed from it; a promise resolves with a value of its type. *)
Definition settle (p : nat) (o : Outcome) (s : AuthState) : AuthState :=
  match issued s !! p with
  | None => s
  | Some c =>
      if decide (p ∈ settled s) then s
      else
        let k := owner c in
        let alive := from_option live false (triggers s !! k) in
        match call c, o with
        | IsAuthenticated _, ResolveBool b =>
            if alive then deliver k b (mark_settled p s) else mark_settled p s
        | GetProfile _, ResolveProfile u =>
            if alive then complete_inner k u (mark_settled p s)
            else mark_settled p s
        | _, Reject e =>
            if alive then fail k e (mark_settled p s) else mark_settled p s
        | _, _ => s
        end
  end.

(** ** Runs *)

Inductive Event :=
| CallSetIsLoading (b : bool)
| CallRefresh
| CallSetAccessToken (t : Token)
| CallSetError (e : Err)
| Subscribe (st : Stream)
| Settle (p : nat) (o : Outcome).

Definition step (s : AuthState) (ev : Event) : AuthState :=
  match ev with
  | CallSetIsLoading b => setIsLoading b s
  | CallRefresh => refresh s
  | CallSetAccessToken t => setAccessToken t s
  | CallSetError e => setError e s
  | Subscribe st => subscribe st s
  | Settle p o => settle p o s
  end.

Definition run (evs : list Event) (s : AuthState) : AuthState :=
  foldl step s evs.

(** ** What a subscription has seen *)

Definition note_of (sub : nat) (st : Stream) (o : Obs) : option Notification :=
  if decide (obs_sub o = sub ∧ obs_stream o = st) then Some (obs_note o) else None.

Definition notes (sub : nat) (st : Stream) (s : AuthState) : list Notification :=
  omap (note_of sub st) (log s).

Definition bool_of (n : Notification) : option bool :=
  match n with
  | Next (VBool b) => Some b
  | _ => None
  end.

Definition profile_of (n : Notification) : option (Nullable Profile) :=
  match n with
  | Next (VProfile x) => Some x
  | _ => None
  end.

(** The booleans received on a stream, oldest first. *)
Definition seen (sub : nat) (st : Stream) (s : AuthState) : list bool :=
  omap bool_of (notes sub st s).

Definition seen_profiles (sub : nat) (d : Derived) (s : AuthState)
    : list (Nullable Profile) :=
  omap profile_of (notes sub (DerivedS d) s).

(** What trigger subscription [k] emitted, oldest first. *)
Definition fired_by (k : nat) (s : AuthState) : list bool :=
  omap (λ kb : nat * bool, if decide (kb.1 = k) then Some kb.2 else None) (fired s).

(** The client calls still in flight. *)
Definition pending (s : AuthState) : list nat :=
  List.filter (λ p, bool_decide (p ∉ settled s)) (seq 0 (length (issued s))).

Definition is_check (c : Pending) : bool :=
  match call c with
  | IsAuthenticated _ => true
  | GetProfile _ => false
  end.

Definition pending_checks (s : AuthState) : list nat :=
  List.filter (λ p, from_option is_check false (issued s !! p)) (pending s).

(** * AuthService: the startup sequence and the facade

    Of auth.service.ts the sources hold the tests (auth.service.spec.ts) and
    the callers, not the class; the redirect-callback coordinator and the
    facade operations below follow the specification, on top of the
    [AuthState] above. *)

(** Modelled from the spec: the type of the application state that
    auth.service.ts (missing) reads from the callback result; of its content
    only the optional target path matters to the coordinator. *)
Record AppState := { target : option string }.

(** Modelled from the spec: the result that auth.service.ts (missing) gets
    from [handleRedirectCallback], [{ appState?, ... }]. *)
Record RedirectLoginResult := { appState : option AppState }.

(** Modelled from the spec: auth.config.ts is missing; of the configuration
    the coordinator uses the flag to skip the automatic redirect-callback
    processing and the optional error-redirect path. *)
Record AuthConfig := {
  skipRedirectCallback : bool;
  errorPath : option string;
}.

(** Modelled from the spec: the location that auth.service.ts (missing)
    inspects; the URL contract for redirect detection looks at the presence
    of three query parameters. *)
Record Location := { has_code : bool; has_state : bool; has_error : bool }.

(** Modelled from the spec: the states of the state machine of the
    coordinator of auth.service.ts (missing). *)
Inductive Phase := Init | ProcessingCallback | CheckingSession | Loaded.

(** Modelled from the spec: the client operations that auth.service.ts
    (missing) invokes itself (the checks and profile lookups of [AuthState]
    are in [issued]). *)
Inductive ClientOp :=
| HandleRedirectCallback
| CheckSession
| ClientLogout.

(** Modelled from the spec: the class AuthService of auth.service.ts
    (missing), with its state core, its lifetime and what it did to its
    collaborators. *)
Record AuthService := {
  authState : AuthState;
  config : AuthConfig;
  phase : Phase;
  destroyed : bool;
  navigations : list string;            (* navigateByUrl calls, oldest first *)
  appStateSubject : option AppState;    (* replay-of-1 channel of the payload *)
  clientOps : list ClientOp;
}.

#[global] Instance Phase_eq_dec : EqDecision Phase.
Proof. solve_decision. Defined.
#[global] Instance ClientOp_eq_dec : EqDecision ClientOp.
Proof. solve_decision. Defined.

Definition lift (f : AuthState → AuthState) (svc : AuthService) : AuthService :=
  {| authState := f (authState svc); config := config svc; phase := phase svc;
     destroyed := destroyed svc; navigations := navigations svc;
     appStateSubject := appStateSubject svc; clientOps := clientOps svc |}.

Definition set_phase (ph : Phase) (svc : AuthService) : AuthService :=
  {| authState := authState svc; config := config svc; phase := ph;
     destroyed := destroyed svc; navigations := navigations svc;
     appStateSubject := appStateSubject svc; clientOps := clientOps svc |}.

Definition set_destroyed (svc : AuthService) : AuthService :=
  {| authState := authState svc; config := config svc; phase := phase svc;
     destroyed := true; navigations := navigations svc;
     appStateSubject := appStateSubject svc; clientOps := clientOps svc |}.

Definition navigateByUrl (path : string) (svc : AuthService) : AuthService :=
  {| authState := authState svc; config := config svc; phase := phase svc;
     destroyed := destroyed svc; navigations := navigations svc ++ [path];
     appStateSubject := appStateSubject svc; clientOps := clientOps svc |}.

Definition record_appState (ap : option AppState) (svc : AuthService)
    : AuthService :=
  {| authState := authState svc; config := config svc; phase := phase svc;
     destroyed := destroyed svc; navigations := navigations svc;
     appStateSubject := from_option Some (appStateSubject svc) ap;
     clientOps := clientOps svc |}.

Definition invoke (op : ClientOp) (svc : AuthService) : AuthService :=
  {| authState := authState svc; config := config svc; phase := phase svc;
     destroyed := destroyed svc; navigations := navigations svc;
     appStateSubject := appStateSubject svc;
     clientOps := clientOps svc ++ [op] |}.

(** Modelled from the spec: AuthService.shouldHandleCallback (missing).  A
    callback is pending when the location carries [code] and [state], or
    [error] and [state]; it is processed unless the configuration says to
    skip it. *)
Definition shouldHandleCallback (cfg : AuthConfig) (loc : Location) : bool :=
  (has_code loc || has_error loc) && has_state loc &&
  negb (skipRedirectCallback cfg).

(** Modelled from the spec: the constructor of AuthService (missing).
    Construction starts the redirect-callback exchange, once, or else the
    silent session check. *)
Definition create (cfg : AuthConfig) (loc : Location) : AuthService :=
  let callback := shouldHandleCallback cfg loc in
  {| authState := init; config := cfg;
     phase := if callback then ProcessingCallback else CheckingSession;
     destroyed := false; navigations := []; appStateSubject := None;
     clientOps := [if callback then HandleRedirectCallback else CheckSession] |}.

(** Modelled from the spec: the choice of the path in the navigation step
    of AuthService (missing).  The target is the target path of the
    preserved application state if present, else the configured error path
    if a failure occurred and one is configured, else the root path. *)
Definition navigation_target (cfg : AuthConfig) (ap : option AppState)
    (failed : bool) : string :=
  match ap ≫= target with
  | Some path => path
  | None => if failed then default "/" (errorPath cfg) else "/"
  end.

(** Modelled from the spec: the end of the startup sequence of AuthService
    (missing).  Liveness is checked before loading is set to [false]; an
    instance torn down in the meantime does not emit. *)
Definition finishLoading (svc : AuthService) : AuthService :=
  if destroyed svc then svc else lift (setIsLoading false) svc.

(** Modelled from the spec: how the promise of the startup sequence of
    AuthService (missing) settles. *)
Inductive StartupOutcome :=
| CallbackResolved (r : option RedirectLoginResult)
| CallbackRejected (e : Err)
| SessionChecked.

(** Modelled from the spec: steps 3 to 5 of the coordinator of AuthService
    (missing).  After a callback exchange the payload or the error is
    recorded, then navigation takes place, success or failure; whichever
    sequence ran, loading ends after it, and the state machine is in
    [Loaded] for good. *)
Definition startupSettled (o : StartupOutcome) (svc : AuthService)
    : AuthService :=
  match phase svc, o with
  | ProcessingCallback, CallbackResolved r =>
      let ap := r ≫= appState in
      set_phase Loaded
        (finishLoading
           (navigateByUrl (navigation_target (config svc) ap false)
              (record_appState ap svc)))
  | ProcessingCallback, CallbackRejected e =>
      set_phase Loaded
        (finishLoading
           (navigateByUrl (navigation_target (config svc) None true)
              (lift (setError e) svc)))
  | CheckingSession, SessionChecked => set_phase Loaded (finishLoading svc)
  | _, _ => svc
  end.

(** Modelled from the spec: the immediate reset of the authentication flag
    that AuthService.logout (missing) makes on a local-only logout.  The
    flag is forced to [false] synchronously, without a round trip: the
    subject behind isAuthenticated$ emits [false] to the observers it has
    and holds it for the ones to come; no call of the client is made or
    awaited.  (auth.state.ts has no method that does this; how
    auth.service.ts goes about it is not in the sources.) *)
Definition forceUnauthenticated (s : AuthState) : AuthState :=
  share_next false s.

(** Modelled from the spec: AuthService.logout (missing).  It delegates to
    the client and updates the state core.  With [localOnly] the client's
    network logout is not called and the authentication flag is reset at
    once. *)
Definition logout (localOnly : bool) (svc : AuthService) : AuthService :=
  if localOnly then lift forceUnauthenticated svc else invoke ClientLogout svc.

(** Modelled from the spec: what can happen to an instance of AuthService
    (missing): its startup promise settles, it is destroyed, a facade
    operation is called or completes, somebody subscribes, a promise made
    to its [AuthState] settles. *)
Inductive SvcEvent :=
| StartupSettled (o : StartupOutcome)
| Destroy
| CallLogout (localOnly : bool)
| TokenObtained (t : Token)
| LoginCompleted
| SubscribeTo (st : Stream)
| ClientSettled (p : nat) (o : Outcome).

(** Modelled from the spec: the facade of AuthService (missing).  Token
    retrieval records the new token, a completed login asks for a refresh;
    the facade never calls [setIsLoading] outside the startup sequence. *)
Definition svc_step (svc : AuthService) (ev : SvcEvent) : AuthService :=
  match ev with
  | StartupSettled o => startupSettled o svc
  | Destroy => set_destroyed svc
  | CallLogout localOnly => logout localOnly svc
  | TokenObtained t => lift (setAccessToken t) svc
  | LoginCompleted => lift refresh svc
  | SubscribeTo st => lift (subscribe st) svc
  | ClientSettled p o => lift (settle p o) svc
  end.

Definition svc_run (evs : list SvcEvent) (svc : AuthService) : AuthService :=
  foldl svc_step svc evs.

Definition is_startup (ev : SvcEvent) : bool :=
  match ev with
  | StartupSettled _ => true
  | _ => false
  end.

(** The calls of the public mutators of [AuthState]. *)
Definition is_mutator (ev : Event) : bool :=
  match ev with
  | CallSetIsLoading _ | CallRefresh | CallSetAccessToken _ | CallSetError _ => true
  | Subscribe _ | Settle _ _ => false
  end.

(** ** Notions used by the statements *)

Definition reachable (s : AuthState) : Prop := ∃ evs, s = run evs init.

(** The checks that an emission of [refresh$] or of the access-token
    trigger starts: one on every subscription whose [merge] is subscribed. *)
Definition checks_for (o : Origin) (trs : list TriggerSub) : list Pending :=
  mjoin (imap (λ k tr,
    if active_sub tr then [mkPending k (IsAuthenticated o)] else []) trs).

(** The checks that the first [false] of isLoading$ starts, when the token
    subject holds a token: on every subscription still waiting for it, the
    initial check and the check for the replayed token. *)
Definition waiting_checks (trs : list TriggerSub) : list Pending :=
  mjoin (imap (λ k tr,
    if live tr && negb (switched tr)
    then [mkPending k (IsAuthenticated Initial);
          mkPending k (IsAuthenticated TokenChange)]
    else []) trs).

Definition token_of (ev : Event) : option Token :=
  match ev with
  | CallSetAccessToken t => Some t
  | _ => None
  end.

(** The token recorded last in a run. *)
Definition last_token (evs : list Event) : option Token :=
  last (omap token_of evs).

(** The scan state a subscription is in, given the token subject. *)
Definition tok_ok (tok : option Token) (tr : TriggerSub) : Prop :=
  live tr = true →
  if switched tr then current (tokenAcc tr) = tok else tokenAcc tr = seed.

Definition Inv_tok (s : AuthState) : Prop :=
  Forall (tok_ok (accessToken s)) (triggers s).

(** Subscription identifiers are handed out in order: none in use is ahead
    of the counter. *)
Definition pipe_fresh (n : nat) (tr : TriggerSub) : Prop :=
  match pipe tr with
  | ConcatPipe _ sub _ _ => sub < n
  | SharedPipe _ => True
  end.

Record Inv_fresh (s : AuthState) : Prop := {
  fr_loading : Forall (λ sub, sub < nextSub s) (loadingObservers s);
  fr_error : Forall (λ sub, sub < nextSub s) (errorObservers s);
  fr_share : Forall (λ sub, sub < nextSub s) (shareObservers (share s));
  fr_pipes : Forall (pipe_fresh (nextSub s)) (triggers s);
  fr_log : Forall (λ o, obs_sub o < nextSub s) (log s);
}.

Definition live_at (k : nat) (s : AuthState) : Prop :=
  ∃ tr, triggers s !! k = Some tr ∧ live tr = true.


(** What a step can do to the triggers, as far as their pipes and liveness
    are concerned. *)
Definition keeps_pipes (f : TriggerSub → TriggerSub * list Call) : Prop :=
  ∀ tr, live (f tr).1 = live tr ∧ pipe (f tr).1 = pipe tr.


(** No two equal neighbours. *)
Fixpoint adjacent_distinct {A} (l : list A) : Prop :=
  match l with
  | x :: l' =>
      match l' with
      | y :: _ => x ≠ y ∧ adjacent_distinct l'
      | [] => True
      end
  | [] => True
  end.

(** Trigger subscription [k] is the live source of [shareReplay], and its
    [distinctUntilChanged] remembers [last]. *)
Definition source_at (s : AuthState) (k : nat) (last : option bool) : Prop :=
  ∃ tr, triggers s !! k = Some tr ∧ live tr = true ∧ pipe tr = SharedPipe last.

Record Inv_share (s : AuthState) : Prop := {
  sh_source : ∀ k last, source_at s k last →
    last = shareBuffer (share s) ∧ shareStarted (share s) = true ∧
    shareHasError (share s) = false;
  sh_unique : ∀ k1 k2 l1 l2, source_at s k1 l1 → source_at s k2 l2 → k1 = k2;
  sh_nodup : NoDup (shareObservers (share s));
  sh_started : ∀ sub, sub ∈ shareObservers (share s) →
    shareStarted (share s) = true ∧ shareHasError (share s) = false;
  sh_obs_last : ∀ sub, sub ∈ shareObservers (share s) →
    last (notes sub IsAuthenticatedS s) = (Next ∘ VBool) <$> shareBuffer (share s);
  sh_last_obs : ∀ sub v,
    last (notes sub IsAuthenticatedS s) = Some (Next (VBool v)) →
    sub ∈ shareObservers (share s);
  sh_distinct : ∀ sub, adjacent_distinct (seen sub IsAuthenticatedS s);
}.

(** The state of an instance whose isLoading$ has not emitted [false]. *)
Record Inv_gate (s : AuthState) : Prop := {
  gt_loading : isLoadingSubject s = true;
  gt_waiting : Forall (λ tr, switched tr = false) (triggers s);
  gt_issued : issued s = [];
  gt_buffer : shareBuffer (share s) = None;
  gt_log : Forall (λ o, obs_stream o ≠ IsAuthenticatedS) (log s);
}.

(** The results of the authentication checks of a run, in the order in
    which the checks were started (the order of the promise identifiers). *)
Definition resolved_check (ev : Event) : option (nat * bool) :=
  match ev with
  | Settle p (ResolveBool b) => Some (p, b)
  | _ => None
  end.

Definition started_before (x y : nat * bool) : Prop := x.1 ≤ y.1.

#[global] Instance started_before_dec : RelDecision started_before :=
  λ x y, decide (x.1 ≤ y.1).

Definition queued_results (evs : list Event) : list bool :=
  snd <$> merge_sort started_before (omap resolved_check evs).

(** Identifiers in the histories point at what exists. *)
Record Inv_bounds (s : AuthState) : Prop := {
  bd_fired : Forall (λ kb : nat * bool, kb.1 < length (triggers s)) (fired s);
  bd_settled : ∀ p, p ∈ settled s → p < length (issued s);
  bd_owner : Forall (λ c, owner c < length (triggers s)) (issued s);
}.

(** A value of a derived stream answers a check: [null] for [false], what
    the client resolved to for [true]. *)
Definition answers (b : bool) (x : Nullable Profile) : Prop :=
  b = false ↔ x = JsNull.

(** The [concatMap] state of a trigger subscription, if it has one. *)
Definition concat_view (tr : TriggerSub)
    : option (Derived * nat * list bool * bool) :=
  match pipe tr with
  | ConcatPipe d sub buffer active => Some (d, sub, buffer, active)
  | SharedPipe _ => None
  end.

Definition inflight (active : bool) : list bool :=
  if active then [true] else [].

(** What trigger subscription [k] emitted splits into the checks already
    answered on the derived stream, the one whose profile is being fetched,
    and the ones buffered by [concatMap]. *)
Definition concat_ok (s : AuthState) (k : nat) (tr : TriggerSub) : Prop :=
  ∀ d sub buffer active,
    concat_view tr = Some (d, sub, buffer, active) →
    (active = false → buffer = []) ∧
    ∃ answered,
      fired_by k s = answered ++ inflight active ++ buffer ∧
      Forall2 answers answered (seen_profiles sub d s).

Definition pending_profile (s : AuthState) (p k : nat) (d : Derived) : Prop :=
  issued s !! p = Some (mkPending k (GetProfile d)) ∧ p ∉ settled s.

Record Inv_concat (s : AuthState) : Prop := {
  cc_ok : ∀ k tr, triggers s !! k = Some tr → concat_ok s k tr;
  cc_uniq : ∀ k1 k2 tr1 tr2 d1 d2 sub b1 b2 a1 a2,
    triggers s !! k1 = Some tr1 → triggers s !! k2 = Some tr2 →
    concat_view tr1 = Some (d1, sub, b1, a1) →
    concat_view tr2 = Some (d2, sub, b2, a2) → k1 = k2;
  cc_pending : ∀ p k d tr,
    pending_profile s p k d → triggers s !! k = Some tr → live tr = true →
    ∃ sub buffer, concat_view tr = Some (d, sub, buffer, true);
  cc_single : ∀ p1 p2 k d1 d2 tr,
    pending_profile s p1 k d1 → pending_profile s p2 k d2 →
    triggers s !! k = Some tr → live tr = true → p1 = p2;
}.

(** What the settlement [ev], arriving in state [s], resolves a profile
    lookup of trigger subscription [k] to, if it does: the promise is one of
    [getUser()] or [getIdTokenClaims()] made for [k], it has not settled
    before, and [k] has not been ended. *)
Definition lookup_result (k : nat) (s : AuthState) (ev : Event)
    : option (option Profile) :=
  match ev with
  | Settle p (ResolveProfile u) =>
      match issued s !! p with
      | Some c =>
          if bool_decide (owner c = k) && bool_decide (p ∉ settled s) &&
             negb (is_check c) && from_option live false (triggers s !! k)
          then Some u else None
      | None => None
      end
  | _ => None
  end.

(** What the profile lookups of trigger subscription [k] resolved to in a
    run from [s], oldest first. *)
Fixpoint lookup_results (k : nat) (evs : list Event) (s : AuthState)
    : list (option Profile) :=
  match evs with
  | [] => []
  | ev :: evs' =>
      option_list (lookup_result k s ev) ++ lookup_results k evs' (step s ev)
  end.

(** The values that answer the checks [answered], given what the lookups
    resolved to: [null] for a check that returned [false], for one that
    returned [true] what the next lookup resolved to. *)
Fixpoint expected_values (answered : list bool)
    (results : list (option Profile)) : list (Nullable Profile) :=
  match answered with
  | [] => []
  | false :: bs => JsNull :: expected_values bs results
  | true :: bs =>
      match results with
      | u :: us => of_resolved u :: expected_values bs us
      | [] => []
      end
  end.

(** The values other than [null]. *)
Definition not_null (xs : list (Nullable Profile)) : list (Nullable Profile) :=
  List.filter (λ x, negb (bool_decide (x = JsNull))) xs.

(** In the run [evs], every subscription of a derived stream has received,
    besides [null]s, what its lookups resolved to, in that order. *)
Definition values_ok (evs : list Event) : Prop :=
  let s := run evs init in
  (∀ k, length (triggers s) ≤ k → lookup_results k evs init = []) ∧
  ∀ k tr d sub buffer active,
    triggers s !! k = Some tr →
    concat_view tr = Some (d, sub, buffer, active) →
    not_null (seen_profiles sub d s) = of_resolved <$> lookup_results k evs init.

(** The calls a subject emission starts are authentication checks. *)
Definition checks_only (f : TriggerSub → TriggerSub * list Call) : Prop :=
  ∀ tr, Forall (λ c, ∃ o, c = IsAuthenticated o) (f tr).2.

#[global] Instance answers_dec b x : Decision (answers b x).
Proof. unfold answers. apply _. Defined.

(** What a component holding subscription [a] of isAuthenticated$ and
    subscription [u] of a derived stream goes through, oldest notification
    first: the flag it received last, and whether each value it receives on
    the derived stream fits that flag. *)
Fixpoint consistent_from (a u : nat) (flag : option bool) (l : list Obs) : bool :=
  match l with
  | [] => true
  | o :: l' =>
      if decide (obs_sub o = a) then
        consistent_from a u (from_option Some flag (bool_of (obs_note o))) l'
      else if decide (obs_sub o = u) then
        match profile_of (obs_note o), flag with
        | Some x, Some b => bool_decide (answers b x) && consistent_from a u flag l'
        | _, _ => consistent_from a u flag l'
        end
      else consistent_from a u flag l'
  end.

Definition consistent (a u : nat) (s : AuthState) : bool :=
  consistent_from a u None (log s).

(** What the subscribers of isLoading$ of a service instance have seen. *)
Record Inv_loading (svc : AuthService) : Prop := {
  ld_phase : phase svc ≠ Loaded → isLoadingSubject (authState svc) = true;
  ld_loaded : phase svc = Loaded → destroyed svc = false →
    isLoadingSubject (authState svc) = false;
  ld_nodup : NoDup (loadingObservers (authState svc));
  ld_in : ∀ sub, sub ∈ loadingObservers (authState svc) →
    if isLoadingSubject (authState svc)
    then seen sub IsLoadingS (authState svc) = [true]
    else seen sub IsLoadingS (authState svc) = [true; false] ∨
         seen sub IsLoadingS (authState svc) = [false];
  ld_out : ∀ sub, sub ∉ loadingObservers (authState svc) →
    seen sub IsLoadingS (authState svc) = [];
}.

(** The subscribers of isLoading$ of an instance that has finished loading:
    the ones that were there when loading ended ([olds]) have seen the value
    go from [true] to [false], the ones that came later only [false]. *)
Record Inv_loaded (olds : list nat) (svc : AuthService) : Prop := {
  lo_phase : phase svc = Loaded;
  lo_subject : isLoadingSubject (authState svc) = false;
  lo_olds : olds ⊆ loadingObservers (authState svc);
  lo_seen : ∀ sub, seen sub IsLoadingS (authState svc) =
    if decide (sub ∈ olds) then [true; false]
    else if decide (sub ∈ loadingObservers (authState svc)) then [false]
    else [];
}.

(** Where a redirect-callback run navigates to, given how the exchange
    settled. *)
Definition callback_target (cfg : AuthConfig) (o : StartupOutcome) : string :=
  match o with
  | CallbackResolved r => navigation_target cfg (r ≫= appState) false
  | CallbackRejected _ => navigation_target cfg None true
  | SessionChecked => "/"
  end.

Definition is_callback_outcome (o : StartupOutcome) : bool :=
  match o with
  | CallbackResolved _ | CallbackRejected _ => true
  | SessionChecked => false
  end.

Definition loading_frame (s s' : AuthState) : Prop :=
  isLoadingSubject s' = isLoadingSubject s ∧
  loadingObservers s' = loadingObservers s ∧
  ∀ sub, notes sub IsLoadingS s' = notes sub IsLoadingS s.

(** ** Notions used by the further properties *)

(** The client calls that trigger subscription [k] has made, oldest first. *)
Definition calls_of (k : nat) (s : AuthState) : list Call :=
  omap (λ c, if decide (owner c = k) then Some (call c) else None) (issued s).

Definition is_initial (c : Call) : bool :=
  match c with
  | IsAuthenticated Initial => true
  | _ => false
  end.

Definition is_profile_call (c : Call) : bool :=
  match c with
  | GetProfile _ => true
  | IsAuthenticated _ => false
  end.

Definition count_true (l : list bool) : nat := length (List.filter id l).

(** The initial checks ([defer(() => isAuthenticated())]) that trigger
    subscription [k] has made. *)
Definition initial_checks (k : nat) (s : AuthState) : nat :=
  length (List.filter is_initial (calls_of k s)).

Definition Inv_initial (s : AuthState) : Prop :=
  ∀ k tr, triggers s !! k = Some tr →
    initial_checks k s = if switched tr then 1 else 0.

(** The profile lookups ([getUser()] / [getIdTokenClaims()]) that trigger
    subscription [k] has made. *)
Definition profile_calls (k : nat) (s : AuthState) : list Call :=
  List.filter is_profile_call (calls_of k s).

Definition Inv_profile (s : AuthState) : Prop :=
  ∀ k tr, triggers s !! k = Some tr →
    match concat_view tr with
    | None => profile_calls k s = []
    | Some (d, sub, buffer, active) =>
        ∃ m, profile_calls k s = replicate m (GetProfile d) ∧
             m + count_true buffer = count_true (fired_by k s)
    end.

(** The values passed to [setIsLoading] in a run, oldest first. *)
Definition loading_call (ev : Event) : option bool :=
  match ev with
  | CallSetIsLoading b => Some b
  | _ => None
  end.

Definition loading_calls (evs : list Event) : list bool := omap loading_call evs.

(** The errors passed to [setError] in a run, oldest first. *)
Definition error_call (ev : Event) : option Err :=
  match ev with
  | CallSetError e => Some e
  | _ => None
  end.

Definition error_calls (evs : list Event) : list Err := omap error_call evs.

(** A step that leaves error$ alone. *)
Definition error_frame (s s' : AuthState) : Prop :=
  errorSubject s' = errorSubject s ∧
  errorObservers s' = errorObservers s ∧
  ∀ sub, notes sub ErrorS s' = notes sub ErrorS s.

(** Nothing has happened to trigger subscription [k] between [s] and
    [s']: its state, the client calls made for it, what it emitted and, if
    it feeds a derived stream, what its subscriber received are the same. *)
Definition same_at (k : nat) (s s' : AuthState) : Prop :=
  triggers s' !! k = triggers s !! k ∧
  calls_of k s' = calls_of k s ∧
  fired_by k s' = fired_by k s ∧
  ∀ tr d sub buffer active,
    triggers s !! k = Some tr → pipe tr = ConcatPipe d sub buffer active →
    notes sub (DerivedS d) s' = notes sub (DerivedS d) s.

(** Subscription [sub] of isAuthenticated$ is served by trigger
    subscription [k]: as long as [k] lives [sub] observes the shared
    subject, the [distinctUntilChanged] of l.86 remembers what [k] emitted
    last, and [sub] has received what [k] emitted, less the repetitions. *)
Definition follows_source (sub k : nat) (s : AuthState) : Prop :=
  ∃ tr, triggers s !! k = Some tr ∧
    pipe tr = SharedPipe (last (fired_by k s)) ∧
    seen sub IsAuthenticatedS s = Rx.distinctUntilChanged (fired_by k s) ∧
    (sub ∈ shareObservers (share s) ↔ live tr = true).

(** ** AuthokClientFactory.createClient (auth.client.ts, l.38-61) *)

(** The values found in a configuration object. *)
#[warnings="-register-all"] Inductive JsVal :=
| JUndefined
| JNull
| JBool (b : bool)
| JNum (n : Z)
| JStr (s : string)
| JObj (fields : list (string * JsVal)).

(** [!!v]: [undefined], [null], [false], [0] and the empty string are
    falsy. *)
Definition truthy (v : JsVal) : bool :=
  match v with
  | JUndefined | JNull => false
  | JBool b => b
  | JNum n => negb (n =? 0)%Z
  | JStr s => negb (String.eqb s "")
  | JObj _ => true
  end.

(** [a || b] *)
Definition js_or (a b : JsVal) : JsVal := if truthy a then a else b.

(** Reading a property of a plain object, a map from property names to
    values: [undefined] when the object does not have it. *)
Definition prop (name : string) (o : gmap string JsVal) : JsVal :=
  default JUndefined (o !! name).

(** [../useragent]: the name and version of the SDK. *)
Record UserAgent := { ua_name : string; ua_version : string }.

(** What [createClient] passes for the SDK itself. *)
Definition sdk_identity (useragent : UserAgent) : JsVal :=
  JObj [("name", JStr (ua_name useragent));
        ("version", JStr (ua_version useragent))].

Definition missing_configuration : string :=
  "Configuration must be specified either through AuthModule.forRoot or through AuthClientConfig.set".

(** [createClient]: the options handed to [new AuthokClient(...)], or the
    message of the [Error] thrown.  [config] is what [configFactory.get()]
    returns, [origin] is [window.location.origin]. *)
Definition createClient (useragent : UserAgent) (origin : string)
    (config : option (gmap string JsVal)) : string + gmap string JsVal :=
  match config with
  | None => inl missing_configuration
  | Some config =>
      let redirectUri := prop "redirectUri" config in
      let clientId := prop "clientId" config in
      let maxAge := prop "maxAge" config in
      let rest :=
        delete "httpInterceptor"
          (delete "maxAge" (delete "clientId" (delete "redirectUri" config))) in
      inr (<["authokClient" := sdk_identity useragent]>
             (rest ∪
                <["max_age" := maxAge]>
                  (<["client_id" := clientId]>
                     (<["redirect_uri" := js_or redirectUri (JStr origin)]> ∅))))
  end.

(** The properties of the configuration that [createClient] takes out of
    it, and the ones it sets. *)
Definition taken_out : gset string :=
  {["redirectUri"; "clientId"; "maxAge"; "httpInterceptor"]}.

Definition set_by_factory : gset string :=
  {["redirect_uri"; "client_id"; "max_age"; "authokClient"]}.

(** The value under a property name of an object literal
    [{ name: fallback, ...rest }]. *)
Definition spread_over (name : string) (fallback : JsVal)
    (config : gmap string JsVal) : JsVal :=
  default fallback (config !! name).

(** ** The playground: AppComponent.loginHandleInvitationUrl
    (app.component.ts, l.69-87) *)

(** The character class [[a-zA-Z0-9_]]. *)
Definition is_word (c : Ascii.ascii) : bool :=
  let n := Ascii.nat_of_ascii c in
  (97 <=? n) && (n <=? 122) || (65 <=? n) && (n <=? 90) ||
  (48 <=? n) && (n <=? 57) || (n =? 95).

(** [[a-zA-Z0-9_]*] at the start of [s]: the quantifier is greedy. *)
Fixpoint take_word (s : string) : string :=
  match s with
  | String c s' => if is_word c then String c (take_word s') else EmptyString
  | EmptyString => EmptyString
  end.

(** What follows [p] in [s], when [s] starts with [p]. *)
Fixpoint strip_prefix (p s : string) : option string :=
  match p, s with
  | EmptyString, _ => Some s
  | String a p', String b s' =>
      if Ascii.eqb a b then strip_prefix p' s' else None
  | String _ _, EmptyString => None
  end.

(** A match of [/key([a-zA-Z0-9_]+)/] at the start of [s]: its group 1. *)
Definition match_here (key s : string) : option string :=
  match strip_prefix key s with
  | Some rest =>
      match take_word rest with
      | EmptyString => None
      | w => Some w
      end
  | None => None
  end.

(** [s.match(/key([a-zA-Z0-9_]+)/)]: group 1 of the leftmost match, [None]
    for [null].  (A character outside ASCII takes several bytes of the
    string here, none of which is in the class or in a key.) *)
Fixpoint capture (key s : string) : option string :=
  match match_here key s with
  | Some w => Some w
  | None =>
      match s with
      | String _ s' => capture key s'
      | EmptyString => None
      end
  end.

(** The options of a call of [auth.loginWithRedirect]. *)
Record InvitationLogin := {
  login_organization : string;
  login_invitation : option string;
}.

(** [loginHandleInvitationUrl], given what [prompt] returned ([None] for
    [null]): the call of [loginWithRedirect] it makes, if any. *)
Definition loginHandleInvitationUrl (answer : option string)
    : option InvitationLogin :=
  match answer with
  | Some url =>
      if String.eqb url "" then None
      else
        let inviteMatches := capture "invitation=" url in
        let orgMatches := capture "organization=" url in
        match orgMatches, inviteMatches with
        | Some org, Some inv =>
            Some {| login_organization := org; login_invitation := Some inv |}
        | Some org, None =>
            Some {| login_organization := org; login_invitation := None |}
        | None, _ => None
        end
  | None => None
  end.

(** [key] followed by a word character occurs in [url] after [pre]. *)
Definition occurs_at (key url pre : string) : Prop :=
  ∃ c post, url = pre +:+ key +:+ String c post ∧ is_word c = true.

(** [w] is the run of word characters that follows the first such
    occurrence of [key] in [url]. *)
Definition first_word_after (key url w : string) : Prop :=
  ∃ pre post,
    url = pre +:+ key +:+ w +:+ post ∧
    w ≠ "" ∧ take_word (w +:+ post) = w ∧
    ∀ pre', occurs_at key url pre' → String.length pre ≤ String.length pre'.

(** * Properties *)

(** ** Runs *)

Lemma run_snoc evs ev s : run (evs ++ [ev]) s = step (run evs s) ev.
Proof. unfold run. by rewrite foldl_app. Qed.

Lemma run_app evs1 evs2 s : run (evs1 ++ evs2) s = run evs2 (run evs1 s).
Proof. unfold run. by rewrite foldl_app. Qed.

Lemma reachable_init : reachable init.
Proof. by exists []. Qed.

Lemma reachable_step s ev : reachable s → reachable (step s ev).
Proof. intros [evs ->]. exists (evs ++ [ev]). by rewrite run_snoc. Qed.

Lemma reachable_run evs : reachable (run evs init).
Proof. by exists evs. Qed.

(** An invariant of the step function holds in every reachable state. *)
Lemma reachable_ind (P : AuthState → Prop) :
  P init → (∀ s ev, reachable s → P s → P (step s ev)) →
  ∀ s, reachable s → P s.
Proof.
  intros H0 Hstep s [evs ->].
  induction evs as [|ev evs IH] using rev_ind; [done|].
  rewrite run_snoc. apply Hstep; [apply reachable_run | done].
Qed.

(** ** Lists *)

Lemma join_imap_nil {A B} (f : nat → A → list B) (l : list A) :
  (∀ i x, l !! i = Some x → f i x = []) → mjoin (imap f l) = [].
Proof.
  intros H. apply join_nil_2, Forall_forall. intros y Hy.
  apply list_elem_of_lookup in Hy as [i Hi].
  rewrite list_lookup_imap in Hi.
  destruct (l !! i) as [x|] eqn:E; simplify_eq/=. by apply H.
Qed.

Lemma imap_snoc {A B} (f : nat → A → B) (l : list A) (x : A) :
  imap f (l ++ [x]) = imap f l ++ [f (length l) x].
Proof.
  rewrite imap_app. simpl. by rewrite Nat.add_0_r.
Qed.

Lemma Rx_scan_app {A B} (f : B → A → B) acc xs ys :
  Rx.scan f acc (xs ++ ys) = Rx.scan f acc xs ++ Rx.scan f (foldl f acc xs) ys.
Proof.
  revert acc. induction xs as [|x xs IH]; intros acc; simpl; [done|].
  by rewrite IH.
Qed.

(** ** The access-token trigger *)

Lemma tr_token_ok t tok tr : tok_ok tok tr → tok_ok (Some t) (tr_token t tr).1.
Proof.
  unfold tok_ok, tr_token, active_sub. intros H.
  destruct (live tr) eqn:Hl, (switched tr) eqn:Hs; simpl;
    rewrite ?Hl, ?Hs; simpl; try done; auto.
Qed.

Lemma tr_loading_ok b tok tr : tok_ok tok tr → tok_ok tok (tr_loading b tok tr).1.
Proof.
  unfold tok_ok, tr_loading, tr_activate, tr_token, active_sub. intros H.
  destruct (live tr) eqn:Hl, (switched tr) eqn:Hs, b, tok; simpl;
    rewrite ?Hl, ?Hs; simpl; try done; auto.
  intros _. by rewrite H.
Qed.

Lemma tok_ok_with_pipe p tok tr : tok_ok tok tr → tok_ok tok (with_pipe p tr).
Proof. done. Qed.

Lemma tok_ok_terminated tok tr : tok_ok tok (terminated tr).
Proof. by intros ?. Qed.

Lemma Inv_tok_insert s k tr' :
  Inv_tok s → tok_ok (accessToken s) tr' →
  Forall (tok_ok (accessToken s)) (<[k := tr']> (triggers s)).
Proof. intros H1 H2. by apply Forall_insert. Qed.

Lemma Inv_tok_subscribeTrigger p s : Inv_tok s → Inv_tok (subscribeTrigger p s).
Proof.
  unfold Inv_tok. simpl. intros H. apply Forall_app. split; [done|].
  apply Forall_singleton, tr_loading_ok. by intros _.
Qed.

Lemma Inv_tok_deliver k b s : Inv_tok s → Inv_tok (deliver k b s).
Proof.
  unfold deliver. intros H.
  destruct (triggers s !! k) as [tr|] eqn:Hk; [|done].
  assert (tok_ok (accessToken s) tr) as Htr
    by (eapply Forall_lookup_1; [apply H | done]).
  destruct (pipe tr); [case_decide|]; unfold Inv_tok; simpl; try done;
    by apply Inv_tok_insert.
Qed.

Lemma Inv_tok_complete_inner k u s : Inv_tok s → Inv_tok (complete_inner k u s).
Proof.
  unfold complete_inner. intros H.
  destruct (triggers s !! k) as [tr|] eqn:Hk; [|done].
  assert (tok_ok (accessToken s) tr) as Htr
    by (eapply Forall_lookup_1; [apply H | done]).
  destruct (pipe tr); unfold Inv_tok; simpl; try done.
  by apply Inv_tok_insert.
Qed.

Lemma Inv_tok_fail k e s : Inv_tok s → Inv_tok (fail k e s).
Proof.
  unfold fail. intros H.
  destruct (triggers s !! k) as [tr|] eqn:Hk; [|done].
  destruct (pipe tr); unfold Inv_tok; simpl;
    apply Inv_tok_insert; auto using tok_ok_terminated.
Qed.

Lemma Inv_tok_step s ev : Inv_tok s → Inv_tok (step s ev).
Proof.
  intros H. destruct ev as [b| |t|e|st|p o]; simpl.
  - unfold Inv_tok. simpl. apply Forall_fmap.
    eapply Forall_impl; [apply H|]. intros tr. apply tr_loading_ok.
  - unfold Inv_tok. simpl. apply Forall_fmap.
    eapply Forall_impl; [apply H|]. by intros tr.
  - unfold Inv_tok. simpl. apply Forall_fmap.
    eapply Forall_impl; [apply H|]. intros tr. apply tr_token_ok.
  - done.
  - unfold subscribe. destruct st; try done.
    + case_match; [|done]. by apply Inv_tok_subscribeTrigger.
    + by apply Inv_tok_subscribeTrigger.
  - unfold settle. destruct (issued s !! p) as [c|]; [|done].
    case_decide; [done|].
    destruct (call c), o; try done; case_match; try done;
      first [by apply Inv_tok_deliver | by apply Inv_tok_complete_inner
            | by apply Inv_tok_fail].
Qed.

Lemma Inv_tok_reachable s : reachable s → Inv_tok s.
Proof.
  revert s. apply reachable_ind.
  - by apply Forall_nil.
  - intros s ev _. apply Inv_tok_step.
Qed.

(** The token subject holds the token recorded last. *)
Lemma accessToken_step s ev :
  accessToken (step s ev) = from_option Some (accessToken s) (token_of ev).
Proof.
  destruct ev as [b| |t|e|st|p o]; simpl; try done.
  - unfold subscribe. destruct st; try done. by case_match.
  - unfold settle. destruct (issued s !! p) as [c|]; [|done].
    case_decide; [done|].
    unfold deliver, complete_inner, fail.
    destruct (call c), o; try done; case_match; try done;
      destruct (triggers _ !! owner c) as [tr|]; try done;
      destruct (pipe tr); try done; by case_decide.
Qed.

Lemma accessToken_run evs : accessToken (run evs init) = last_token evs.
Proof.
  induction evs as [|ev evs IH] using rev_ind; [done|].
  rewrite run_snoc, accessToken_step, IH. unfold last_token.
  rewrite omap_app. simpl. destruct (token_of ev); simpl.
  - by rewrite last_snoc.
  - by rewrite app_nil_r.
Qed.

(** The scan and the filter, one token further. *)
Lemma accessTokenTrigger_snoc (pre : list Token) (t : Token) :
  accessTokenTrigger (pre ++ [t]) =
  accessTokenTrigger pre ++
    (if decide (last pre = Some t) then []
     else [{| previous := last pre; current := Some t |}]).
Proof.
  unfold accessTokenTrigger. rewrite fmap_app, Rx_scan_app, List.filter_app. f_equal.
  assert (current (foldl scan_step seed (Some <$> pre)) = last pre) as Hc.
  { induction pre as [|x pre IH] using rev_ind; [done|].
    by rewrite fmap_app, foldl_app, last_snoc. }
  simpl. unfold token_changed. simpl. rewrite Hc.
  case_decide.
  - rewrite bool_decide_eq_false_2; [done|]. by intros [].
  - rewrite bool_decide_eq_true_2; [|done]. by rewrite <- Hc.
Qed.

Lemma issued_setAccessToken s t :
  Inv_tok s →
  issued (setAccessToken t s) =
  issued s ++ (if decide (accessToken s = Some t) then []
               else checks_for TokenChange (triggers s)).
Proof.
  intros H. simpl. f_equal.
  case_decide as Ht.
  - apply join_imap_nil. intros k tr Hk.
    assert (tok_ok (accessToken s) tr) as Htr
      by (eapply Forall_lookup_1; [apply H | done]).
    unfold tr_token, active_sub, tok_ok in *.
    destruct (live tr); simpl in *; [|done].
    destruct (switched tr); simpl; [|done].
    unfold token_changed. simpl. rewrite Htr by done.
    rewrite bool_decide_eq_false_2; [done|]. by intros [].
  - unfold checks_for. f_equal. apply imap_ext. intros k tr Hk.
    assert (tok_ok (accessToken s) tr) as Htr
      by (eapply Forall_lookup_1; [apply H | done]).
    unfold tr_token, active_sub, tok_ok in *.
    destruct (live tr); simpl in *; [|done].
    destruct (switched tr); simpl; [|done].
    unfold token_changed. simpl. rewrite Htr by done.
    by rewrite bool_decide_eq_true_2.
Qed.

(** C9: the access-token trigger fires exactly when the token recorded by
    [setAccessToken] differs from the token recorded immediately before it
    (or there is none before it): in every reachable state the call starts a
    check on each subscribed trigger iff the tokens differ, so recording the
    same token twice in a row starts the checks once; the same holds of the
    scan-and-filter pipe run over any sequence of tokens. *)
Theorem accessToken_trigger_fires_iff_changed (evs : list Event) (t : Token) :
  let s := run evs init in
  accessToken s = last_token evs ∧
  issued (step s (CallSetAccessToken t)) =
    issued s ++ (if decide (last_token evs = Some t) then []
                 else checks_for TokenChange (triggers s)) ∧
  issued (run [CallSetAccessToken t; CallSetAccessToken t] s) =
    issued (run [CallSetAccessToken t] s) ∧
  (∀ pre : list Token,
     accessTokenTrigger (pre ++ [t]) =
     accessTokenTrigger pre ++
       (if decide (last pre = Some t) then []
        else [{| previous := last pre; current := Some t |}])).
Proof.
  intros s.
  assert (Inv_tok s) as Hs by apply Inv_tok_reachable, reachable_run.
  split; [apply accessToken_run|]. split; [|split].
  3: { intros pre. apply accessTokenTrigger_snoc. }
  - rewrite <- (accessToken_run evs). by apply issued_setAccessToken.
  - change (run [CallSetAccessToken t; CallSetAccessToken t] s)
      with (setAccessToken t (setAccessToken t s)).
    change (run [CallSetAccessToken t] s) with (setAccessToken t s).
    rewrite (issued_setAccessToken (setAccessToken t s)).
    + rewrite decide_True by done. by rewrite app_nil_r.
    + by apply (Inv_tok_step s (CallSetAccessToken t)).
Qed.

Lemma issued_subscribeTrigger_token p s t :
  isLoadingSubject s = false → accessToken s = Some t →
  issued (subscribeTrigger p s) =
  issued s ++ [mkPending (length (triggers s)) (IsAuthenticated Initial);
               mkPending (length (triggers s)) (IsAuthenticated TokenChange)].
Proof.
  intros Hl Ht. unfold subscribeTrigger. simpl. rewrite Hl, Ht.
  unfold tr_loading, tr_activate, tr_token, active_sub, token_changed. simpl.
  done.
Qed.

Lemma issued_setIsLoading_token s t :
  Inv_tok s → accessToken s = Some t →
  issued (setIsLoading false s) = issued s ++ waiting_checks (triggers s).
Proof.
  intros H Ht. simpl. f_equal. unfold waiting_checks. f_equal.
  apply imap_ext. intros k tr Hk.
  assert (tok_ok (accessToken s) tr) as Htr
    by (eapply Forall_lookup_1; [apply H | done]).
  unfold tr_loading, tr_activate, tr_token, active_sub, tok_ok in *.
  rewrite Ht. destruct tr as [[] [] acc p]; simpl in *; try done.
  by rewrite Htr.
Qed.

(** C10: a token recorded before a trigger subscription becomes active is
    kept by the capacity-one token subject: when the subscription activates
    (on the first [false] of isLoading$, or on subscribing once loading is
    over) it starts the initial check and exactly one check for the token
    recorded last, whatever tokens were recorded before that one. *)
Theorem token_before_activation_replayed_once (evs : list Event) (t : Token) :
  let s := run evs init in
  let k := length (triggers s) in
  last_token evs = Some t →
  accessToken s = Some t ∧
  issued (step s (CallSetIsLoading false)) =
    issued s ++ waiting_checks (triggers s) ∧
  (isLoadingSubject s = false → ∀ d,
     issued (step s (Subscribe (DerivedS d))) =
       issued s ++ [mkPending k (IsAuthenticated Initial);
                    mkPending k (IsAuthenticated TokenChange)]) ∧
  (isLoadingSubject s = false → shareStarted (share s) = false →
     issued (step s (Subscribe IsAuthenticatedS)) =
       issued s ++ [mkPending k (IsAuthenticated Initial);
                    mkPending k (IsAuthenticated TokenChange)]).
Proof.
  intros s k Hlast.
  assert (Inv_tok s) as Hs by apply Inv_tok_reachable, reachable_run.
  assert (accessToken s = Some t) as Ht by (by rewrite <- Hlast; apply accessToken_run).
  split; [done|]. split; [|split].
  - by apply (issued_setIsLoading_token s t).
  - intros Hl d. unfold step, subscribe.
    by rewrite (issued_subscribeTrigger_token _ _ t).
  - intros Hl Hst. unfold step, subscribe. cbn [share set_nextSub].
    rewrite Hst. cbn [negb orb].
    by rewrite (issued_subscribeTrigger_token _ _ t).
Qed.

Lemma token_before_activation_replayed_once_witness :
  let evs := [Subscribe (DerivedS User); CallSetAccessToken "t0";
              CallSetAccessToken "t1"] in
  last_token evs = Some "t1" ∧
  issued (run (evs ++ [CallSetIsLoading false]) init) =
    [mkPending 0 (IsAuthenticated Initial);
     mkPending 0 (IsAuthenticated TokenChange)].
Proof.
  intros evs. split; [reflexivity|].
  rewrite run_snoc.
  rewrite (proj1 (proj2 (token_before_activation_replayed_once evs "t1" eq_refl))).
  reflexivity.
Defined.

(** ** Case analysis of a settlement *)

Lemma settle_elim (Q : AuthState → Prop) p o s :
  Q s →
  Q (mark_settled p s) →
  (∀ c og b, issued s !! p = Some c → p ∉ settled s →
     call c = IsAuthenticated og → o = ResolveBool b → live_at (owner c) s →
     Q (deliver (owner c) b (mark_settled p s))) →
  (∀ c d u, issued s !! p = Some c → p ∉ settled s →
     call c = GetProfile d → o = ResolveProfile u → live_at (owner c) s →
     Q (complete_inner (owner c) u (mark_settled p s))) →
  (∀ c e, issued s !! p = Some c → p ∉ settled s →
     o = Reject e → live_at (owner c) s →
     Q (fail (owner c) e (mark_settled p s))) →
  Q (settle p o s).
Proof.
  intros H0 Hm Hd Hc Hf. unfold settle.
  destruct (issued s !! p) as [c|] eqn:Hp; [|done].
  case_decide as Hs; [done|].
  destruct (triggers s !! owner c) as [tr|] eqn:Hk; simpl.
  - destruct (live tr) eqn:Hl.
    + assert (live_at (owner c) s) by (by exists tr).
      destruct (call c) eqn:Hcall, o; eauto.
    + destruct (call c), o; done.
  - destruct (call c), o; done.
Qed.

Lemma pipe_fresh_mono n m tr : n ≤ m → pipe_fresh n tr → pipe_fresh m tr.
Proof. unfold pipe_fresh. destruct (pipe tr); [done|]. lia. Qed.

Lemma tr_loading_live b tok tr : live (tr_loading b tok tr).1 = live tr.
Proof.
  unfold tr_loading, tr_activate, tr_token, active_sub.
  destruct tr as [[] [] acc p], b, tok; done.
Qed.

Lemma tr_loading_pipe b tok tr : pipe (tr_loading b tok tr).1 = pipe tr.
Proof.
  unfold tr_loading, tr_activate, tr_token, active_sub.
  destruct tr as [[] [] acc p], b, tok; done.
Qed.

Lemma tr_token_live t tr : live (tr_token t tr).1 = live tr.
Proof. unfold tr_token. by destruct (active_sub tr). Qed.

Lemma tr_token_pipe t tr : pipe (tr_token t tr).1 = pipe tr.
Proof. unfold tr_token. by destruct (active_sub tr). Qed.

Lemma keeps_pipes_loading b tok : keeps_pipes (tr_loading b tok).
Proof. intros tr. by rewrite tr_loading_live, tr_loading_pipe. Qed.

Lemma keeps_pipes_token t : keeps_pipes (tr_token t).
Proof. intros tr. by rewrite tr_token_live, tr_token_pipe. Qed.

Lemma keeps_pipes_refresh : keeps_pipes tr_refresh.
Proof. by intros tr. Qed.

Lemma Inv_fresh_broadcast f s :
  keeps_pipes f → Inv_fresh s → Inv_fresh (broadcast f s).
Proof.
  intros Hf [H1 H2 H3 H4 H5]. split; simpl; try done.
  apply Forall_fmap. eapply Forall_impl; [apply H4|].
  intros tr. unfold pipe_fresh. simpl. by rewrite (proj2 (Hf tr)).
Qed.

Lemma Inv_fresh_emit_all subs st n s :
  Forall (λ sub, sub < nextSub s) subs →
  Inv_fresh s → Inv_fresh (emit_all subs st n s).
Proof.
  intros Hs [H1 H2 H3 H4 H5]. split; simpl; try done.
  apply Forall_app. split; [done|]. by apply Forall_fmap.
Qed.

Lemma Inv_fresh_emit_to sub st ns s :
  sub < nextSub s → Inv_fresh s → Inv_fresh (emit_to sub st ns s).
Proof.
  intros Hs [H1 H2 H3 H4 H5]. split; simpl; try done.
  apply Forall_app. split; [done|]. apply Forall_fmap.
  by apply Forall_forall.
Qed.

Lemma Inv_fresh_issue k cs s : Inv_fresh s → Inv_fresh (issue k cs s).
Proof. by intros [H1 H2 H3 H4 H5]. Qed.

Lemma Inv_fresh_set_trigger k tr' s :
  pipe_fresh (nextSub s) tr' →
  Inv_fresh s → Inv_fresh (set_triggers (<[k := tr']> (triggers s)) s).
Proof.
  intros Hs [H1 H2 H3 H4 H5]. split; simpl; try done.
  by apply Forall_insert.
Qed.

Lemma Inv_fresh_subscribeTrigger p s :
  pipe_fresh (nextSub s) {| live := true; switched := false; tokenAcc := seed; pipe := p |} →
  Inv_fresh s → Inv_fresh (subscribeTrigger p s).
Proof.
  intros Hp [H1 H2 H3 H4 H5]. split; simpl; try done.
  apply Forall_app. split; [done|]. apply Forall_singleton.
  unfold pipe_fresh in *. by rewrite tr_loading_pipe.
Qed.

Lemma Inv_fresh_bump s :
  Inv_fresh s → Inv_fresh (set_nextSub (S (nextSub s)) s).
Proof.
  intros [H1 H2 H3 H4 H5].
  split; simpl;
    try (eapply Forall_impl; [eassumption|]; simpl; intros; lia).
  eapply Forall_impl; [apply H4|]. intros tr. apply pipe_fresh_mono. lia.
Qed.

Lemma Inv_fresh_lookup k tr s :
  Inv_fresh s → triggers s !! k = Some tr → pipe_fresh (nextSub s) tr.
Proof. intros [_ _ _ H _] Hk. eapply Forall_lookup_1; eauto. Qed.

Lemma Inv_fresh_deliver k b s : Inv_fresh s → Inv_fresh (deliver k b s).
Proof.
  intros H. unfold deliver.
  destruct (triggers s !! k) as [tr|] eqn:Hk; [|done].
  pose proof (Inv_fresh_lookup _ _ _ H Hk) as Htr.
  assert (Inv_fresh (set_fired (fired s ++ [(k, b)]) s)) as H1 by (by destruct H).
  unfold pipe_fresh in Htr.
  destruct (pipe tr) as [last|d sub buf act] eqn:Hp.
  - case_decide; [done|]. unfold share_next.
    apply Inv_fresh_emit_all; [by destruct H|].
    by destruct (Inv_fresh_set_trigger k (with_pipe (SharedPipe (Some b)) tr) _ I H1).
  - apply Inv_fresh_issue, Inv_fresh_emit_to; [done|].
    by apply Inv_fresh_set_trigger.
Qed.

Lemma Inv_fresh_complete_inner k u s :
  Inv_fresh s → Inv_fresh (complete_inner k u s).
Proof.
  intros H. unfold complete_inner.
  destruct (triggers s !! k) as [tr|] eqn:Hk; [|done].
  pose proof (Inv_fresh_lookup _ _ _ H Hk) as Htr.
  unfold pipe_fresh in Htr.
  destruct (pipe tr) as [last|d sub buf act] eqn:Hp; [done|].
  apply Inv_fresh_issue, Inv_fresh_emit_to; [done|].
  by apply Inv_fresh_set_trigger.
Qed.

Lemma Inv_fresh_fail k e s : Inv_fresh s → Inv_fresh (fail k e s).
Proof.
  intros H. unfold fail.
  destruct (triggers s !! k) as [tr|] eqn:Hk; [|done].
  pose proof (Inv_fresh_lookup _ _ _ H Hk) as Htr.
  assert (Inv_fresh (set_triggers (<[k:=terminated tr]> (triggers s)) s)) as H1
    by (by apply Inv_fresh_set_trigger).
  unfold pipe_fresh in Htr.
  destruct (pipe tr) as [last|d sub buf act] eqn:Hp.
  - unfold share_error.
    destruct H1 as [? ? ? ? ?]. split; simpl in *; try done.
    apply Forall_app. split; [done|]. by apply Forall_fmap.
  - by apply Inv_fresh_emit_to.
Qed.

Lemma Inv_fresh_step s ev : Inv_fresh s → Inv_fresh (step s ev).
Proof.
  intros H. destruct ev as [b| |t|e|st|p o]; simpl.
  - apply Inv_fresh_broadcast; [apply keeps_pipes_loading|].
    apply Inv_fresh_emit_all; by destruct H.
  - apply Inv_fresh_broadcast; [apply keeps_pipes_refresh|done].
  - apply Inv_fresh_broadcast; [apply keeps_pipes_token|]. by destruct H.
  - apply Inv_fresh_emit_all; by destruct H.
  - pose proof (Inv_fresh_bump s H) as Hb. unfold subscribe.
    destruct st as [| |d|].
    + apply Inv_fresh_emit_to; [simpl; lia|].
      destruct Hb as [? ? ? ? ?]. split; simpl in *; try done.
      apply Forall_app. split; [done|]. apply Forall_singleton. lia.
    + case_match.
      * apply Inv_fresh_subscribeTrigger; [done|].
        destruct Hb as [? ? ? ? ?]. split; simpl in *; try done.
        apply Forall_singleton. lia.
      * apply Inv_fresh_emit_to; [simpl; lia|].
        destruct Hb as [? ? ? ? ?]. split; simpl in *; try done.
        apply Forall_app. split; [done|]. apply Forall_singleton. lia.
    + apply Inv_fresh_subscribeTrigger; [|done].
      unfold pipe_fresh. simpl. lia.
    + apply Inv_fresh_emit_to; [simpl; lia|].
      destruct Hb as [? ? ? ? ?]. split; simpl in *; try done.
      apply Forall_app. split; [done|]. apply Forall_singleton. lia.
  - assert (Inv_fresh (mark_settled p s)) by (by destruct H).
    apply settle_elim; intros; try done.
    + by apply Inv_fresh_deliver.
    + by apply Inv_fresh_complete_inner.
    + by apply Inv_fresh_fail.
Qed.

Lemma Inv_fresh_reachable s : reachable s → Inv_fresh s.
Proof.
  revert s. apply reachable_ind.
  - split; simpl; by apply Forall_nil.
  - intros s ev _. apply Inv_fresh_step.
Qed.

(** ** What the subscribers of isAuthenticated$ receive *)

Lemma adjacent_distinct_snoc {A} (l : list A) (x : A) :
  adjacent_distinct l → last l ≠ Some x → adjacent_distinct (l ++ [x]).
Proof.
  induction l as [|y l IH]; [done|].
  destruct l as [|z l]; simpl in *.
  - intros _ H. split; [|done]. intros ->. by apply H.
  - intros [Hyz Hl] Hlast. split; [done|]. by apply IH.
Qed.

Lemma omap_note_to sub st sub' st' (ns : list Notification) :
  omap (note_of sub st) ((λ n, mkObs st' n sub') <$> ns) =
  if decide (sub' = sub ∧ st' = st) then ns else [].
Proof.
  induction ns as [|n ns IH]; csimpl; [by case_decide|].
  rewrite IH. unfold note_of. simpl. by repeat case_decide.
Qed.

Lemma omap_note_all_other sub st st' n (subs : list nat) :
  st' ≠ st ∨ sub ∉ subs →
  omap (note_of sub st) (mkObs st' n <$> subs) = [].
Proof.
  intros H. induction subs as [|x subs IH]; csimpl; [done|].
  rewrite IH.
  - unfold note_of. simpl. rewrite decide_False; [done|].
    intros [-> ->]. destruct H as [H|H]; [done|]. apply H. by left.
  - destruct H as [H|H]; [by left|]. right. intros ?. apply H. by right.
Qed.

Lemma omap_note_all_in sub st n (subs : list nat) :
  NoDup subs → sub ∈ subs →
  omap (note_of sub st) (mkObs st n <$> subs) = [n].
Proof.
  intros Hnd Hin. induction Hnd as [|x subs Hx Hnd IH];
    [by apply elem_of_nil in Hin|].
  csimpl. unfold note_of at 1. simpl.
  destruct (decide (x = sub)) as [->|Hne].
  - rewrite decide_True by done. csimpl.
    by rewrite omap_note_all_other by (by right).
  - rewrite decide_False by (by intros [? _]). csimpl.
    apply IH. apply elem_of_cons in Hin as [->|]; done.
Qed.

Lemma notes_emit_to sub st sub' st' ns s :
  notes sub st (emit_to sub' st' ns s) =
  notes sub st s ++ (if decide (sub' = sub ∧ st' = st) then ns else []).
Proof.
  unfold notes, emit_to. cbn [log set_log].
  by rewrite omap_app, omap_note_to.
Qed.

Lemma notes_issue sub st k cs s : notes sub st (issue k cs s) = notes sub st s.
Proof. done. Qed.

Lemma notes_emit_all_other sub st subs st' n s :
  st' ≠ st ∨ sub ∉ subs →
  notes sub st (emit_all subs st' n s) = notes sub st s.
Proof.
  intros H. unfold notes, emit_all. cbn [log set_log].
  by rewrite omap_app, omap_note_all_other, app_nil_r.
Qed.

Lemma notes_emit_all_in sub st subs n s :
  NoDup subs → sub ∈ subs →
  notes sub st (emit_all subs st n s) = notes sub st s ++ [n].
Proof.
  intros Hnd Hin. unfold notes, emit_all. cbn [log set_log].
  by rewrite omap_app, omap_note_all_in.
Qed.

Lemma notes_fresh sub st s :
  Inv_fresh s → nextSub s ≤ sub → notes sub st s = [].
Proof.
  intros [_ _ _ _ H] Hsub. unfold notes.
  induction (log s) as [|o l IH]; [done|].
  apply Forall_cons in H as [Ho Hl]. csimpl.
  rewrite IH by done.
  unfold note_of. by rewrite decide_False by (intros [? _]; lia).
Qed.

Lemma seen_notes sub st s s' :
  notes sub st s' = notes sub st s → seen sub st s' = seen sub st s.
Proof. unfold seen. by intros ->. Qed.

(** A step that leaves the shared stream alone. *)
Lemma Inv_share_frame s s' :
  Inv_share s →
  share s' = share s →
  (∀ k last, source_at s' k last → source_at s k last) →
  (∀ sub, notes sub IsAuthenticatedS s' = notes sub IsAuthenticatedS s) →
  Inv_share s'.
Proof.
  intros [H1 H2 H3 H4 H5 H6 H7] Hsh Hsrc Hn.
  split; rewrite ?Hsh; try done.
  - intros k last Hk. by apply (H1 k), Hsrc.
  - intros k1 k2 l1 l2 Hk1 Hk2. eapply H2; by apply Hsrc.
  - intros sub Hsub. rewrite Hn. by apply H5.
  - intros sub v. rewrite Hn. apply H6.
  - intros sub. rewrite (seen_notes _ _ s); [apply H7 | apply Hn].
Qed.

Lemma source_at_broadcast f s k last :
  keeps_pipes f → source_at (broadcast f s) k last → source_at s k last.
Proof.
  intros Hf (tr' & Hk & Hl & Hp). simpl in Hk.
  rewrite list_lookup_fmap in Hk.
  destruct (triggers s !! k) as [tr|] eqn:E; [|done].
  simpl in Hk. simplify_eq. exists tr.
  destruct (Hf tr) as [Hl' Hp']. by rewrite <- Hl', <- Hp'.
Qed.

Lemma source_at_insert_concat s s' k tr' k' last :
  triggers s' = <[k := tr']> (triggers s) →
  (∀ l, pipe tr' ≠ SharedPipe l) ∨ live tr' = false →
  source_at s' k' last → source_at s k' last ∧ k' ≠ k.
Proof.
  intros Ht Hp (tr & Hk & Hl & Hpipe). rewrite Ht in Hk.
  destruct (decide (k = k')) as [->|Hne].
  - apply list_lookup_insert_Some in Hk as [(_ & -> & _)|[? _]]; [|done].
    destruct Hp as [Hp|Hp]; [by destruct (Hp last)|congruence].
  - rewrite list_lookup_insert_ne in Hk by done. split; [|done].
    by exists tr.
Qed.

Lemma source_at_snoc s s' tr' k last :
  triggers s' = triggers s ++ [tr'] →
  source_at s' k last →
  source_at s k last ∨
  (k = length (triggers s) ∧ live tr' = true ∧ pipe tr' = SharedPipe last).
Proof.
  intros Ht (tr & Hk & Hl & Hpipe). rewrite Ht in Hk.
  apply lookup_app_Some in Hk as [Hk|[Hlen Hk]].
  - left. by exists tr.
  - right. destruct (k - length (triggers s)) as [|n] eqn:E; simplify_eq/=.
    split; [lia|done].
Qed.

Lemma Inv_share_broadcast f s :
  keeps_pipes f → Inv_share s → Inv_share (broadcast f s).
Proof.
  intros Hf H. apply (Inv_share_frame s); try done.
  intros k last. by apply source_at_broadcast.
Qed.

Lemma Inv_share_subscribe_concat d sub s :
  Inv_share s → Inv_share (subscribeTrigger (ConcatPipe d sub [] false) s).
Proof.
  intros H. apply (Inv_share_frame s); try done.
  intros k last Hk.
  eapply source_at_snoc in Hk as [Hk|(_ & _ & Hp)]; [done| |done].
  by rewrite tr_loading_pipe in Hp.
Qed.

Lemma source_at_lookup s k tr last :
  triggers s !! k = Some tr → live tr = true → pipe tr = SharedPipe last →
  source_at s k last.
Proof. intros. by exists tr. Qed.

Lemma last_fmap_Some {A B} (f : A → B) (l : list A) x :
  last l = Some x → last (f <$> l) = Some (f x).
Proof. intros H. by rewrite fmap_last, H. Qed.

Lemma last_seen_of_notes sub st s v :
  last (notes sub st s) = Some (Next (VBool v)) → last (seen sub st s) = Some v.
Proof.
  unfold seen. intros H.
  destruct (notes sub st s) as [|n l] using rev_ind; [done|].
  rewrite last_snoc in H. simplify_eq.
  rewrite omap_app. csimpl. by rewrite last_snoc.
Qed.

Lemma Inv_share_deliver k b s :
  live_at k s → Inv_share s → Inv_share (deliver k b s).
Proof.
  intros (tr & Hk & Hl) H. unfold deliver. rewrite Hk.
  destruct (pipe tr) as [last|d sub buf act] eqn:Hp.
  - assert (source_at s k last) as Hsrc by (by exists tr).
    destruct (sh_source s H k last Hsrc) as (Hbuf & Hst & Herr).
    case_decide as Hlast.
    { by apply (Inv_share_frame s). }
    set (s1 := set_triggers _ _).
    assert (∀ k' l', source_at s1 k' l' → k' = k ∧ l' = Some b) as Hsrc1.
    { intros k' l' (tr' & Hk' & Hl' & Hp'). simpl in Hk'.
      destruct (decide (k = k')) as [->|Hne].
      - apply list_lookup_insert_Some in Hk' as [(_ & <- & _)|[? _]]; [|done].
        simpl in Hp'. by simplify_eq.
      - rewrite list_lookup_insert_ne in Hk' by done.
        destruct Hne. eapply (sh_unique s H); [done|]. by exists tr'. }
    destruct H as [H1 H2 H3 H4 H5 H6 H7].
    split; simpl.
    + intros k' l' Hk'. by destruct (Hsrc1 k' l' Hk') as [-> ->].
    + intros k1 k2 l1 l2 Hk1 Hk2.
      destruct (Hsrc1 _ _ Hk1) as [-> _]. by destruct (Hsrc1 _ _ Hk2) as [-> _].
    + done.
    + done.
    + intros sub Hsub. unfold share_next.
      rewrite notes_emit_all_in by done. by rewrite last_snoc.
    + intros sub v. unfold share_next.
      destruct (decide (sub ∈ shareObservers (share s))) as [|Hn]; [done|].
      rewrite notes_emit_all_other by (by right). apply H6.
    + intros sub. unfold share_next.
      destruct (decide (sub ∈ shareObservers (share s))) as [Hin|Hn].
      * match goal with |- adjacent_distinct (seen _ _ ?s') =>
          assert (seen sub IsAuthenticatedS s' = seen sub IsAuthenticatedS s ++ [b])
            as -> by (unfold seen; rewrite notes_emit_all_in by done;
                      by rewrite omap_app)
        end.
        apply adjacent_distinct_snoc; [apply H7|].
        specialize (H5 sub Hin). rewrite <- Hbuf in H5.
        destruct last as [v|]; simpl in H5.
        -- rewrite (last_seen_of_notes _ _ _ v) by done. congruence.
        -- unfold seen. apply last_None in H5. by rewrite H5.
      * erewrite seen_notes; [apply H7|].
        by rewrite notes_emit_all_other by (by right).
  - apply (Inv_share_frame s); try done.
    + intros k' l' Hk'.
      eapply (source_at_insert_concat s) in Hk' as [? _]; [done|done|].
      left. by intros l.
    + intros sub'. rewrite notes_issue, notes_emit_to.
      rewrite decide_False by (by intros [_ ?]). by rewrite app_nil_r.
Qed.

Lemma Inv_share_complete_inner k u s :
  Inv_share s → Inv_share (complete_inner k u s).
Proof.
  intros H. unfold complete_inner.
  destruct (triggers s !! k) as [tr|] eqn:Hk; [|done].
  destruct (pipe tr) as [last|d sub buf act] eqn:Hp; [done|].
  apply (Inv_share_frame s); try done.
  - intros k' l' Hk'.
    eapply (source_at_insert_concat s) in Hk' as [? _]; [done|done|].
    left. by intros l.
  - intros sub'. rewrite notes_issue, notes_emit_to.
    rewrite decide_False by (by intros [_ ?]). by rewrite app_nil_r.
Qed.

Lemma Inv_share_fail k e s :
  live_at k s → Inv_share s → Inv_share (fail k e s).
Proof.
  intros (tr & Hk & Hl) H. unfold fail. rewrite Hk.
  set (s1 := set_triggers _ _).
  assert (∀ k' l', source_at s1 k' l' → source_at s k' l' ∧ k' ≠ k) as Hs1.
  { intros k' l'. apply (source_at_insert_concat s s1 k (terminated tr)); auto. }
  destruct (pipe tr) as [last|d sub buf act] eqn:Hp.
  - assert (source_at s k last) as Hsrc by (by exists tr).
    assert (∀ k' l', ¬ source_at s1 k' l') as Hnone.
    { intros k' l' Hk'. destruct (Hs1 _ _ Hk') as [Hk'' Hne].
      apply Hne. by eapply (sh_unique s H). }
    destruct H as [H1 H2 H3 H4 H5 H6 H7].
    split; simpl.
    + intros k' l' Hk'. by destruct (Hnone k' l').
    + intros k1 k2 l1 l2 Hk1. by destruct (Hnone k1 l1).
    + apply NoDup_nil_2.
    + intros sub Hsub. by apply elem_of_nil in Hsub.
    + intros sub Hsub. by apply elem_of_nil in Hsub.
    + intros sub v. unfold share_error.
      destruct (decide (sub ∈ shareObservers (share s))) as [Hin|Hn].
      * rewrite notes_emit_all_in by done. by rewrite last_snoc.
      * rewrite notes_emit_all_other by (by right).
        intros Hv. destruct Hn. by apply (H6 sub v).
    + intros sub. unfold share_error.
      destruct (decide (sub ∈ shareObservers (share s))) as [Hin|Hn].
      * match goal with |- adjacent_distinct (seen _ _ ?s') =>
          assert (seen sub IsAuthenticatedS s' = seen sub IsAuthenticatedS s)
            as -> by (unfold seen; rewrite notes_emit_all_in by done;
                      rewrite omap_app; csimpl; by rewrite app_nil_r)
        end.
        apply H7.
      * erewrite seen_notes; [apply H7|].
        by rewrite notes_emit_all_other by (by right).
  - apply (Inv_share_frame s); try done.
    + intros k' l' Hk'. by destruct (Hs1 _ _ Hk').
    + intros sub'. rewrite notes_emit_to.
      rewrite decide_False by (by intros [_ ?]). by rewrite app_nil_r.
Qed.

Lemma Inv_share_subscribe st s :
  Inv_fresh s → Inv_share s → Inv_share (subscribe st s).
Proof.
  intros Hf H. unfold subscribe. destruct st as [| |d|].
  - apply (Inv_share_frame s); try done.
    intros sub. rewrite notes_emit_to.
    rewrite decide_False by (by intros [_ ?]). by rewrite app_nil_r.
  - set (s1 := set_nextSub _ _). cbn [share s1 set_nextSub].
    destruct (negb (shareStarted (share s)) || shareHasError (share s)) eqn:Hc.
    + assert (∀ k l, ¬ source_at s k l) as Hnone.
      { intros k l Hk. destruct (sh_source s H k l Hk) as (_ & Hst & Herr).
        by rewrite Hst, Herr in Hc. }
      assert (shareObservers (share s) = []) as Hobs.
      { destruct (shareObservers (share s)) as [|x l] eqn:E; [done|].
        destruct (sh_started s H x) as [Hst Herr]; [rewrite E; by left|].
        by rewrite Hst, Herr in Hc. }
      set (s2 := subscribeTrigger _ _).
      assert (∀ k l, source_at s2 k l →
                k = length (triggers s) ∧ l = None) as Hsrc.
      { intros k l Hk.
        eapply (source_at_snoc (set_share _ s1)) in Hk
          as [Hk|(-> & _ & Hp)]; [by destruct (Hnone k l)| |done].
        rewrite tr_loading_pipe in Hp. simpl in Hp. by simplify_eq. }
      destruct H as [H1 H2 H3 H4 H5 H6 H7].
      split; simpl.
      * intros k l Hk. by destruct (Hsrc k l Hk) as [_ ->].
      * intros k1 k2 l1 l2 Hk1 Hk2.
        destruct (Hsrc _ _ Hk1) as [-> _]. by destruct (Hsrc _ _ Hk2) as [-> _].
      * apply NoDup_singleton.
      * done.
      * intros sub Hsub. apply list_elem_of_singleton in Hsub as ->.
        change (notes (nextSub s) IsAuthenticatedS s2)
          with (notes (nextSub s) IsAuthenticatedS s).
        by rewrite notes_fresh.
      * intros sub v Hv.
        change (notes sub IsAuthenticatedS s2)
          with (notes sub IsAuthenticatedS s) in Hv.
        apply H6 in Hv. rewrite Hobs in Hv. by apply elem_of_nil in Hv.
      * intros sub. apply H7.
    + apply orb_false_iff in Hc as [Hst Herr].
      apply negb_false_iff in Hst.
      assert (nextSub s ∉ shareObservers (share s)) as Hnew.
      { intros Hin. destruct Hf as [_ _ Hsh _ _].
        eapply Forall_forall in Hsh; [|done]. lia. }
      destruct H as [H1 H2 H3 H4 H5 H6 H7].
      split; simpl.
      * done.
      * done.
      * apply NoDup_app. split; [done|]. split; [|apply NoDup_singleton].
        intros x Hx Hx'. apply list_elem_of_singleton in Hx' as ->. done.
      * done.
      * intros sub Hsub. rewrite notes_emit_to.
        apply elem_of_app in Hsub as [Hsub|Hsub].
        -- rewrite decide_False by (intros [<- _]; done).
           rewrite app_nil_r. by apply H5.
        -- apply list_elem_of_singleton in Hsub as ->.
           rewrite decide_True by done.
           change (notes (nextSub s) IsAuthenticatedS _)
             with (notes (nextSub s) IsAuthenticatedS s).
           rewrite notes_fresh by done.
           by destruct (shareBuffer (share s)).
      * intros sub v. rewrite notes_emit_to.
        case_decide as Hd.
        -- destruct Hd as [<- _]. intros _. apply elem_of_app. right.
           by apply list_elem_of_singleton.
        -- rewrite app_nil_r. intros Hv. apply elem_of_app. left.
           by apply (H6 sub v).
      * intros sub. unfold seen. rewrite notes_emit_to.
        case_decide as Hd.
        -- destruct Hd as [<- _].
           change (notes (nextSub s) IsAuthenticatedS _)
             with (notes (nextSub s) IsAuthenticatedS s).
           rewrite notes_fresh by done.
           by destruct (shareBuffer (share s)).
        -- rewrite app_nil_r. apply H7.
  - by apply Inv_share_subscribe_concat, (Inv_share_frame s).
  - apply (Inv_share_frame s); try done.
    intros sub. rewrite notes_emit_to.
    rewrite decide_False by (by intros [_ ?]). by rewrite app_nil_r.
Qed.

Lemma Inv_share_step s ev :
  Inv_fresh s → Inv_share s → Inv_share (step s ev).
Proof.
  intros Hf H. destruct ev as [b| |t|e|st|p o]; cbn [step].
  - apply Inv_share_broadcast; [apply keeps_pipes_loading|].
    apply (Inv_share_frame s); try done.
    intros sub. by rewrite notes_emit_all_other by (by left).
  - apply Inv_share_broadcast; [apply keeps_pipes_refresh|done].
  - apply Inv_share_broadcast; [apply keeps_pipes_token|].
    by apply (Inv_share_frame s).
  - apply (Inv_share_frame s); try done.
    intros sub. unfold setError. by rewrite notes_emit_all_other by (by left).
  - by apply Inv_share_subscribe.
  - assert (Inv_share (mark_settled p s)) by (by apply (Inv_share_frame s)).
    apply settle_elim; intros; try done.
    + by apply Inv_share_deliver.
    + by apply Inv_share_complete_inner.
    + by apply Inv_share_fail.
Qed.

Lemma Inv_share_reachable s : reachable s → Inv_share s.
Proof.
  revert s. apply reachable_ind.
  - split; simpl; try done;
      try (by intros ? ? (tr & Hk & _));
      try (by intros ? ? ? ? (tr & Hk & _));
      try apply NoDup_nil_2;
      try (intros sub Hsub; by apply elem_of_nil in Hsub).
  - intros s ev Hr. apply Inv_share_step. by apply Inv_fresh_reachable.
Qed.

(** ** isAuthenticated$ is gated by isLoading$ *)

Lemma Inv_gate_broadcast f s :
  (∀ tr, switched tr = false → f tr = (tr, [])) →
  Inv_gate s → Inv_gate (broadcast f s).
Proof.
  intros Hf [H1 H2 H3 H4 H5].
  assert ((λ tr, (f tr).1) <$> triggers s = triggers s) as Htr.
  { rewrite <- (list_fmap_id (triggers s)) at 2.
    apply list_fmap_ext. intros i tr Hi.
    eapply Forall_lookup_1 in H2; [|done]. by rewrite Hf. }
  split; simpl; rewrite ?Htr; try done.
  rewrite H3. simpl. apply join_imap_nil. intros i tr Hi.
  eapply Forall_lookup_1 in H2; [|done]. by rewrite Hf.
Qed.

Lemma Inv_gate_subscribeTrigger p s : Inv_gate s → Inv_gate (subscribeTrigger p s).
Proof.
  intros [H1 H2 H3 H4 H5]. unfold subscribeTrigger. rewrite H1.
  split; simpl; try done.
  - apply Forall_app. split; [done|]. by apply Forall_singleton.
  - by rewrite H3.
Qed.

Lemma Inv_gate_step s ev :
  ev ≠ CallSetIsLoading false → Inv_gate s → Inv_gate (step s ev).
Proof.
  intros Hev H. destruct ev as [b| |t|e|st|p o]; cbn [step].
  - destruct b; [|done]. apply Inv_gate_broadcast.
    { intros tr _. unfold tr_loading. by rewrite andb_false_r. }
    destruct H as [H1 H2 H3 H4 H5]. split; simpl; try done.
    apply Forall_app. split; [done|]. by apply Forall_fmap, Forall_forall.
  - apply Inv_gate_broadcast; [|done].
    intros tr Hs. unfold tr_refresh, active_sub. by rewrite Hs, andb_false_r.
  - apply Inv_gate_broadcast.
    { intros tr Hs. unfold tr_token, active_sub. by rewrite Hs, andb_false_r. }
    by destruct H.
  - destruct H as [H1 H2 H3 H4 H5]. split; simpl; try done.
    apply Forall_app. split; [done|]. by apply Forall_fmap, Forall_forall.
  - unfold subscribe. destruct st as [| |d|].
    + destruct H as [H1 H2 H3 H4 H5]. split; simpl; try done.
      apply Forall_app. split; [done|]. by apply Forall_singleton.
    + case_match.
      * apply Inv_gate_subscribeTrigger. by destruct H.
      * destruct H as [H1 H2 H3 H4 H5]. split; simpl; try done.
        rewrite H4. simpl. by rewrite app_nil_r.
    + apply Inv_gate_subscribeTrigger. by destruct H.
    + destruct H as [H1 H2 H3 H4 H5]. split; simpl; try done.
      apply Forall_app. split; [done|]. apply Forall_fmap, Forall_forall.
      by intros.
  - unfold settle. destruct H as [H1 H2 H3 H4 H5].
    rewrite H3. by rewrite lookup_nil.
Qed.

Lemma Inv_gate_run evs :
  CallSetIsLoading false ∉ evs → Inv_gate (run evs init).
Proof.
  induction evs as [|ev evs IH] using rev_ind; intros Hevs.
  - split; simpl; try done; by apply Forall_nil.
  - rewrite run_snoc. apply Inv_gate_step.
    + intros ->. apply Hevs, elem_of_app. right. by left.
    + apply IH. intros ?. apply Hevs, elem_of_app. by left.
Qed.






(** ** Checks overlap; results are emitted as they settle *)

Lemma settle_check s p c og b :
  issued s !! p = Some c → p ∉ settled s → call c = IsAuthenticated og →
  live_at (owner c) s →
  settle p (ResolveBool b) s = deliver (owner c) b (mark_settled p s).
Proof.
  intros Hp Hs Hc (tr & Hk & Hl). unfold settle.
  rewrite Hp, decide_False, Hc, Hk by done. simpl. by rewrite Hl.
Qed.

Lemma settle_reject s p c e :
  issued s !! p = Some c → p ∉ settled s → live_at (owner c) s →
  settle p (Reject e) s = fail (owner c) e (mark_settled p s).
Proof.
  intros Hp Hs (tr & Hk & Hl). unfold settle.
  rewrite Hp, decide_False, Hk by done. simpl. rewrite Hl.
  by destruct (call c).
Qed.

Lemma fired_deliver k b s :
  live_at k s → fired (deliver k b s) = fired s ++ [(k, b)].
Proof.
  intros (tr & Hk & _). unfold deliver. rewrite Hk.
  destruct (pipe tr); [by case_decide|done].
Qed.

Lemma shareBuffer_deliver k b s last :
  Inv_share s → source_at s k last →
  shareBuffer (share (deliver k b s)) = Some b.
Proof.
  intros H Hsrc. destruct (sh_source s H k last Hsrc) as (Hbuf & _ & _).
  destruct Hsrc as (tr & Hk & _ & Hp). unfold deliver. rewrite Hk, Hp.
  case_decide; [|done]. simpl. congruence.
Qed.

Lemma issued_refresh s :
  issued (refresh s) = issued s ++ checks_for Refreshed (triggers s).
Proof.
  simpl. unfold checks_for. do 2 f_equal. apply imap_ext. intros k tr _.
  simpl. by destruct (active_sub tr).
Qed.

Lemma elem_of_pending_checks p s :
  p ∈ pending_checks s ↔
  ∃ c, issued s !! p = Some c ∧ (p ∉ settled s) ∧ is_check c = true.
Proof.
  unfold pending_checks, pending.
  rewrite !list_elem_of_In, !List.filter_In. rewrite <- !list_elem_of_In.
  rewrite elem_of_seq, bool_decide_eq_true. split.
  - intros [[[_ Hlt] Hs] Hc].
    destruct (issued s !! p) as [c|] eqn:E; [|done]. by exists c.
  - intros (c & Hp & Hs & Hc). rewrite Hp. repeat split; try done; try lia.
    by apply lookup_lt_Some in Hp.
Qed.

(** C2 (as amended): every trigger event starts its own check at once, on
    every subscribed trigger and whatever checks are still in flight (the
    pipeline merges, it does not queue); a trigger subscription emits the
    result of a check when that check settles, so isAuthenticated$ holds the
    result of the check that settled last, not of the one started last. *)
Theorem checks_overlap_and_emit_in_settle_order
    (evs : list Event) (p : nat) (c : Pending) (og : Origin) (b : bool) :
  let s := run evs init in
  let s' := step s (Settle p (ResolveBool b)) in
  issued s !! p = Some c → p ∉ settled s → call c = IsAuthenticated og →
  live_at (owner c) s →
  issued (step s CallRefresh) = issued s ++ checks_for Refreshed (triggers s) ∧
  p ∈ pending_checks (step s CallRefresh) ∧
  fired s' = fired s ++ [(owner c, b)] ∧
  (∀ last, source_at s (owner c) last → shareBuffer (share s') = Some b).
Proof.
  intros s s' Hp Hs Hc Hl.
  split; [apply issued_refresh|]. split; [|split].
  - apply elem_of_pending_checks. exists c. split; [|split].
    + cbn [step]. rewrite issued_refresh. by apply lookup_app_l_Some.
    + done.
    + unfold is_check. by rewrite Hc.
  - unfold s'. cbn [step]. rewrite (settle_check s p c og) by done.
    rewrite fired_deliver; [done | exact Hl].
  - intros last Hsrc. unfold s'. cbn [step].
    rewrite (settle_check s p c og) by done.
    apply (shareBuffer_deliver _ _ _ last); [|exact Hsrc].
    apply (Inv_share_frame s); try done.
    apply Inv_share_reachable, reachable_run.
Qed.

Lemma checks_overlap_and_emit_in_settle_order_witness :
  let evs := [CallSetIsLoading false; Subscribe IsAuthenticatedS; CallRefresh] in
  pending_checks (run evs init) = [0; 1] ∧
  shareBuffer (share (run (evs ++ [Settle 1 (ResolveBool true)]) init)) = Some true.
Proof.
  intros evs. split; [reflexivity|].
  rewrite run_snoc.
  refine (proj2 (proj2 (proj2 (checks_overlap_and_emit_in_settle_order evs 1
    (mkPending 0 (IsAuthenticated Refreshed)) Refreshed true
    eq_refl _ eq_refl _))) None _).
  - refine (bool_decide_unpack _ _). vm_compute. exact I.
  - eexists. split; [reflexivity|reflexivity].
  - eexists. split; [reflexivity|]. split; reflexivity.
Defined.

(** C2, as stated, fails: two checks of one trigger subscription are in
    flight together, and when the later one settles first, isAuthenticated$
    emits the results in settlement order, ending on the stale one. *)
Lemma checks_serialized_counterexample :
  ¬ (∀ evs sub,
       let s := run evs init in
       length (pending_checks s) ≤ 1 ∧
       seen sub IsAuthenticatedS s = Rx.distinctUntilChanged (queued_results evs)).
Proof.
  intros H.
  pose proof (H [CallSetIsLoading false; Subscribe IsAuthenticatedS; CallRefresh;
                 Settle 1 (ResolveBool true); Settle 0 (ResolveBool false)] 0)
    as [_ H1].
  vm_compute in H1. discriminate H1.
Qed.

(** ** A failed check *)

Lemma omap_bool_errors (e : Err) (l : list nat) :
  omap bool_of ((λ _ : nat, Error e) <$> l) = [].
Proof. induction l as [|x l IH]; [done|]. csimpl. by rewrite IH. Qed.

Lemma omap_note_errors sub st st' e (l : list nat) :
  ∃ n, omap (note_of sub st) (mkObs st' (Error e) <$> l) = replicate n (Error e).
Proof.
  induction l as [|x l [n IH]]; [by exists 0|]. csimpl. rewrite IH.
  unfold note_of. simpl. case_decide; [by exists (S n) | by exists n].
Qed.

(** What [fail] adds to the log of a subscription: error notifications. *)
Lemma notes_fail sub st k e s :
  ∃ n, notes sub st (fail k e s) = notes sub st s ++ replicate n (Error e).
Proof.
  unfold fail. destruct (triggers s !! k) as [tr|];
    [|exists 0; symmetry; apply app_nil_r].
  destruct (pipe tr) as [last|d sub' buf act].
  - unfold share_error, emit_all, notes. cbn [log set_log set_share set_triggers].
    rewrite omap_app.
    destruct (omap_note_errors sub st IsAuthenticatedS e
      (shareObservers (share (set_triggers (<[k:=terminated tr]> (triggers s)) s))))
      as [n ->].
    by exists n.
  - rewrite notes_emit_to. case_decide.
    + by exists 1.
    + exists 0. by rewrite !app_nil_r.
Qed.

Lemma notes_fail_error sub k e s :
  notes sub ErrorS (fail k e s) = notes sub ErrorS s.
Proof.
  unfold fail. destruct (triggers s !! k) as [tr|]; [|done].
  destruct (pipe tr) as [last|d sub' buf act].
  - unfold share_error. by rewrite notes_emit_all_other by (by left).
  - rewrite notes_emit_to, decide_False by (by intros [_ ?]).
    by rewrite app_nil_r.
Qed.

Lemma seen_fail sub st k e s : seen sub st (fail k e s) = seen sub st s.
Proof.
  unfold seen. destruct (notes_fail sub st k e s) as [n ->].
  rewrite omap_app.
  assert (omap bool_of (replicate n (Error e)) = []) as ->
    by (induction n; [done|]; by csimpl).
  by rewrite app_nil_r.
Qed.

Lemma seen_profiles_fail sub d k e s :
  seen_profiles sub d (fail k e s) = seen_profiles sub d s.
Proof.
  unfold seen_profiles. destruct (notes_fail sub (DerivedS d) k e s) as [n ->].
  rewrite omap_app.
  assert (omap profile_of (replicate n (Error e)) = []) as ->
    by (induction n; [done|]; by csimpl).
  by rewrite app_nil_r.
Qed.

Lemma fail_fields k e s :
  errorSubject (fail k e s) = errorSubject s ∧
  fired (fail k e s) = fired s ∧
  issued (fail k e s) = issued s.
Proof.
  unfold fail. destruct (triggers s !! k) as [tr|]; [|done].
  by destruct (pipe tr).
Qed.

Lemma fail_dead k e s : ¬ live_at k (fail k e s).
Proof.
  intros (tr' & Hk & Hl). unfold fail in Hk.
  destruct (triggers s !! k) as [tr|] eqn:E; [|congruence].
  assert (triggers (fail k e s) = <[k := terminated tr]> (triggers s)) as Ht.
  { unfold fail. rewrite E. by destruct (pipe tr). }
  assert (<[k := terminated tr]> (triggers s) !! k = Some tr') as Hk'.
  { destruct (pipe tr); exact Hk. }
  apply list_lookup_insert_Some in Hk' as [(_ & <- & _)|[? _]]; done.
Qed.

Lemma fail_source k e s prev sub :
  Inv_share s → source_at s k prev →
  shareHasError (share (fail k e s)) = true ∧
  (sub ∈ shareObservers (share s) →
   last (notes sub IsAuthenticatedS (fail k e s)) = Some (Error e)).
Proof.
  intros H (tr & Hk & _ & Hp). unfold fail. rewrite Hk, Hp. split; [done|].
  intros Hin. unfold share_error.
  rewrite notes_emit_all_in; [by rewrite last_snoc|apply (sh_nodup s H)|done].
Qed.

(** C3 (as amended): when the check of a trigger fails, no stream emits a
    value for it and nothing is written to error$ (only [setError] writes
    there); the error is delivered as an error notification that ends this
    trigger subscription, so it evaluates no later trigger; for
    isAuthenticated$ every subscriber receives the error and [shareReplay]
    marks the stream for a fresh start. *)
Theorem failed_check_ends_the_stream
    (evs : list Event) (p : nat) (c : Pending) (og : Origin) (e : Err) :
  let s := run evs init in
  let s' := step s (Settle p (Reject e)) in
  issued s !! p = Some c → p ∉ settled s → call c = IsAuthenticated og →
  live_at (owner c) s →
  errorSubject s' = errorSubject s ∧
  (∀ sub, notes sub ErrorS s' = notes sub ErrorS s) ∧
  fired s' = fired s ∧
  (∀ sub st, seen sub st s' = seen sub st s) ∧
  (∀ sub d, seen_profiles sub d s' = seen_profiles sub d s) ∧
  ¬ live_at (owner c) s' ∧
  (∀ prev, source_at s (owner c) prev →
     shareHasError (share s') = true ∧
     ∀ sub, sub ∈ shareObservers (share s) →
       last (notes sub IsAuthenticatedS s') = Some (Error e)).
Proof.
  intros s s' Hp Hs Hc Hl. unfold s'. cbn [step].
  rewrite (settle_reject s p c e) by done.
  set (s1 := mark_settled p s).
  destruct (fail_fields (owner c) e s1) as (He & Hf & _).
  split; [exact He|]. split; [|split; [exact Hf|]].
  - intros sub. exact (notes_fail_error sub (owner c) e s1).
  - assert (Inv_share s1) as Hsh.
    { apply (Inv_share_frame s); try done.
      apply Inv_share_reachable, reachable_run. }
    split; [intros sub st; exact (seen_fail sub st (owner c) e s1)|].
    split; [intros sub d; exact (seen_profiles_fail sub d (owner c) e s1)|].
    split; [apply fail_dead|].
    intros prev Hsrc. split.
    + by apply (fail_source (owner c) e s1 prev 0 Hsh).
    + intros sub Hin. by apply (fail_source (owner c) e s1 prev sub Hsh).
Qed.

Lemma failed_check_ends_the_stream_witness :
  let evs := [CallSetIsLoading false; Subscribe IsAuthenticatedS;
              Subscribe ErrorS; Settle 0 (ResolveBool true); CallRefresh] in
  let s := run evs init in
  let s' := run (evs ++ [Settle 1 (Reject "isAuthenticated failed")]) init in
  issued s !! 1 = Some (mkPending 0 (IsAuthenticated Refreshed)) ∧
  errorSubject s' = None ∧
  seen 0 IsAuthenticatedS s' = [true] ∧
  last (notes 0 IsAuthenticatedS s') = Some (Error "isAuthenticated failed").
Proof.
  intros evs s s'. split; [reflexivity|].
  unfold s'. rewrite run_snoc.
  assert (1 ∉ settled (run evs init)) as Hs by (refine (bool_decide_unpack _ _); vm_compute; exact I).
  assert (live_at 0 (run evs init)) as Hl
    by (eexists; split; reflexivity).
  destruct (failed_check_ends_the_stream evs 1
    (mkPending 0 (IsAuthenticated Refreshed)) Refreshed
    "isAuthenticated failed" eq_refl Hs eq_refl Hl)
    as (He & _ & _ & Hseen & _ & _ & Hsrc).
  split; [by rewrite He|]. split; [by rewrite Hseen|].
  apply (Hsrc (Some true)).
  - eexists. split; [reflexivity|]. split; reflexivity.
  - vm_compute. by left.
Defined.

(** C3, as stated, fails: AuthState does not record a failed check on
    error$, and the trigger subscription does not survive it. *)
Lemma failed_check_recorded_counterexample :
  ¬ (∀ evs p c og e,
       let s := run evs init in
       let s' := step s (Settle p (Reject e)) in
       issued s !! p = Some c → p ∉ settled s →
       call c = IsAuthenticated og → live_at (owner c) s →
       errorSubject s' = Some e ∧
       (∀ sub, seen sub IsAuthenticatedS s' = seen sub IsAuthenticatedS s) ∧
       live_at (owner c) s').
Proof.
  intros H.
  destruct (H [CallSetIsLoading false; Subscribe IsAuthenticatedS;
               Subscribe ErrorS; Settle 0 (ResolveBool true); CallRefresh]
              1 (mkPending 0 (IsAuthenticated Refreshed)) Refreshed
              "isAuthenticated failed" eq_refl) as (He & _ & _).
  - refine (bool_decide_unpack _ _). vm_compute. exact I.
  - reflexivity.
  - eexists. split; reflexivity.
  - vm_compute in He. discriminate He.
Qed.

(** ** Identifiers stay in range *)

Lemma Inv_bounds_broadcast f s : Inv_bounds s → Inv_bounds (broadcast f s).
Proof.
  intros [H1 H2 H3]. split; simpl.
  - by rewrite length_fmap.
  - intros p Hp. rewrite length_app. specialize (H2 p Hp). lia.
  - rewrite length_fmap. apply Forall_app. split; [done|].
    apply Forall_join, Forall_forall. intros l Hl.
    apply list_elem_of_lookup in Hl as [i Hi].
    rewrite list_lookup_imap in Hi.
    destruct (triggers s !! i) as [tr|] eqn:E; simplify_eq/=.
    apply Forall_fmap, Forall_forall. intros c _. simpl.
    by apply lookup_lt_Some in E.
Qed.

Lemma Inv_bounds_issue k cs s :
  k < length (triggers s) → Inv_bounds s → Inv_bounds (issue k cs s).
Proof.
  intros Hk [H1 H2 H3]. split; simpl; try done.
  - intros p Hp. rewrite length_app. specialize (H2 p Hp). lia.
  - apply Forall_app. split; [done|]. apply Forall_fmap, Forall_forall.
    by intros.
Qed.

Lemma Inv_bounds_frame s s' :
  Inv_bounds s →
  length (triggers s') = length (triggers s) →
  fired s' = fired s → settled s' = settled s → issued s' = issued s →
  Inv_bounds s'.
Proof.
  intros [H1 H2 H3] Ht Hf Hs Hi. split; by rewrite ?Ht, ?Hf, ?Hs, ?Hi.
Qed.

Lemma Inv_bounds_subscribeTrigger p s :
  Inv_bounds s → Inv_bounds (subscribeTrigger p s).
Proof.
  intros [H1 H2 H3]. unfold subscribeTrigger.
  apply Inv_bounds_issue; [simpl; rewrite length_app; simpl; lia|].
  split; simpl; try done; rewrite length_app; simpl.
  - eapply Forall_impl; [apply H1|]. simpl. intros; lia.
  - eapply Forall_impl; [apply H3|]. simpl. intros; lia.
Qed.

Lemma Inv_bounds_deliver k b s :
  live_at k s → Inv_bounds s → Inv_bounds (deliver k b s).
Proof.
  intros (tr & Hk & _) H. unfold deliver. rewrite Hk.
  pose proof (lookup_lt_Some _ _ _ Hk) as Hlt.
  assert (Inv_bounds (set_fired (fired s ++ [(k, b)]) s)) as H1.
  { destruct H as [H1 H2 H3]. split; simpl; try done.
    apply Forall_app. split; [done|]. by apply Forall_singleton. }
  destruct (pipe tr); [case_decide; [done|]|].
  - apply (Inv_bounds_frame _ _ H1); try done. simpl. by rewrite length_insert.
  - apply Inv_bounds_issue.
    + simpl. by rewrite length_insert.
    + apply (Inv_bounds_frame _ _ H1); try done. simpl. by rewrite length_insert.
Qed.

Lemma Inv_bounds_complete_inner k u s :
  Inv_bounds s → Inv_bounds (complete_inner k u s).
Proof.
  intros H. unfold complete_inner.
  destruct (triggers s !! k) as [tr|] eqn:Hk; [|done].
  pose proof (lookup_lt_Some _ _ _ Hk) as Hlt.
  destruct (pipe tr); [done|].
  apply Inv_bounds_issue.
  - simpl. by rewrite length_insert.
  - apply (Inv_bounds_frame _ _ H); try done. simpl. by rewrite length_insert.
Qed.

Lemma Inv_bounds_fail k e s : Inv_bounds s → Inv_bounds (fail k e s).
Proof.
  intros H. unfold fail.
  destruct (triggers s !! k) as [tr|] eqn:Hk; [|done].
  destruct (pipe tr);
    apply (Inv_bounds_frame _ _ H); try done; simpl; by rewrite length_insert.
Qed.

Lemma Inv_bounds_mark p s :
  p < length (issued s) → Inv_bounds s → Inv_bounds (mark_settled p s).
Proof.
  intros Hp [H1 H2 H3]. split; simpl; try done.
  intros q Hq. apply elem_of_union in Hq as [Hq|Hq]; [|by apply H2].
  apply elem_of_singleton in Hq as ->. done.
Qed.

Lemma Inv_bounds_step s ev : Inv_bounds s → Inv_bounds (step s ev).
Proof.
  intros H. destruct ev as [b| |t|e|st|p o]; cbn [step].
  - apply Inv_bounds_broadcast. by apply (Inv_bounds_frame s).
  - by apply Inv_bounds_broadcast.
  - apply Inv_bounds_broadcast. by apply (Inv_bounds_frame s).
  - by apply (Inv_bounds_frame s).
  - unfold subscribe. destruct st as [| |d|].
    + by apply (Inv_bounds_frame s).
    + case_match.
      * apply Inv_bounds_subscribeTrigger. by apply (Inv_bounds_frame s).
      * by apply (Inv_bounds_frame s).
    + apply Inv_bounds_subscribeTrigger. by apply (Inv_bounds_frame s).
    + by apply (Inv_bounds_frame s).
  - destruct (issued s !! p) as [c|] eqn:Hp.
    + assert (Inv_bounds (mark_settled p s)) as Hm.
      { apply Inv_bounds_mark; [|done]. by apply lookup_lt_Some in Hp. }
      apply settle_elim; intros; try done.
      * by apply Inv_bounds_deliver.
      * by apply Inv_bounds_complete_inner.
      * by apply Inv_bounds_fail.
    + unfold settle. by rewrite Hp.
Qed.

Lemma Inv_bounds_reachable s : reachable s → Inv_bounds s.
Proof.
  revert s. apply reachable_ind.
  - split; simpl; try by apply Forall_nil. intros p Hp. set_solver.
  - intros s ev _. apply Inv_bounds_step.
Qed.

(** ** The derived streams answer the checks of their own subscription *)

Lemma omap_profiles (xs : list (Nullable Profile)) :
  omap profile_of (Next ∘ VProfile <$> xs) = xs.
Proof. induction xs as [|x xs IH]; [done|]. csimpl. by rewrite IH. Qed.

Lemma seen_profiles_emit_to sub d sub' st' ns s :
  seen_profiles sub d (emit_to sub' st' ns s) =
  seen_profiles sub d s ++
    (if decide (sub' = sub ∧ st' = DerivedS d) then omap profile_of ns else []).
Proof.
  unfold seen_profiles. rewrite notes_emit_to, omap_app. by case_decide.
Qed.

Lemma seen_profiles_emit_all sub d subs st n s :
  st ≠ DerivedS d →
  seen_profiles sub d (emit_all subs st n s) = seen_profiles sub d s.
Proof.
  intros H. unfold seen_profiles. by rewrite notes_emit_all_other by (by left).
Qed.

Lemma seen_profiles_fresh sub d s :
  Inv_fresh s → nextSub s ≤ sub → seen_profiles sub d s = [].
Proof. intros Hf Hs. unfold seen_profiles. by rewrite notes_fresh. Qed.

Lemma fired_by_snoc k k' b s s' :
  fired s' = fired s ++ [(k', b)] →
  fired_by k s' = fired_by k s ++ (if decide (k' = k) then [b] else []).
Proof.
  intros H. unfold fired_by. rewrite H, omap_app. csimpl. by case_decide.
Qed.

Lemma fired_by_out_of_range k s :
  Inv_bounds s → length (triggers s) ≤ k → fired_by k s = [].
Proof.
  intros [H _ _] Hk. unfold fired_by.
  induction (fired s) as [|kb l IH]; [done|].
  apply Forall_cons in H as [Hkb Hl]. csimpl. rewrite IH by done.
  by rewrite decide_False by lia.
Qed.

Lemma drain_spec (buffer : list bool) :
  ∃ pre, buffer = pre ++ inflight (drain buffer).2 ++ (drain buffer).1.2 ∧
         Forall2 answers pre (drain buffer).1.1 ∧
         ((drain buffer).2 = false → (drain buffer).1.2 = []).
Proof.
  induction buffer as [|[] buffer (pre & Hb & Hpre & Hrest)].
  - by exists [].
  - exists []. simpl. split; [done|]. split; [constructor|done].
  - exists (false :: pre). simpl. split; [by rewrite <- Hb|].
    split; [|done]. by constructor.
Qed.

Lemma keeps_concat f tr : keeps_pipes f → concat_view (f tr).1 = concat_view tr.
Proof. intros Hf. unfold concat_view. by rewrite (proj2 (Hf tr)). Qed.

Lemma checks_only_loading b tok : checks_only (tr_loading b tok).
Proof.
  intros tr. unfold tr_loading, tr_activate, tr_token.
  repeat case_match; simpl; repeat constructor; eauto.
Qed.

Lemma checks_only_token t : checks_only (tr_token t).
Proof.
  intros tr. unfold tr_token.
  repeat case_match; simpl; repeat constructor; eauto.
Qed.

Lemma checks_only_refresh : checks_only tr_refresh.
Proof.
  intros tr. unfold tr_refresh.
  repeat case_match; simpl; repeat constructor; eauto.
Qed.

Lemma pending_profile_owner s p k d :
  Inv_bounds s → pending_profile s p k d → k < length (triggers s).
Proof.
  intros [_ _ H] [Hp _]. eapply Forall_lookup_1 in H; [|done]. done.
Qed.

(** A step that leaves the derived streams alone. *)
Lemma Inv_concat_frame s s' :
  Inv_bounds s → Inv_concat s →
  (∀ k tr', triggers s' !! k = Some tr' →
     (length (triggers s) ≤ k ∧ concat_view tr' = None) ∨
     ∃ tr, triggers s !! k = Some tr ∧ concat_view tr' = concat_view tr ∧
           (live tr' = true → live tr = true)) →
  (∀ k tr, triggers s !! k = Some tr → concat_view tr ≠ None →
     fired_by k s' = fired_by k s) →
  (∀ sub d, seen_profiles sub d s' = seen_profiles sub d s) →
  (∀ p k d, pending_profile s' p k d → pending_profile s p k d) →
  Inv_concat s'.
Proof.
  intros Hbd [H1 H2 H3 H4] Ht Hf Hs Hp. split.
  - intros k tr' Hk d sub buf act Hv.
    destruct (Ht k tr' Hk) as [[_ Hn]|(tr & Hk0 & Hv0 & _)]; [congruence|].
    rewrite Hv0 in Hv. destruct (H1 k tr Hk0 d sub buf act Hv) as [Hb Ha].
    split; [done|]. rewrite Hs, (Hf k tr); [done..|congruence].
  - intros k1 k2 tr1 tr2 d1 d2 sub b1 b2 a1 a2 Hk1 Hk2 Hv1 Hv2.
    destruct (Ht k1 tr1 Hk1) as [[_ Hn]|(t1 & Hk1' & Hv1' & _)]; [congruence|].
    destruct (Ht k2 tr2 Hk2) as [[_ Hn]|(t2 & Hk2' & Hv2' & _)]; [congruence|].
    rewrite Hv1' in Hv1. rewrite Hv2' in Hv2. eauto.
  - intros p k d tr' Hpp Hk Hl.
    destruct (Ht k tr' Hk) as [[Hge _]|(tr & Hk0 & Hv0 & Hl0)].
    + apply Hp, (pending_profile_owner s) in Hpp; [lia|done].
    + rewrite Hv0. eapply H3; eauto.
  - intros p1 p2 k d1 d2 tr' Hp1 Hp2 Hk Hl.
    destruct (Ht k tr' Hk) as [[Hge _]|(tr & Hk0 & Hv0 & Hl0)].
    + apply Hp, (pending_profile_owner s) in Hp1; [lia|done].
    + eapply (H4 p1 p2 k d1 d2 tr); eauto.
Qed.

Lemma lookup_broadcast f s k tr' :
  triggers (broadcast f s) !! k = Some tr' →
  ∃ tr, triggers s !! k = Some tr ∧ tr' = (f tr).1.
Proof.
  simpl. rewrite list_lookup_fmap.
  destruct (triggers s !! k) as [tr|]; [|done]. simpl. intros ?.
  simplify_eq. by exists tr.
Qed.

Lemma pending_profile_app s s' p k d news :
  issued s' = issued s ++ news → settled s' = settled s →
  Forall (λ c, ∃ o, call c = IsAuthenticated o) news →
  pending_profile s' p k d → pending_profile s p k d.
Proof.
  intros Hi Hs Hn [Hp Hps]. rewrite Hi in Hp. rewrite Hs in Hps.
  apply lookup_app_Some in Hp as [Hp|[_ Hp]]; [done|].
  eapply Forall_lookup_1 in Hn as [o Ho]; [|done]. done.
Qed.

Lemma broadcast_news f s :
  checks_only f →
  Forall (λ c, ∃ o, call c = IsAuthenticated o)
    (mjoin (imap (λ k tr, mkPending k <$> (f tr).2) (triggers s))).
Proof.
  intros Hf. apply Forall_join, Forall_forall. intros l Hl.
  apply list_elem_of_lookup in Hl as [i Hi]. rewrite list_lookup_imap in Hi.
  destruct (triggers s !! i) as [tr|]; simplify_eq/=.
  apply Forall_fmap. eapply Forall_impl; [apply (Hf tr)|]. by intros c [o ->]; exists o.
Qed.

Lemma Inv_concat_broadcast f s :
  keeps_pipes f → checks_only f →
  Inv_bounds s → Inv_concat s → Inv_concat (broadcast f s).
Proof.
  intros Hf Hc Hbd H. apply (Inv_concat_frame s); try done.
  - intros k tr' Hk. right.
    apply lookup_broadcast in Hk as (tr & Hk & ->). exists tr.
    split; [done|]. split; [by apply keeps_concat|].
    by rewrite (proj1 (Hf tr)).
  - intros p k d. eapply (pending_profile_app s); [reflexivity|reflexivity|].
    by apply broadcast_news.
Qed.

Lemma issue_news k cs :
  Forall (λ c, ∃ o, c = IsAuthenticated o) cs →
  Forall (λ c, ∃ o, call c = IsAuthenticated o) (mkPending k <$> cs).
Proof.
  intros H. apply Forall_fmap. eapply Forall_impl; [apply H|].
  by intros c [o ->]; exists o.
Qed.

Lemma Inv_concat_subscribe_shared s :
  Inv_bounds s → Inv_concat s → Inv_concat (subscribeTrigger (SharedPipe None) s).
Proof.
  intros Hbd H. apply (Inv_concat_frame s); try done.
  - intros k tr' Hk. simpl in Hk.
    apply lookup_app_Some in Hk as [Hk|[Hlen Hk]].
    + right. by exists tr'.
    + left. split; [done|].
      destruct (k - length (triggers s)); simplify_eq/=.
      unfold concat_view. by rewrite tr_loading_pipe.
  - intros p k d. eapply (pending_profile_app s); [reflexivity|reflexivity|].
    apply issue_news, checks_only_loading.
Qed.

Lemma concat_view_with_pipe d sub buf act tr :
  concat_view (with_pipe (ConcatPipe d sub buf act) tr) = Some (d, sub, buf, act).
Proof. done. Qed.

(** A step that changes the [concatMap] state of trigger subscription [k]. *)
Lemma Inv_concat_update s s' k tr tr' d sub buf act buf' act' :
  Inv_concat s →
  triggers s !! k = Some tr →
  concat_view tr = Some (d, sub, buf, act) →
  triggers s' = <[k := tr']> (triggers s) →
  live tr' = live tr →
  concat_view tr' = Some (d, sub, buf', act') →
  (∀ k', k' ≠ k → fired_by k' s' = fired_by k' s) →
  (∀ sub' d', sub' ≠ sub → seen_profiles sub' d' s' = seen_profiles sub' d' s) →
  (act' = false → buf' = []) →
  (∃ answered, fired_by k s' = answered ++ inflight act' ++ buf' ∧
               Forall2 answers answered (seen_profiles sub d s')) →
  (∀ p k' d', k' ≠ k → pending_profile s' p k' d' → pending_profile s p k' d') →
  (live tr = true → ∀ p d', pending_profile s' p k d' → act' = true ∧ d' = d) →
  (live tr = true → ∀ p1 p2 d1 d2,
     pending_profile s' p1 k d1 → pending_profile s' p2 k d2 → p1 = p2) →
  Inv_concat s'.
Proof.
  intros [H1 H2 H3 H4] Hk Hv Ht Hl Hv' Hf Hs Hidle Hok Hpo Hpk Hp1.
  assert (k < length (triggers s)) as Hlt by (by apply lookup_lt_Some in Hk).
  assert (∀ k' t', triggers s' !! k' = Some t' →
            (k' = k ∧ t' = tr') ∨ (k' ≠ k ∧ triggers s !! k' = Some t')) as Hlook.
  { intros k' t' Hk'. rewrite Ht in Hk'.
    destruct (decide (k' = k)) as [->|Hne].
    - rewrite list_lookup_insert_eq in Hk' by done. left. by simplify_eq.
    - rewrite list_lookup_insert_ne in Hk' by done. by right. }
  assert (∀ k' t' d' b' a', triggers s !! k' = Some t' →
            concat_view t' = Some (d', sub, b', a') → k' = k) as Hsub.
  { intros k' t' d' b' a' Hk' Hv''. by eapply (H2 k' k). }
  split.
  - intros k' t' Hk' d' sub' b' a' Hvk.
    destruct (Hlook k' t' Hk') as [[-> ->]|[Hne Hk0]].
    + rewrite Hv' in Hvk. by simplify_eq.
    + destruct (H1 k' t' Hk0 d' sub' b' a' Hvk) as [Hb Ha]. split; [done|].
      rewrite Hf by done. rewrite Hs; [done|].
      intros ->. apply Hne. by eapply Hsub.
  - intros k1 k2 t1 t2 d1 d2 sub' b1 b2 a1 a2 Hk1 Hk2 Hv1 Hv2.
    destruct (Hlook k1 t1 Hk1) as [[-> ->]|[Hne1 Hk1']];
      destruct (Hlook k2 t2 Hk2) as [[-> ->]|[Hne2 Hk2']]; try done.
    + rewrite Hv' in Hv1. simplify_eq. symmetry. by eapply Hsub.
    + rewrite Hv' in Hv2. simplify_eq. by eapply Hsub.
    + by eapply (H2 k1 k2).
  - intros p k' d' t' Hpp Hk' Hlive.
    destruct (Hlook k' t' Hk') as [[-> ->]|[Hne Hk0]].
    + rewrite Hl in Hlive. destruct (Hpk Hlive p d' Hpp) as [-> ->]. eauto.
    + eapply H3; eauto.
  - intros p1 p2 k' d1 d2 t' Hpp1 Hpp2 Hk' Hlive.
    destruct (Hlook k' t' Hk') as [[-> ->]|[Hne Hk0]].
    + rewrite Hl in Hlive. by eapply Hp1.
    + eapply (H4 p1 p2 k'); eauto.
Qed.

Lemma Inv_concat_mark p s :
  Inv_bounds s → Inv_concat s → Inv_concat (mark_settled p s).
Proof.
  intros Hbd H. apply (Inv_concat_frame s); try done.
  - intros k tr' Hk. right. by exists tr'.
  - intros q k d [Hq Hs]. split; [done|]. simpl in Hs. set_solver.
Qed.

Lemma pending_profile_issue s s' k cs p k' d :
  issued s' = issued s ++ (mkPending k <$> cs) → settled s' = settled s →
  pending_profile s' p k' d →
  pending_profile s p k' d ∨
  (k' = k ∧ length (issued s) ≤ p ∧ GetProfile d ∈ cs).
Proof.
  intros Hi Hs [Hp Hps]. rewrite Hi in Hp. rewrite Hs in Hps.
  apply lookup_app_Some in Hp as [Hp|[Hlen Hp]]; [by left|]. right.
  apply list_lookup_fmap_Some in Hp as (c & Hc & Heq).
  unfold mkPending in Heq. simplify_eq. split; [done|]. split; [done|].
  by eapply list_elem_of_lookup_2.
Qed.

Lemma profile_call_elem d d' started :
  GetProfile d' ∈ profile_call d started → started = true ∧ d' = d.
Proof.
  unfold profile_call. destruct started; [|by intros ?%elem_of_nil].
  intros ?%list_elem_of_singleton. by simplify_eq.
Qed.

Lemma pending_profile_lt s p k d :
  pending_profile s p k d → p < length (issued s).
Proof. intros [Hp _]. by apply lookup_lt_Some in Hp. Qed.

Lemma profile_call_length d started : length (profile_call d started) ≤ 1.
Proof. destruct started; simpl; lia. Qed.

Lemma Inv_concat_deliver k b s :
  live_at k s → Inv_bounds s → Inv_concat s → Inv_concat (deliver k b s).
Proof.
  intros (tr & Hk & Hl) Hbd H. unfold deliver. rewrite Hk.
  destruct (pipe tr) as [last|d sub buf act] eqn:Hp.
  - assert (concat_view tr = None) as Hv by (unfold concat_view; by rewrite Hp).
    assert (∀ k' t', triggers s !! k' = Some t' → concat_view t' ≠ None →
              fired_by k' (set_fired (fired s ++ [(k, b)]) s) = fired_by k' s) as Hf.
    { intros k' t' Hk' Hv'. rewrite (fired_by_snoc k' k b s) by done.
      rewrite decide_False; [by rewrite app_nil_r|]. intros ->. congruence. }
    case_decide.
    + apply (Inv_concat_frame s); try done.
      intros k' t' Hk'. right. by exists t'.
    + apply (Inv_concat_frame s); try done.
      * intros k' t' Hk'. right. simpl in Hk'.
        destruct (decide (k' = k)) as [->|Hne].
        -- rewrite list_lookup_insert_eq in Hk'
             by (by apply lookup_lt_Some in Hk).
           simplify_eq. by exists tr.
        -- rewrite list_lookup_insert_ne in Hk' by done. by exists t'.
      * intros sub d. unfold share_next.
        by rewrite seen_profiles_emit_all.
  - assert (concat_view tr = Some (d, sub, buf, act)) as Hv
      by (unfold concat_view; by rewrite Hp).
    destruct (cc_ok s H k tr Hk d sub buf act Hv) as [Hidle (ans & Hfired & Hans)].
    set (r := concat_next b buf act).
    assert ((r.2 = false → r.1.2 = []) ∧
            ∃ pre, inflight act ++ buf ++ [b] = pre ++ inflight r.2 ++ r.1.2 ∧
                   Forall2 answers pre r.1.1 ∧
                   (act = true → pre = [] ∧ r.2 = true)) as (Hidle' & pre & Hsplit & Hpre & Hact).
    { unfold r, concat_next. destruct act; simpl.
      - split; [done|]. exists []. repeat split; constructor.
      - rewrite (Hidle eq_refl). simpl.
        destruct (drain_spec [b]) as (pre & Hb & Hpre & Hrest).
        split; [done|]. exists pre. by repeat split. }
    eapply (Inv_concat_update s _ k tr _ d sub buf act r.1.2 r.2); try done.
    + intros k' Hne. unfold issue, emit_to, fired_by. simpl.
      rewrite omap_app. csimpl. rewrite decide_False by done.
      by rewrite app_nil_r.
    + intros sub' d' Hne.
      unfold seen_profiles. rewrite notes_issue, notes_emit_to.
      rewrite decide_False by (by intros [? _]). by rewrite app_nil_r.
    + exists (ans ++ pre). split.
      * unfold issue, emit_to, fired_by. simpl. rewrite omap_app. csimpl.
        rewrite decide_True by done.
        fold (fired_by k s). rewrite Hfired.
        rewrite <- !app_assoc. f_equal. by rewrite <- Hsplit.
      * unfold seen_profiles. rewrite notes_issue, notes_emit_to.
        rewrite decide_True by done. rewrite omap_app, omap_profiles.
        by apply Forall2_app.
    + intros p k' d' Hne Hpp.
      eapply pending_profile_issue in Hpp as [Hpp|[? _]];
        [exact Hpp|done|reflexivity|reflexivity].
    + intros _ p d' Hpp.
      eapply pending_profile_issue in Hpp as [Hpp|(_ & _ & Hin)];
        [ |apply profile_call_elem in Hin as [Hst ->];
           apply andb_true_iff in Hst as [_ Hst]; by split
         | reflexivity | reflexivity].
      destruct (cc_pending s H p k d' tr Hpp Hk Hl) as (sub0 & buf0 & Hv0).
      rewrite Hv in Hv0. simplify_eq. by destruct (Hact eq_refl) as [_ ->].
    + intros _ p1 p2 d1 d2 Hp1 Hp2.
      pose proof (pending_profile_lt _ _ _ _ Hp1) as Hlt1.
      pose proof (pending_profile_lt _ _ _ _ Hp2) as Hlt2.
      simpl in Hlt1, Hlt2. rewrite length_app, length_fmap in Hlt1, Hlt2.
      pose proof (profile_call_length d (negb act && r.2)) as Hle.
      eapply pending_profile_issue in Hp1 as [Hp1|(_ & Hlen1 & Hin1)];
        [ | | reflexivity | reflexivity];
      (eapply pending_profile_issue in Hp2 as [Hp2|(_ & Hlen2 & Hin2)];
        [ | | reflexivity | reflexivity]).
      * by eapply (cc_single s H p1 p2 k).
      * destruct (cc_pending s H p1 k d1 tr Hp1 Hk Hl) as (sub0 & buf0 & Hv0).
        rewrite Hv in Hv0. simplify_eq.
        apply profile_call_elem in Hin2 as [Hst _]. done.
      * destruct (cc_pending s H p2 k d2 tr Hp2 Hk Hl) as (sub0 & buf0 & Hv0).
        rewrite Hv in Hv0. simplify_eq.
        apply profile_call_elem in Hin1 as [Hst _]. done.
      * simpl in Hlen1, Hlen2. lia.
Qed.

Lemma answers_resolved (u : option Profile) : answers true (of_resolved u).
Proof. unfold answers. by destruct u. Qed.

Lemma concat_view_pipe tr d sub buf act :
  concat_view tr = Some (d, sub, buf, act) → pipe tr = ConcatPipe d sub buf act.
Proof. unfold concat_view. destruct (pipe tr); intros; by simplify_eq. Qed.

Lemma Inv_concat_complete_inner p c d0 u s :
  issued s !! p = Some c → p ∉ settled s → call c = GetProfile d0 →
  live_at (owner c) s → Inv_bounds s → Inv_concat s →
  Inv_concat (complete_inner (owner c) u (mark_settled p s)).
Proof.
  intros Hp Hps Hc (tr & Hk & Hl) Hbd H.
  set (k := owner c) in *.
  assert (pending_profile s p k d0) as Hpp.
  { split; [|done]. rewrite Hp. destruct c. simpl in *. by subst. }
  destruct (cc_pending s H p k d0 tr Hpp Hk Hl) as (sub & buf & Hv).
  pose proof (concat_view_pipe _ _ _ _ _ Hv) as Hpipe.
  set (s0 := mark_settled p s).
  assert (Inv_concat s0) as H0 by (by apply Inv_concat_mark).
  assert (∀ q d', ¬ pending_profile s0 q k d') as Hnone.
  { intros q d' [Hq Hqs]. simpl in Hqs.
    assert (q = p) as -> by (eapply (cc_single s H q p k); eauto; split; [done|set_solver]).
    set_solver. }
  unfold complete_inner. change (triggers s0) with (triggers s).
  rewrite Hk, Hpipe.
  destruct (cc_ok s H k tr Hk d0 sub buf true Hv) as [_ (ans & Hfired & Hans)].
  destruct (drain_spec buf) as (pre & Hb & Hpre & Hrest).
  set (r := drain buf) in *.
  eapply (Inv_concat_update s0 _ k tr _ d0 sub buf true r.1.2 r.2); try done.
  - intros sub' d' Hne. unfold seen_profiles.
    rewrite notes_issue, notes_emit_to.
    rewrite decide_False by (by intros [? _]). by rewrite app_nil_r.
  - exists (ans ++ [true] ++ pre). split.
    + change (fired_by k _) with (fired_by k s). rewrite Hfired. simpl.
      rewrite Hb at 1. by rewrite <- !app_assoc.
    + unfold seen_profiles. rewrite notes_issue, notes_emit_to.
      rewrite decide_True by done. rewrite omap_app, omap_profiles.
      apply Forall2_app; [done|]. constructor; [apply answers_resolved|done].
  - intros q k' d' Hne Hq.
    eapply pending_profile_issue in Hq as [Hq|[? _]];
      [exact Hq|done|reflexivity|reflexivity].
  - intros _ q d' Hq.
    eapply pending_profile_issue in Hq as [Hq|(_ & _ & Hin)];
      [by destruct (Hnone q d')|by apply profile_call_elem in Hin
      |reflexivity|reflexivity].
  - intros _ p1 p2 d1 d2 Hp1 Hp2.
    pose proof (pending_profile_lt _ _ _ _ Hp1) as Hlt1.
    pose proof (pending_profile_lt _ _ _ _ Hp2) as Hlt2.
    simpl in Hlt1, Hlt2. rewrite length_app, length_fmap in Hlt1, Hlt2.
    pose proof (profile_call_length d0 r.2) as Hle.
    eapply pending_profile_issue in Hp1 as [Hp1|(_ & Hlen1 & _)];
      [by destruct (Hnone p1 d1)| |reflexivity|reflexivity].
    eapply pending_profile_issue in Hp2 as [Hp2|(_ & Hlen2 & _)];
      [by destruct (Hnone p2 d2)| |reflexivity|reflexivity].
    simpl in Hlen1, Hlen2. lia.
Qed.

Lemma Inv_concat_fail k e s :
  Inv_bounds s → Inv_concat s → Inv_concat (fail k e s).
Proof.
  intros Hbd H. unfold fail.
  destruct (triggers s !! k) as [tr|] eqn:Hk; [|done].
  assert (∀ k' t', <[k:=terminated tr]> (triggers s) !! k' = Some t' →
    ∃ t0, triggers s !! k' = Some t0 ∧ concat_view t' = concat_view t0 ∧
          (live t' = true → live t0 = true)) as Hlook.
  { intros k' t' Hk'. destruct (decide (k' = k)) as [->|Hne].
    - rewrite list_lookup_insert_eq in Hk' by (by apply lookup_lt_Some in Hk).
      simplify_eq. exists tr. split; [done|]. split; [done|]. by intros.
    - rewrite list_lookup_insert_ne in Hk' by done. by exists t'. }
  destruct (pipe tr) as [last|d sub buf act] eqn:Hp.
  - apply (Inv_concat_frame s); try done.
    + intros k' t' Hk'. right. by apply Hlook.
    + intros sub d. unfold share_error. by rewrite seen_profiles_emit_all.
  - apply (Inv_concat_frame s); try done.
    + intros k' t' Hk'. right. by apply Hlook.
    + intros sub' d'. rewrite seen_profiles_emit_to.
      case_decide; csimpl; by rewrite app_nil_r.
Qed.

Lemma Inv_concat_subscribe_concat d s :
  Inv_fresh s → Inv_bounds s → Inv_concat s →
  Inv_concat (subscribeTrigger (ConcatPipe d (nextSub s) [] false)
                (set_nextSub (S (nextSub s)) s)).
Proof.
  intros Hf Hbd H.
  set (s1 := set_nextSub _ s). set (s' := subscribeTrigger _ _).
  set (k0 := length (triggers s)).
  assert (∃ tr0, triggers s' = triggers s ++ [tr0] ∧
                 concat_view tr0 = Some (d, nextSub s, [], false)) as (tr0 & Ht & Hv0).
  { eexists. split; [reflexivity|]. unfold concat_view.
    by rewrite tr_loading_pipe. }
  assert (∀ p k d', pending_profile s' p k d' → pending_profile s p k d') as Hpend.
  { intros p k d'. eapply (pending_profile_app s); [reflexivity|reflexivity|].
    apply issue_news, checks_only_loading. }
  assert (∀ k t', triggers s' !! k = Some t' →
            (k = k0 ∧ t' = tr0) ∨ (k < k0 ∧ triggers s !! k = Some t')) as Hlook.
  { intros k t' Hk. rewrite Ht in Hk.
    apply lookup_app_Some in Hk as [Hk|[Hlen Hk]].
    - right. split; [|done]. by apply lookup_lt_Some in Hk.
    - left. destruct (k - length (triggers s)) eqn:E; simplify_eq/=.
      split; [unfold k0; lia|done]. }
  assert (∀ k t' d' sub b a, triggers s !! k = Some t' →
            concat_view t' = Some (d', sub, b, a) → sub < nextSub s) as Hold.
  { intros k t' d' sub b a Hk Hv.
    pose proof (Inv_fresh_lookup _ _ _ Hf Hk) as Hfr.
    unfold pipe_fresh in Hfr. by rewrite (concat_view_pipe _ _ _ _ _ Hv) in Hfr. }
  destruct H as [H1 H2 H3 H4]. split.
  - intros k t' Hk d' sub b a Hv.
    destruct (Hlook k t' Hk) as [[-> ->]|[Hlt Hk']].
    + rewrite Hv0 in Hv. simplify_eq. split; [done|]. exists [].
      change (fired_by k0 s') with (fired_by k0 s).
      change (seen_profiles (nextSub s) d' s') with (seen_profiles (nextSub s) d' s).
      rewrite fired_by_out_of_range by done.
      rewrite seen_profiles_fresh by done. split; [done|constructor].
    + by apply (H1 k t' Hk').
  - intros k1 k2 t1 t2 d1 d2 sub b1 b2 a1 a2 Hk1 Hk2 Hv1 Hv2.
    destruct (Hlook k1 t1 Hk1) as [[-> ->]|[Hlt1 Hk1']];
      destruct (Hlook k2 t2 Hk2) as [[-> ->]|[Hlt2 Hk2']]; try done.
    + rewrite Hv0 in Hv1. simplify_eq.
      pose proof (Hold _ _ _ _ _ _ Hk2' Hv2). lia.
    + rewrite Hv0 in Hv2. simplify_eq.
      pose proof (Hold _ _ _ _ _ _ Hk1' Hv1). lia.
    + by eapply (H2 k1 k2).
  - intros p k d' t' Hpp Hk Hl. apply Hpend in Hpp.
    destruct (Hlook k t' Hk) as [[-> ->]|[Hlt Hk']].
    + apply (pending_profile_owner s) in Hpp; [unfold k0 in Hpp; lia|done].
    + by eapply H3.
  - intros p1 p2 k d1 d2 t' Hp1 Hp2 Hk Hl.
    apply Hpend in Hp1. apply Hpend in Hp2.
    destruct (Hlook k t' Hk) as [[-> ->]|[Hlt Hk']].
    + apply (pending_profile_owner s) in Hp1; [unfold k0 in Hp1; lia|done].
    + by eapply (H4 p1 p2 k).
Qed.

Lemma Inv_concat_log s s' :
  Inv_bounds s → Inv_concat s →
  triggers s' = triggers s → fired s' = fired s → issued s' = issued s →
  settled s' = settled s →
  (∀ sub d, seen_profiles sub d s' = seen_profiles sub d s) →
  Inv_concat s'.
Proof.
  intros Hbd H Ht Hf Hi Hs Hseen. apply (Inv_concat_frame s); try done.
  - intros k tr' Hk. right. rewrite Ht in Hk. by exists tr'.
  - intros k tr _ _. unfold fired_by. by rewrite Hf.
  - intros p k d [Hp Hps]. split; [by rewrite <- Hi|by rewrite <- Hs].
Qed.

Lemma Inv_concat_step s ev :
  Inv_fresh s → Inv_bounds s → Inv_concat s → Inv_concat (step s ev).
Proof.
  intros Hf Hbd H. destruct ev as [b| |t|e|st|p o]; cbn [step].
  - unfold setIsLoading.
    apply Inv_concat_broadcast;
      [apply keeps_pipes_loading|apply checks_only_loading| |].
    + by apply (Inv_bounds_frame s).
    + apply (Inv_concat_log s); try done.
      intros sub d. by rewrite seen_profiles_emit_all.
  - by apply Inv_concat_broadcast;
      [apply keeps_pipes_refresh|apply checks_only_refresh| |].
  - apply Inv_concat_broadcast;
      [apply keeps_pipes_token|apply checks_only_token| |].
    + by apply (Inv_bounds_frame s).
    + by apply (Inv_concat_log s).
  - unfold setError. apply (Inv_concat_log s); try done.
    intros sub d. by rewrite seen_profiles_emit_all.
  - unfold subscribe. destruct st as [| |d|].
    + apply (Inv_concat_log s); try done.
      intros sub d. rewrite seen_profiles_emit_to.
      rewrite decide_False by (by intros [_ ?]). by rewrite app_nil_r.
    + case_match.
      * apply Inv_concat_subscribe_shared.
        -- by apply (Inv_bounds_frame s).
        -- by apply (Inv_concat_log s).
      * apply (Inv_concat_log s); try done.
        intros sub d. rewrite seen_profiles_emit_to.
        rewrite decide_False by (by intros [_ ?]). by rewrite app_nil_r.
    + by apply Inv_concat_subscribe_concat.
    + apply (Inv_concat_log s); try done.
      intros sub d. rewrite seen_profiles_emit_to.
      rewrite decide_False by (by intros [_ ?]). by rewrite app_nil_r.
  - destruct (issued s !! p) as [c|] eqn:Hp; [|unfold settle; by rewrite Hp].
    assert (Inv_bounds (mark_settled p s)) as Hm.
    { apply Inv_bounds_mark; [|done]. by apply lookup_lt_Some in Hp. }
    apply settle_elim; intros; try done.
    + by apply Inv_concat_mark.
    + apply Inv_concat_deliver; [done|done|]. by apply Inv_concat_mark.
    + simplify_eq. by eapply Inv_concat_complete_inner.
    + apply Inv_concat_fail; [done|]. by apply Inv_concat_mark.
Qed.

Lemma Inv_concat_reachable s : reachable s → Inv_concat s.
Proof.
  revert s. apply reachable_ind.
  - split; intros; simplify_eq/=; done.
  - intros s ev Hr. apply Inv_concat_step.
    + by apply Inv_fresh_reachable.
    + by apply Inv_bounds_reachable.
Qed.

(** ** The values of the derived streams *)

Lemma other_subscriber s k k' tr tr' d d' sub sub' buf buf' act act' :
  Inv_concat s → k' ≠ k →
  triggers s !! k = Some tr → pipe tr = ConcatPipe d sub buf act →
  triggers s !! k' = Some tr' → pipe tr' = ConcatPipe d' sub' buf' act' →
  sub' ≠ sub.
Proof.
  intros H Hne Hk Hp Hk' Hp' ->. apply Hne.
  apply (cc_uniq s H k' k tr' tr d' d sub buf' buf act' act); try done;
    unfold concat_view; by rewrite ?Hp, ?Hp'.
Qed.

Lemma lookup_insert_with k (tr tr' : TriggerSub) (l : list TriggerSub) k' t' :
  l !! k = Some tr → <[k := tr']> l !! k' = Some t' →
  (k' = k ∧ t' = tr') ∨ (k' ≠ k ∧ l !! k' = Some t').
Proof.
  intros Hk Hk'. destruct (decide (k' = k)) as [->|Hne].
  - rewrite list_lookup_insert_eq in Hk' by (by apply lookup_lt_Some in Hk).
    left. by simplify_eq.
  - rewrite list_lookup_insert_ne in Hk' by done. by right.
Qed.

Lemma lookup_results_snoc k evs ev s :
  lookup_results k (evs ++ [ev]) s =
  lookup_results k evs s ++ option_list (lookup_result k (run evs s) ev).
Proof.
  revert s. induction evs as [|e evs IH]; intros s; simpl.
  - by rewrite app_nil_r.
  - by rewrite IH, app_assoc.
Qed.

Lemma triggers_length_step s ev :
  length (triggers s) ≤ length (triggers (step s ev)).
Proof.
  destruct ev as [b| |t|e|st|p o]; cbn [step].
  - unfold setIsLoading, broadcast. simpl. by rewrite length_fmap.
  - unfold refresh, broadcast. simpl. by rewrite length_fmap.
  - unfold setAccessToken, broadcast. simpl. by rewrite length_fmap.
  - done.
  - unfold subscribe. destruct st as [| |d|]; try case_match; simpl;
      rewrite ?length_app; simpl; lia.
  - apply settle_elim; intros; try done.
    + unfold deliver. repeat case_match; simpl; rewrite ?length_insert; done.
    + unfold complete_inner. repeat case_match; simpl;
        rewrite ?length_insert; done.
    + unfold fail. repeat case_match; simpl; rewrite ?length_insert; done.
Qed.

Lemma not_null_app xs ys : not_null (xs ++ ys) = not_null xs ++ not_null ys.
Proof. unfold not_null. by rewrite List.filter_app. Qed.

Lemma not_null_drain buffer : not_null (drain buffer).1.1 = [].
Proof. induction buffer as [|[] buffer IH]; simpl; done. Qed.

Lemma not_null_concat_next b buffer active :
  not_null (concat_next b buffer active).1.1 = [].
Proof.
  unfold concat_next. destruct active; [done|]. apply (not_null_drain (b :: buffer)).
Qed.

Lemma not_null_resolved u : not_null [of_resolved u] = [of_resolved u].
Proof. by destruct u. Qed.

(** Given which values are [null], the others determine the list. *)
Lemma expected_values_intro answered results xs :
  Forall2 answers answered xs →
  not_null xs = of_resolved <$> results →
  xs = expected_values answered results.
Proof.
  intros H. revert results. induction H as [|b x bs xs Hb Hrest IH];
    intros results Hn; [done|].
  destruct b.
  - assert (x ≠ JsNull) as Hx.
    { intros ->. destruct Hb as [_ Hb]. by specialize (Hb eq_refl). }
    unfold not_null in Hn. simpl in Hn.
    rewrite bool_decide_eq_false_2 in Hn by done. simpl in Hn.
    destruct results as [|u us]; [done|]. simpl in Hn.
    injection Hn as -> Hn. simpl. f_equal. by apply IH.
  - assert (x = JsNull) as -> by (by apply Hb).
    simpl. f_equal. by apply IH.
Qed.

Lemma view_broadcast f s0 s k tr' d sub buf act :
  triggers s0 = triggers s → keeps_pipes f →
  triggers (broadcast f s0) !! k = Some tr' →
  concat_view tr' = Some (d, sub, buf, act) →
  ∃ tr buf0 act0, triggers s !! k = Some tr ∧
    concat_view tr = Some (d, sub, buf0, act0).
Proof.
  intros Hs0 Hkeep Hk0 Hv. apply lookup_broadcast in Hk0 as (tr & Hk0 & ->).
  rewrite Hs0 in Hk0. rewrite keeps_concat in Hv by done. by exists tr, buf, act.
Qed.

Lemma view_subscribeTrigger p0 s0 s k tr' d sub buf act :
  Inv_fresh s →
  triggers s0 = triggers s → log s0 = log s →
  (∀ d0 sub0 b0 a0, p0 = ConcatPipe d0 sub0 b0 a0 → nextSub s ≤ sub0) →
  triggers (subscribeTrigger p0 s0) !! k = Some tr' →
  concat_view tr' = Some (d, sub, buf, act) →
  (∃ tr buf0 act0, triggers s !! k = Some tr ∧
     concat_view tr = Some (d, sub, buf0, act0)) ∨
  (length (triggers s) ≤ k ∧
   seen_profiles sub d (subscribeTrigger p0 s0) = []).
Proof.
  intros Hf Hs0 Hlog Hp0 Hk0 Hv. unfold subscribeTrigger in Hk0.
  cbn [issue triggers set_issued set_triggers] in Hk0. rewrite Hs0 in Hk0.
  apply lookup_app_Some in Hk0 as [Hk0|[Hlen Hk0]].
  - left. by exists tr', buf, act.
  - right. split; [done|].
    destruct (k - length (triggers s)) eqn:E; [|by destruct n].
    injection Hk0 as <-.
    unfold concat_view in Hv. rewrite tr_loading_pipe in Hv. cbn [pipe] in Hv.
    destruct p0 as [prev|d0 sub0 b0 a0]; [done|]. injection Hv as -> -> _ _.
    unfold seen_profiles, notes, subscribeTrigger.
    cbn [issue log set_issued set_triggers]. rewrite Hlog.
    fold (notes sub (DerivedS d) s).
    rewrite notes_fresh; [done|done|]. by eapply Hp0.
Qed.

(** A subscription of a derived stream that is there after a step was
    there before it, with the same subscriber, or has just been made. *)
Lemma step_view s ev k tr' d sub buf act :
  Inv_fresh s →
  triggers (step s ev) !! k = Some tr' →
  concat_view tr' = Some (d, sub, buf, act) →
  (∃ tr buf0 act0, triggers s !! k = Some tr ∧
                   concat_view tr = Some (d, sub, buf0, act0)) ∨
  (length (triggers s) ≤ k ∧ seen_profiles sub d (step s ev) = []).
Proof.
  intros Hf Hk Hv.
  destruct ev as [b| |t|e|st|p o]; cbn [step] in *.
  - left. eapply view_broadcast;
      [|apply (keeps_pipes_loading b (accessToken s))|exact Hk|exact Hv]. done.
  - left. by eapply (view_broadcast _ s s _ _ _ _ _ _ eq_refl keeps_pipes_refresh).
  - left. eapply view_broadcast;
      [|apply (keeps_pipes_token t)|exact Hk|exact Hv]. done.
  - left. by exists tr', buf, act.
  - unfold subscribe in *. destruct st as [| |d0|].
    + left. by exists tr', buf, act.
    + case_match.
      * eapply (view_subscribeTrigger _ _ s); [done|..|exact Hk|exact Hv];
          done.
      * left. by exists tr', buf, act.
    + eapply (view_subscribeTrigger _ _ s); [done|..|exact Hk|exact Hv];
        try done.
      by intros ? ? ? ? [= _ <- _ _].
    + left. by exists tr', buf, act.
  - left. revert k tr' Hk Hv.
    apply (settle_elim (λ s', ∀ k tr', triggers s' !! k = Some tr' →
      concat_view tr' = Some (d, sub, buf, act) →
      ∃ tr buf0 act0, triggers s !! k = Some tr ∧
        concat_view tr = Some (d, sub, buf0, act0))).
    + intros k tr' Hk Hv. by exists tr', buf, act.
    + intros k tr' Hk Hv. by exists tr', buf, act.
    + intros c og b Hp Hs Hc Ho (tr0 & Hk0 & Hl0) k tr' Hk Hv.
      unfold deliver in Hk. cbn [mark_settled triggers set_settled] in Hk.
      rewrite Hk0 in Hk.
      destruct (pipe tr0) as [prev|d0 sub0 b0 a0] eqn:Hp0; [case_decide|].
      * by exists tr', buf, act.
      * simpl in Hk.
        destruct (lookup_insert_with _ _ _ _ _ _ Hk0 Hk) as [[-> ->]|[_ Hk1]];
          [done|]. by exists tr', buf, act.
      * simpl in Hk.
        destruct (lookup_insert_with _ _ _ _ _ _ Hk0 Hk) as [[-> ->]|[_ Hk1]].
        -- unfold concat_view in Hv. simpl in Hv. simplify_eq.
           exists tr0, b0, a0. split; [done|]. unfold concat_view. by rewrite Hp0.
        -- by exists tr', buf, act.
    + intros c d1 u Hp Hs Hc Ho (tr0 & Hk0 & Hl0) k tr' Hk Hv.
      unfold complete_inner in Hk. cbn [mark_settled triggers set_settled] in Hk.
      rewrite Hk0 in Hk.
      destruct (pipe tr0) as [prev|d0 sub0 b0 a0] eqn:Hp0.
      * by exists tr', buf, act.
      * simpl in Hk.
        destruct (lookup_insert_with _ _ _ _ _ _ Hk0 Hk) as [[-> ->]|[_ Hk1]].
        -- unfold concat_view in Hv. simpl in Hv. simplify_eq.
           exists tr0, b0, a0. split; [done|]. unfold concat_view. by rewrite Hp0.
        -- by exists tr', buf, act.
    + intros c e Hp Hs Ho (tr0 & Hk0 & Hl0) k tr' Hk Hv.
      unfold fail in Hk. cbn [mark_settled triggers set_settled] in Hk.
      rewrite Hk0 in Hk.
      assert (<[owner c := terminated tr0]> (triggers s) !! k = Some tr') as Hk'
        by (by destruct (pipe tr0)).
      destruct (lookup_insert_with _ _ _ _ _ _ Hk0 Hk') as [[-> ->]|[_ Hk1]].
      * exists tr0, buf, act. done.
      * by exists tr', buf, act.
Qed.

Lemma seen_profiles_deliver s k0 b k tr d sub buf act :
  Inv_concat s →
  triggers s !! k = Some tr → concat_view tr = Some (d, sub, buf, act) →
  not_null (seen_profiles sub d (deliver k0 b s)) =
  not_null (seen_profiles sub d s).
Proof.
  intros Hcc Hk Hv. unfold deliver.
  destruct (triggers s !! k0) as [tr0|] eqn:Hk0; [|done].
  destruct (pipe tr0) as [prev|d0 sub0 b0 a0] eqn:Hp0; [case_decide|].
  - done.
  - unfold share_next. by rewrite seen_profiles_emit_all.
  - change (seen_profiles sub d (issue _ _ ?x)) with (seen_profiles sub d x).
    rewrite seen_profiles_emit_to, not_null_app, omap_profiles.
    change (seen_profiles sub d (set_triggers _ (set_fired _ s)))
      with (seen_profiles sub d s).
    case_decide; [|by rewrite app_nil_r].
    by rewrite not_null_concat_next, app_nil_r.
Qed.

Lemma seen_profiles_complete_inner_own s k u tr d sub buf act :
  triggers s !! k = Some tr → concat_view tr = Some (d, sub, buf, act) →
  not_null (seen_profiles sub d (complete_inner k u s)) =
  not_null (seen_profiles sub d s) ++ [of_resolved u].
Proof.
  intros Hk Hv. unfold complete_inner. rewrite Hk.
  unfold concat_view in Hv.
  destruct (pipe tr) as [prev|d0 sub0 b0 a0]; [done|]. injection Hv as -> -> -> ->.
  change (seen_profiles sub d (issue _ _ ?x)) with (seen_profiles sub d x).
  rewrite seen_profiles_emit_to, decide_True by done.
  rewrite not_null_app, omap_profiles.
  change (seen_profiles sub d (set_triggers _ s)) with (seen_profiles sub d s).
  f_equal.
  change (of_resolved u :: (drain buf).1.1)
    with ([of_resolved u] ++ (drain buf).1.1).
  by rewrite not_null_app, not_null_resolved, not_null_drain.
Qed.

Lemma seen_profiles_complete_inner_other s k0 u k tr d sub buf act :
  Inv_concat s → k0 ≠ k →
  triggers s !! k = Some tr → concat_view tr = Some (d, sub, buf, act) →
  seen_profiles sub d (complete_inner k0 u s) = seen_profiles sub d s.
Proof.
  intros Hcc Hne Hk Hv. unfold complete_inner.
  destruct (triggers s !! k0) as [tr0|] eqn:Hk0; [|done].
  destruct (pipe tr0) as [prev|d0 sub0 b0 a0] eqn:Hp0; [done|].
  change (seen_profiles sub d (issue _ _ ?x)) with (seen_profiles sub d x).
  rewrite seen_profiles_emit_to.
  change (seen_profiles sub d (set_triggers _ s)) with (seen_profiles sub d s).
  rewrite decide_False; [by rewrite app_nil_r|]. intros [-> _].
  unfold concat_view in Hv.
  destruct (pipe tr) as [prev|d1 sub1 b1 a1] eqn:Hp; [done|].
  injection Hv as -> -> -> ->.
  by eapply (other_subscriber s k k0 tr tr0 d d0 sub sub).
Qed.

(** What a step adds to a subscription of a derived stream, besides
    [null]s: what a lookup made for it resolved to. *)
Lemma seen_delta s ev k tr d sub buf act :
  Inv_bounds s → Inv_concat s →
  triggers s !! k = Some tr → concat_view tr = Some (d, sub, buf, act) →
  not_null (seen_profiles sub d (step s ev)) =
  not_null (seen_profiles sub d s) ++
    (of_resolved <$> option_list (lookup_result k s ev)).
Proof.
  intros Hbd Hcc Hk Hv.
  destruct ev as [b| |t|e|st|p o]; cbn [step lookup_result option_list fmap
    list_fmap]; rewrite ?app_nil_r.
  - unfold setIsLoading. change (seen_profiles sub d (broadcast _ ?x))
      with (seen_profiles sub d x). by rewrite seen_profiles_emit_all.
  - done.
  - done.
  - unfold setError. by rewrite seen_profiles_emit_all.
  - unfold subscribe. destruct st as [| |d0|]; try done.
    + rewrite seen_profiles_emit_to.
      rewrite decide_False by (by intros [_ ?]). by rewrite app_nil_r.
    + case_match; [done|]. rewrite seen_profiles_emit_to.
      rewrite decide_False by (by intros [_ ?]). by rewrite app_nil_r.
    + rewrite seen_profiles_emit_to.
      rewrite decide_False by (by intros [_ ?]). by rewrite app_nil_r.
  - assert (Inv_concat (mark_settled p s)) as Hm
      by (by apply Inv_concat_mark).
    destruct o as [b|u|e]; cbn [option_list fmap list_fmap];
      rewrite ?app_nil_r.
    + apply (settle_elim (λ s', not_null (seen_profiles sub d s') =
                                not_null (seen_profiles sub d s)));
        try done.
      intros c og b' _ _ _ _ _.
      by rewrite (seen_profiles_deliver _ _ _ k tr d sub buf act).
    + unfold settle.
      destruct (issued s !! p) as [c|] eqn:Hp; [|by rewrite app_nil_r].
      destruct (decide (p ∈ settled s)) as [Hs|Hs].
      { rewrite (bool_decide_eq_false_2 (p ∉ settled s)) by (by intros ?).
        rewrite andb_false_r. simpl. by rewrite app_nil_r. }
      rewrite (bool_decide_eq_true_2 (p ∉ settled s)) by done.
      rewrite andb_true_r. unfold is_check.
      destruct (call c) as [og|d0] eqn:Hc.
      { rewrite andb_false_r. simpl. by rewrite app_nil_r. }
      cbn [negb]. rewrite andb_true_r.
      destruct (decide (owner c = k)) as [Ho|Ho].
      * rewrite (bool_decide_eq_true_2 _ Ho). cbn [andb]. rewrite Ho.
        destruct (from_option live false (triggers s !! k)); simpl.
        -- by rewrite (seen_profiles_complete_inner_own _ _ _ tr d sub buf act).
        -- by rewrite app_nil_r.
      * rewrite (bool_decide_eq_false_2 _ Ho). simpl. rewrite app_nil_r.
        destruct (from_option live false (triggers s !! owner c)); [|done].
        by rewrite (seen_profiles_complete_inner_other _ _ _ k tr d sub buf act).
    + apply (settle_elim (λ s', not_null (seen_profiles sub d s') =
                                not_null (seen_profiles sub d s)));
        try done.
      intros c e' _ _ _ _. by rewrite seen_profiles_fail.
Qed.

Lemma lookup_result_out_of_range k s ev :
  length (triggers s) ≤ k → lookup_result k s ev = None.
Proof.
  intros Hk. destruct ev as [b| |t|e|st|p [b|u|e]]; try done. simpl.
  destruct (issued s !! p) as [c|]; [|done].
  rewrite (lookup_ge_None_2 (triggers s) k) by done.
  simpl. by rewrite andb_false_r.
Qed.

Lemma values_ok_run evs : values_ok evs.
Proof.
  induction evs as [|ev evs [IH1 IH2]] using rev_ind; [done|].
  unfold values_ok. rewrite run_snoc. set (s := run evs init) in *.
  assert (reachable s) as Hr by apply reachable_run.
  split.
  - intros k Hk. pose proof (triggers_length_step s ev) as Hmono.
    rewrite lookup_results_snoc, IH1 by lia. fold s.
    rewrite lookup_result_out_of_range by lia. done.
  - intros k tr' d sub buf act Hk Hv. rewrite lookup_results_snoc. fold s.
    destruct (step_view s ev k tr' d sub buf act) as
      [(tr & buf0 & act0 & Hk0 & Hv0)|[Hlen Hnil]];
      [by apply Inv_fresh_reachable|done|done| |].
    + rewrite (seen_delta s ev k tr d sub buf0 act0); try done;
        [|by apply Inv_bounds_reachable|by apply Inv_concat_reachable].
      by rewrite (IH2 k tr d sub buf0 act0), fmap_app.
    + rewrite Hnil, IH1 by done.
      by rewrite lookup_result_out_of_range by done.
Qed.

(** C1 (as amended): isAuthenticated$, user$ and idTokenClaims$ are fed by
    separate subscriptions to the trigger, each with its own checks.  What a
    subscription of user$ or idTokenClaims$ has received answers, one for
    one and in order, the first checks that its own trigger subscription
    emitted: [null] exactly for a check that returned [false], and for a
    check that returned [true] what the lookup made for it resolved to;
    the checks not yet answered are the one whose profile is being fetched
    and the ones buffered by [concatMap]. *)
Theorem derived_values_answer_own_checks
    (evs : list Event) (k : nat) (tr : TriggerSub)
    (d : Derived) (sub : nat) (buffer : list bool) (active : bool) :
  let s := run evs init in
  triggers s !! k = Some tr →
  pipe tr = ConcatPipe d sub buffer active →
  ∃ answered,
    fired_by k s = answered ++ inflight active ++ buffer ∧
    Forall2 answers answered (seen_profiles sub d s) ∧
    seen_profiles sub d s =
      expected_values answered (lookup_results k evs init).
Proof.
  intros s Hk Hp.
  pose proof (Inv_concat_reachable s (reachable_run evs)) as H.
  assert (concat_view tr = Some (d, sub, buffer, active)) as Hv
    by (unfold concat_view; by rewrite Hp).
  destruct (cc_ok s H k tr Hk d sub buffer active Hv)
    as (_ & answered & Hfired & Hans).
  exists answered. split; [done|]. split; [done|].
  apply expected_values_intro; [done|].
  by apply (proj2 (values_ok_run evs) k tr d sub buffer active).
Qed.

Lemma derived_values_answer_own_checks_witness :
  let evs := [CallSetIsLoading false; Subscribe (DerivedS User); CallRefresh;
              Settle 0 (ResolveBool true);
              Settle 2 (ResolveProfile (Some "alice"));
              Settle 1 (ResolveBool false)] in
  let s := run evs init in
  fired_by 0 s = [true; false] ∧
  lookup_results 0 evs init = [Some "alice"] ∧
  seen_profiles 0 User s = [JsValue "alice"; JsNull] ∧
  ∃ answered,
    fired_by 0 s = answered ++ inflight false ++ [] ∧
    Forall2 answers answered (seen_profiles 0 User s) ∧
    seen_profiles 0 User s =
      expected_values answered (lookup_results 0 evs init).
Proof.
  intros evs s. split; [reflexivity|]. split; [reflexivity|].
  split; [reflexivity|].
  refine (derived_values_answer_own_checks evs 0 _ User 0 [] false _ _);
    reflexivity.
Defined.

(** C1, as stated, fails: the flag replayed by isAuthenticated$ comes from
    an earlier check than the one user$ makes for a new subscriber, so a
    component that has last seen [true] receives [null] (the client's answer
    changed in between, as when the token expired). *)
Lemma streams_consistent_counterexample :
  ¬ (∀ evs a u, consistent a u (run evs init) = true).
Proof.
  intros H.
  specialize (H [CallSetIsLoading false; Subscribe IsAuthenticatedS;
                 Settle 0 (ResolveBool true); Subscribe (DerivedS User);
                 Settle 1 (ResolveBool false)] 0 1).
  vm_compute in H. discriminate H.
Qed.

(** ** The service: runs *)

Lemma svc_run_snoc evs ev svc :
  svc_run (evs ++ [ev]) svc = svc_step (svc_run evs svc) ev.
Proof. unfold svc_run. by rewrite foldl_app. Qed.

Lemma svc_run_app evs1 evs2 svc :
  svc_run (evs1 ++ evs2) svc = svc_run evs2 (svc_run evs1 svc).
Proof. unfold svc_run. by rewrite foldl_app. Qed.

Lemma reachable_app s evs : reachable s → reachable (run evs s).
Proof. intros [evs0 ->]. exists (evs0 ++ evs). by rewrite run_app. Qed.

(** The identifiers of the subscriptions of a service instance are handed
    out in order. *)
Lemma Inv_fresh_forceUnauthenticated s :
  Inv_fresh s → Inv_fresh (forceUnauthenticated s).
Proof.
  intros H. unfold forceUnauthenticated, share_next.
  apply Inv_fresh_emit_all; [apply (fr_share s H)|].
  by destruct H as [H1 H2 H3 H4 H5].
Qed.

Lemma svc_fresh_step svc ev :
  Inv_fresh (authState svc) → Inv_fresh (authState (svc_step svc ev)).
Proof.
  intros H.
  assert (∀ s, Inv_fresh s → Inv_fresh (setIsLoading false s)) as Hload
    by (intros s; apply (Inv_fresh_step s (CallSetIsLoading false))).
  assert (∀ e s, Inv_fresh s → Inv_fresh (setError e s)) as Herr
    by (intros e s; apply (Inv_fresh_step s (CallSetError e))).
  destruct ev as [o| |[]|t| |st|p o]; cbn [svc_step logout].
  - unfold startupSettled, finishLoading.
    destruct (phase svc), o; try done; cbn [destroyed navigateByUrl
      record_appState lift]; destruct (destroyed svc);
      cbn [authState set_phase lift navigateByUrl record_appState]; auto.
  - done.
  - by apply Inv_fresh_forceUnauthenticated.
  - done.
  - by apply (Inv_fresh_step _ (CallSetAccessToken t)).
  - by apply (Inv_fresh_step _ CallRefresh).
  - by apply (Inv_fresh_step _ (Subscribe st)).
  - by apply (Inv_fresh_step _ (Settle p o)).
Qed.

Lemma svc_fresh cfg loc evs :
  Inv_fresh (authState (svc_run evs (create cfg loc))).
Proof.
  induction evs as [|ev evs IH] using rev_ind.
  - apply Inv_fresh_reachable, reachable_init.
  - rewrite svc_run_snoc. by apply svc_fresh_step.
Qed.

(** ** What touches isLoading$ *)

Lemma loading_frame_refl s : loading_frame s s.
Proof. done. Qed.

Lemma loading_frame_trans s1 s2 s3 :
  loading_frame s1 s2 → loading_frame s2 s3 → loading_frame s1 s3.
Proof.
  intros (H1 & H2 & H3) (H4 & H5 & H6). split; [congruence|].
  split; [congruence|]. intros sub. by rewrite H6.
Qed.

Lemma loading_frame_deliver k b s : loading_frame s (deliver k b s).
Proof.
  unfold deliver. destruct (triggers s !! k) as [tr|]; [|done].
  destruct (pipe tr) as [prev|d sub0 buf act]; [case_decide; [done|]|].
  - split; [done|]. split; [done|]. intros sub. unfold share_next.
    by rewrite notes_emit_all_other by (by left).
  - split; [done|]. split; [done|]. intros sub.
    rewrite notes_issue, notes_emit_to.
    rewrite decide_False by (by intros [_ ?]). by rewrite app_nil_r.
Qed.

Lemma loading_frame_complete_inner k u s : loading_frame s (complete_inner k u s).
Proof.
  unfold complete_inner. destruct (triggers s !! k) as [tr|]; [|done].
  destruct (pipe tr) as [prev|d sub0 buf act]; [done|].
  split; [done|]. split; [done|]. intros sub.
  rewrite notes_issue, notes_emit_to.
  rewrite decide_False by (by intros [_ ?]). by rewrite app_nil_r.
Qed.

Lemma loading_frame_fail k e s : loading_frame s (fail k e s).
Proof.
  unfold fail. destruct (triggers s !! k) as [tr|]; [|done].
  destruct (pipe tr) as [prev|d sub0 buf act].
  - split; [done|]. split; [done|]. intros sub. unfold share_error.
    by rewrite notes_emit_all_other by (by left).
  - split; [done|]. split; [done|]. intros sub. rewrite notes_emit_to.
    rewrite decide_False by (by intros [_ ?]). by rewrite app_nil_r.
Qed.

Lemma loading_frame_step s ev :
  (∀ b, ev ≠ CallSetIsLoading b) → ev ≠ Subscribe IsLoadingS →
  loading_frame s (step s ev).
Proof.
  intros Hl Hsub. destruct ev as [b| |t|e|st|p o]; cbn [step].
  - by destruct (Hl b).
  - done.
  - done.
  - split; [done|]. split; [done|]. intros sub. unfold setError.
    by rewrite notes_emit_all_other by (by left).
  - unfold subscribe. destruct st as [| |d|]; [done| | |].
    + case_match; [done|].
      split; [done|]. split; [done|]. intros sub. rewrite notes_emit_to.
      rewrite decide_False by (by intros [_ ?]). by rewrite app_nil_r.
    + done.
    + split; [done|]. split; [done|]. intros sub. rewrite notes_emit_to.
      rewrite decide_False by (by intros [_ ?]). by rewrite app_nil_r.
  - apply settle_elim; intros; try done.
    + apply (loading_frame_trans _ (mark_settled p s)); [done|].
      apply loading_frame_deliver.
    + apply (loading_frame_trans _ (mark_settled p s)); [done|].
      apply loading_frame_complete_inner.
    + apply (loading_frame_trans _ (mark_settled p s)); [done|].
      apply loading_frame_fail.
Qed.

Lemma Inv_loading_frame svc svc' :
  Inv_loading svc →
  loading_frame (authState svc) (authState svc') →
  phase svc' = phase svc →
  (destroyed svc' = false → destroyed svc = false) →
  Inv_loading svc'.
Proof.
  intros [H1 H2 H3 H4 H5] (Hl & Ho & Hn) Hph Hd.
  assert (∀ sub, seen sub IsLoadingS (authState svc') =
                 seen sub IsLoadingS (authState svc)) as Hseen.
  { intros sub. unfold seen. by rewrite Hn. }
  split; rewrite ?Hl, ?Ho, ?Hph; try done.
  - intros Hp Hd'. by apply H2, Hd.
  - intros sub Hsub. rewrite Hseen. by apply H4.
  - intros sub Hsub. rewrite Hseen. by apply H5.
Qed.

Lemma notes_broadcast sub st f s : notes sub st (broadcast f s) = notes sub st s.
Proof. done. Qed.

Lemma seen_setIsLoading sub b s :
  NoDup (loadingObservers s) →
  seen sub IsLoadingS (setIsLoading b s) =
  seen sub IsLoadingS s ++ (if decide (sub ∈ loadingObservers s) then [b] else []).
Proof.
  intros Hnd. unfold seen, setIsLoading. rewrite notes_broadcast.
  case_decide.
  - rewrite notes_emit_all_in by done. by rewrite omap_app.
  - rewrite notes_emit_all_other by (by right). by rewrite app_nil_r.
Qed.

Lemma Inv_loading_finish svc :
  Inv_loading svc → phase svc ≠ Loaded →
  Inv_loading (set_phase Loaded (finishLoading svc)).
Proof.
  intros [H1 H2 H3 H4 H5] Hph. unfold finishLoading.
  destruct (destroyed svc) eqn:Hd.
  - split; simpl; try done. by rewrite Hd.
  - specialize (H1 Hph). split; simpl; try done.
    + intros sub Hsub. left. rewrite seen_setIsLoading by done.
      rewrite decide_True by done.
      specialize (H4 sub Hsub). rewrite H1 in H4. by rewrite H4.
    + intros sub Hsub. rewrite seen_setIsLoading by done.
      rewrite decide_False by done. rewrite app_nil_r. by apply H5.
Qed.

Lemma Inv_loading_subscribe svc :
  Inv_fresh (authState svc) → Inv_loading svc →
  Inv_loading (lift (subscribe IsLoadingS) svc).
Proof.
  intros Hf [H1 H2 H3 H4 H5].
  assert (nextSub (authState svc) ∉ loadingObservers (authState svc)) as Hnew.
  { intros Hin. destruct Hf as [Hl _ _ _ _].
    eapply Forall_forall in Hl; [|done]. lia. }
  assert (∀ sub, seen sub IsLoadingS (subscribe IsLoadingS (authState svc)) =
    seen sub IsLoadingS (authState svc) ++
    (if decide (nextSub (authState svc) = sub)
     then [isLoadingSubject (authState svc)] else [])) as Hseen.
  { intros sub. unfold seen, subscribe. rewrite notes_emit_to, omap_app.
    f_equal. case_decide as Hd; [destruct Hd as [Hd _]|].
    - by rewrite decide_True by done.
    - rewrite decide_False; [done|]. intros E. by apply Hd. }
  split; simpl; try done.
  - apply NoDup_app. split; [done|]. split; [|apply NoDup_singleton].
    intros x Hx Hx'. apply list_elem_of_singleton in Hx' as ->. done.
  - intros sub Hsub. rewrite Hseen.
    apply elem_of_app in Hsub as [Hsub|Hsub].
    + rewrite decide_False by (by intros <-). rewrite app_nil_r. by apply H4.
    + apply list_elem_of_singleton in Hsub as ->.
      rewrite decide_True by done. rewrite (H5 _ Hnew). simpl.
      destruct (isLoadingSubject (authState svc)); [done|by right].
  - intros sub Hsub. rewrite Hseen.
    rewrite decide_False.
    + rewrite app_nil_r. apply H5. intros ?. apply Hsub, elem_of_app. by left.
    + intros <-. apply Hsub, elem_of_app. right. by apply list_elem_of_singleton.
Qed.

Lemma Inv_loading_lift svc ev :
  (∀ b, ev ≠ CallSetIsLoading b) → ev ≠ Subscribe IsLoadingS →
  Inv_loading svc → Inv_loading (lift (λ s, step s ev) svc).
Proof.
  intros H1 H2 H. apply (Inv_loading_frame svc); try done.
  by apply loading_frame_step.
Qed.

Lemma Inv_loading_step svc ev :
  Inv_fresh (authState svc) → Inv_loading svc → Inv_loading (svc_step svc ev).
Proof.
  intros Hf H. destruct ev as [o| |[]|t| |st|p o]; cbn [svc_step].
  - unfold startupSettled.
    destruct (phase svc) eqn:Hph, o; try done.
    + apply Inv_loading_finish; [|simpl; congruence].
      apply (Inv_loading_frame svc); done.
    + apply Inv_loading_finish; [|simpl; congruence].
      apply (Inv_loading_frame svc); try done.
      apply (loading_frame_step _ (CallSetError e)); done.
    + apply Inv_loading_finish; [done|congruence].
  - apply (Inv_loading_frame svc); done.
  - apply (Inv_loading_frame svc); try done.
    split; [done|]. split; [done|]. intros sub.
    cbn [logout lift authState]. unfold forceUnauthenticated, share_next.
    by rewrite notes_emit_all_other by (by left).
  - apply (Inv_loading_frame svc); done.
  - by apply (Inv_loading_lift svc (CallSetAccessToken t)).
  - by apply (Inv_loading_lift svc CallRefresh).
  - destruct (decide (st = IsLoadingS)) as [->|Hne].
    + by apply Inv_loading_subscribe.
    + apply (Inv_loading_lift svc (Subscribe st)); try done. congruence.
  - by apply (Inv_loading_lift svc (Settle p o)).
Qed.

Lemma Inv_loading_run cfg loc evs :
  Inv_loading (svc_run evs (create cfg loc)).
Proof.
  induction evs as [|ev evs IH] using rev_ind.
  - split; simpl; try done.
    + by destruct (shouldHandleCallback cfg loc).
    + apply NoDup_nil_2.
    + intros sub Hsub. by apply elem_of_nil in Hsub.
  - rewrite svc_run_snoc. apply Inv_loading_step; [|done].
    apply svc_fresh.
Qed.

(** Once destroyed before its startup promise settles, an instance stays in
    the loading state. *)
Lemma destroyed_stays_loading svc evs :
  destroyed svc = true → isLoadingSubject (authState svc) = true →
  destroyed (svc_run evs svc) = true ∧
  isLoadingSubject (authState (svc_run evs svc)) = true.
Proof.
  intros Hd Hl. induction evs as [|ev evs [IHd IHl]] using rev_ind; [done|].
  rewrite svc_run_snoc. set (svc' := svc_run evs svc) in *.
  assert (∀ e, (∀ b, e ≠ CallSetIsLoading b) → e ≠ Subscribe IsLoadingS →
            isLoadingSubject (step (authState svc') e) = true) as Hstep.
  { intros e Hev1 Hev2.
    by destruct (loading_frame_step (authState svc') e Hev1 Hev2) as (-> & _). }
  destruct ev as [o| |[]|t| |st|p o]; cbn [svc_step].
  - unfold startupSettled, finishLoading.
    destruct (phase svc'), o; simpl; rewrite ?IHd; simpl; by rewrite ?IHd.
  - done.
  - done.
  - done.
  - split; [done|]. by apply (Hstep (CallSetAccessToken t)).
  - split; [done|]. by apply (Hstep CallRefresh).
  - split; [done|].
    destruct (decide (st = IsLoadingS)) as [->|Hne]; [done|].
    apply (Hstep (Subscribe st)); [done|congruence].
  - split; [done|]. by apply (Hstep (Settle p o)).
Qed.

Lemma phase_before_startup cfg loc evs :
  Forall (λ e, is_startup e = false) evs →
  phase (svc_run evs (create cfg loc)) = phase (create cfg loc) ∧
  navigations (svc_run evs (create cfg loc)) = [] ∧
  config (svc_run evs (create cfg loc)) = cfg.
Proof.
  induction evs as [|ev evs IH] using rev_ind; intros Hevs; [done|].
  apply Forall_app in Hevs as [Hevs Hev]. apply Forall_cons_1 in Hev as [Hev _].
  destruct (IH Hevs) as (IH1 & IH2 & IH3).
  rewrite svc_run_snoc.
  destruct ev as [o| |[]|t| |st|p o]; try done; cbn [svc_step logout]; simpl.
  all: by rewrite ?IH1, ?IH2, ?IH3.
Qed.

Lemma not_destroyed_run cfg loc evs :
  Forall (λ e, e ≠ Destroy) evs →
  destroyed (svc_run evs (create cfg loc)) = false.
Proof.
  induction evs as [|ev evs IH] using rev_ind; intros Hevs; [done|].
  apply Forall_app in Hevs as [Hevs Hev]. apply Forall_cons_1 in Hev as [Hev _].
  specialize (IH Hevs). rewrite svc_run_snoc.
  set (svc := svc_run evs (create cfg loc)) in *.
  destruct ev as [o| |[]|t| |st|p o]; cbn [svc_step logout]; try done.
  unfold startupSettled, finishLoading.
  destruct (phase svc), o; try done; cbn [destroyed navigateByUrl
    record_appState lift]; by rewrite IH.
Qed.

(** *** After the startup sequence *)

Lemma seen_subscribe_loading sub s :
  seen sub IsLoadingS (subscribe IsLoadingS s) =
  seen sub IsLoadingS s ++
    (if decide (nextSub s = sub) then [isLoadingSubject s] else []).
Proof.
  unfold seen, subscribe. rewrite notes_emit_to, omap_app.
  f_equal. case_decide as Hd; [destruct Hd as [Hd _]|].
  - by rewrite decide_True by done.
  - rewrite decide_False; [done|]. intros E. by apply Hd.
Qed.

Lemma Inv_loaded_frame olds svc svc' :
  Inv_loaded olds svc →
  loading_frame (authState svc) (authState svc') →
  phase svc' = phase svc →
  Inv_loaded olds svc'.
Proof.
  intros [H1 H2 H3 H4] (Hl & Ho & Hn) Hph.
  split; rewrite ?Hl, ?Ho, ?Hph; try done.
  intros sub. unfold seen. rewrite Hn. apply H4.
Qed.

Lemma Inv_loaded_step olds svc ev :
  Inv_fresh (authState svc) →
  Inv_loaded olds svc → Inv_loaded olds (svc_step svc ev).
Proof.
  intros Hf H.
  assert (∀ e, (∀ b, e ≠ CallSetIsLoading b) → e ≠ Subscribe IsLoadingS →
            Inv_loaded olds (lift (λ s, step s e) svc)) as Hlift.
  { intros e He1 He2. apply (Inv_loaded_frame olds svc); try done.
    by apply loading_frame_step. }
  destruct ev as [o| |[]|t| |st|p o]; cbn [svc_step logout].
  - unfold startupSettled. rewrite (lo_phase olds svc H). by destruct o.
  - by apply (Inv_loaded_frame olds svc).
  - apply (Inv_loaded_frame olds svc); try done.
    split; [done|]. split; [done|]. intros sub.
    cbn [lift authState]. unfold forceUnauthenticated, share_next.
    by rewrite notes_emit_all_other by (by left).
  - by apply (Inv_loaded_frame olds svc).
  - by apply (Hlift (CallSetAccessToken t)).
  - by apply (Hlift CallRefresh).
  - destruct (decide (st = IsLoadingS)) as [->|Hne];
      [|apply (Hlift (Subscribe st)); [done|congruence]].
    destruct H as [H1 H2 H3 H4].
    pose proof (fr_loading _ Hf) as Hlt. rewrite Forall_forall in Hlt.
    assert (nextSub (authState svc) ∉ loadingObservers (authState svc)) as Hnew.
    { intros Hin. specialize (Hlt _ Hin). lia. }
    split; cbn [lift authState phase]; try done.
    + intros x Hx. apply elem_of_app. left. by apply H3.
    + intros sub. rewrite seen_subscribe_loading, H4, H2.
      cbn [subscribe loadingObservers emit_to set_log set_loadingObservers
           set_nextSub].
      destruct (decide (sub ∈ olds)) as [Hold|Hold].
      * rewrite decide_False; [by rewrite app_nil_r|].
        intros <-. by apply Hnew, H3.
      * destruct (decide (nextSub (authState svc) = sub)) as [<-|Hsub].
        -- rewrite decide_False by done. rewrite decide_True; [done|].
           apply elem_of_app. right. by left.
        -- rewrite app_nil_r. repeat case_decide; try done.
           ++ exfalso. by apply H0, elem_of_app; left.
           ++ exfalso. apply elem_of_app in H0 as [?|Hx]; [done|].
              by apply list_elem_of_singleton in Hx.
  - by apply (Hlift (Settle p o)).
Qed.

(** The startup promise of a live instance settles: loading ends. *)
Lemma Inv_loaded_settled svc o :
  Inv_loading svc → destroyed svc = false →
  (phase svc = ProcessingCallback ∧ is_callback_outcome o = true ∨
   phase svc = CheckingSession ∧ o = SessionChecked) →
  Inv_loaded (loadingObservers (authState svc)) (startupSettled o svc).
Proof.
  intros H Hd Hph.
  assert (phase svc ≠ Loaded) as Hnl by (destruct Hph as [[-> _]|[-> _]]; done).
  pose proof (ld_phase svc H Hnl) as Hl.
  assert (∀ sub, seen sub IsLoadingS (authState svc) =
            if decide (sub ∈ loadingObservers (authState svc))
            then [true] else []) as Hseen.
  { intros sub. case_decide as Hin.
    - pose proof (ld_in svc H sub Hin) as Hs. by rewrite Hl in Hs.
    - by apply (ld_out svc H). }
  assert (∀ s, loading_frame (authState svc) s →
            Inv_loaded (loadingObservers (authState svc))
              {| authState := setIsLoading false s; config := config svc;
                 phase := Loaded; destroyed := destroyed svc;
                 navigations := navigations svc;
                 appStateSubject := appStateSubject svc;
                 clientOps := clientOps svc |}) as Hfin.
  { intros s (Hs1 & Hs2 & Hs3). split; cbn [authState phase]; try done.
    - by rewrite <- Hs2.
    - intros sub. rewrite seen_setIsLoading by (rewrite Hs2; apply (ld_nodup svc H)).
      change (loadingObservers (setIsLoading false s)) with (loadingObservers s).
      rewrite Hs2. unfold seen at 1. rewrite Hs3.
      fold (seen sub IsLoadingS (authState svc)). rewrite Hseen.
      by case_decide. }
  unfold startupSettled, finishLoading.
  destruct Hph as [[-> Ho]|[-> ->]].
  - destruct o as [r|e|]; [| |done];
      cbn [destroyed navigateByUrl record_appState lift]; rewrite Hd.
    + destruct (Hfin (authState svc) (loading_frame_refl _)) as [? ? ? ?].
      by split.
    + destruct (Hfin (setError e (authState svc))) as [? ? ? ?]; [|by split].
      by apply (loading_frame_step _ (CallSetError e)).
  - rewrite Hd.
    destruct (Hfin (authState svc) (loading_frame_refl _)) as [? ? ? ?].
    by split.
Qed.

Lemma Inv_loaded_run olds svc evs :
  Inv_fresh (authState svc) → Inv_loaded olds svc →
  Inv_loaded olds (svc_run evs svc) ∧ Inv_fresh (authState (svc_run evs svc)).
Proof.
  intros Hf H. induction evs as [|ev evs [IH1 IH2]] using rev_ind; [done|].
  rewrite svc_run_snoc. split.
  - by apply Inv_loaded_step.
  - by apply svc_fresh_step.
Qed.

(** C5: isLoading$ of a service instance starts at [true] and goes from
    [true] to [false] exactly once.  In every run a subscription sees a
    stretch of [true; false] and nothing else.  Until the startup promise
    settles every subscriber has received [true] alone.  When the promise
    that the constructor started settles on a live instance, every
    subscriber of that moment has received [true; false], every later one
    [false] alone, and nothing more ever arrives.  A subscriber attaching
    after the transition receives [false] at once.  An instance destroyed
    before its startup promise settles never emits [false]: its subscribers
    have received [true] alone, whatever happens afterwards. *)
Theorem isLoading_true_then_false_once
    (cfg : AuthConfig) (loc : Location) (evs : list SvcEvent) (sub : nat) :
  let svc := svc_run evs (create cfg loc) in
  let st := authState svc in
  isLoadingSubject (authState (create cfg loc)) = true ∧
  (∃ l1 l2, [true; false] = l1 ++ seen sub IsLoadingS st ++ l2) ∧
  (Forall (λ e, is_startup e = false) evs →
     isLoadingSubject st = true ∧
     seen sub IsLoadingS st =
       if decide (sub ∈ loadingObservers st) then [true] else []) ∧
  (∀ evs1 o evs2, evs = evs1 ++ StartupSettled o :: evs2 →
     Forall (λ e, is_startup e = false ∧ e ≠ Destroy) evs1 →
     is_callback_outcome o = shouldHandleCallback cfg loc →
     isLoadingSubject st = false ∧
     seen sub IsLoadingS st =
       if decide (sub ∈ loadingObservers
                    (authState (svc_run evs1 (create cfg loc))))
       then [true; false]
       else if decide (sub ∈ loadingObservers st) then [false] else []) ∧
  (isLoadingSubject st = false →
     notes (nextSub st) IsLoadingS
       (authState (svc_step svc (SubscribeTo IsLoadingS))) = [Next (VBool false)]) ∧
  (∀ evs1 evs2, evs = evs1 ++ Destroy :: evs2 →
     Forall (λ e, is_startup e = false) evs1 →
     isLoadingSubject st = true ∧
     seen sub IsLoadingS st =
       if decide (sub ∈ loadingObservers st) then [true] else []).
Proof.
  intros svc st. subst st.
  pose proof (Inv_loading_run cfg loc evs) as H. fold svc in H.
  pose proof (svc_fresh cfg loc evs) as Hf. fold svc in Hf.
  assert (isLoadingSubject (authState svc) = true →
          seen sub IsLoadingS (authState svc) =
            if decide (sub ∈ loadingObservers (authState svc))
            then [true] else []) as Htrue.
  { intros Hl. case_decide as Hin.
    - pose proof (ld_in svc H sub Hin) as Hs. by rewrite Hl in Hs.
    - by apply (ld_out svc H). }
  split; [done|]. split; [|split; [|split; [|split]]].
  - destruct (decide (sub ∈ loadingObservers (authState svc))) as [Hin|Hout].
    + pose proof (ld_in svc H sub Hin) as Hs.
      destruct (isLoadingSubject (authState svc));
        [|destruct Hs as [Hs|Hs]]; rewrite Hs.
      * by exists [], [false].
      * by exists [], [].
      * by exists [true], [].
    + rewrite (ld_out svc H sub Hout). by exists [], [true; false].
  - intros Hno.
    assert (isLoadingSubject (authState svc) = true) as Hl.
    { apply (ld_phase svc H).
      destruct (phase_before_startup cfg loc evs Hno) as (Hph & _).
      fold svc in Hph. rewrite Hph. simpl.
      by destruct (shouldHandleCallback cfg loc). }
    split; [done|]. by apply Htrue.
  - intros evs1 o evs2 Hevs Hno Ho.
    set (before := svc_run evs1 (create cfg loc)).
    assert (Forall (λ e, is_startup e = false) evs1) as Hno1
      by (eapply Forall_impl; [exact Hno|]; by intros e [? _]).
    assert (Forall (λ e, e ≠ Destroy) evs1) as Hno2
      by (eapply Forall_impl; [exact Hno|]; by intros e [_ ?]).
    destruct (phase_before_startup cfg loc evs1 Hno1) as (Hph & _).
    fold before in Hph.
    assert (Inv_loaded (loadingObservers (authState before))
              (startupSettled o before)) as Hset.
    { apply Inv_loaded_settled.
      - apply Inv_loading_run.
      - by apply not_destroyed_run.
      - rewrite Hph. simpl. rewrite <- Ho.
        destruct o; simpl; [by left|by left|by right]. }
    assert (svc = svc_run evs2 (startupSettled o before)) as Hsvc.
    { unfold svc. rewrite Hevs.
      change (evs1 ++ StartupSettled o :: evs2)
        with (evs1 ++ [StartupSettled o] ++ evs2).
      by rewrite !svc_run_app. }
    assert (Inv_fresh (authState (startupSettled o before))) as Hf1.
    { apply (svc_fresh_step before (StartupSettled o)), svc_fresh. }
    destruct (Inv_loaded_run _ _ evs2 Hf1 Hset) as [[H1 H2 H3 H4] _].
    rewrite <- Hsvc in H1, H2, H3, H4. split; [done|]. apply H4.
  - intros Hl. cbn [svc_step lift authState]. unfold subscribe.
    rewrite notes_emit_to, decide_True by done.
    change (notes (nextSub (authState svc)) IsLoadingS _)
      with (notes (nextSub (authState svc)) IsLoadingS (authState svc)).
    rewrite notes_fresh by done. simpl. by rewrite Hl.
  - intros evs1 evs2 Hevs Hno.
    assert (isLoadingSubject (authState svc) = true) as Hl.
    { unfold svc. rewrite Hevs.
      change (evs1 ++ Destroy :: evs2) with (evs1 ++ [Destroy] ++ evs2).
      rewrite !svc_run_app.
      apply destroyed_stays_loading; [done|].
      apply (ld_phase _ (Inv_loading_run cfg loc evs1)).
      destruct (phase_before_startup cfg loc evs1 Hno) as (-> & _).
      simpl. by destruct (shouldHandleCallback cfg loc). }
    split; [done|]. by apply Htrue.
Qed.

Lemma isLoading_true_then_false_once_witness :
  let cfg := {| skipRedirectCallback := false; errorPath := None |} in
  let loc := {| has_code := false; has_state := false; has_error := false |} in
  let evs1 := [SubscribeTo IsLoadingS] in
  let evs2 := [SubscribeTo IsLoadingS; StartupSettled SessionChecked;
               CallLogout true; Destroy] in
  let st := authState
    (svc_run (evs1 ++ StartupSettled SessionChecked :: evs2) (create cfg loc)) in
  seen 0 IsLoadingS st = [true; false] ∧ seen 1 IsLoadingS st = [false].
Proof.
  intros cfg loc evs1 evs2 st.
  assert (Forall (λ e, is_startup e = false ∧ e ≠ Destroy) evs1) as Hno
    by (repeat constructor; discriminate).
  split.
  - exact (proj2 (proj1 (proj2 (proj2 (proj2
      (isLoading_true_then_false_once cfg loc
         (evs1 ++ StartupSettled SessionChecked :: evs2) 0))))
      evs1 SessionChecked evs2 eq_refl Hno eq_refl)).
  - reflexivity.
Defined.

(** ** Navigation after the redirect callback *)

Lemma loaded_stays svc evs :
  phase svc = Loaded →
  phase (svc_run evs svc) = Loaded ∧
  navigations (svc_run evs svc) = navigations svc.
Proof.
  intros Hph. induction evs as [|ev evs [IH1 IH2]] using rev_ind; [done|].
  rewrite svc_run_snoc.
  destruct ev as [o| |[]|t| |st|p o]; cbn [svc_step logout]; simpl;
    try done.
  unfold startupSettled. rewrite IH1. by destruct o.
Qed.

Lemma navigations_finishLoading svc :
  navigations (finishLoading svc) = navigations svc.
Proof. unfold finishLoading. by destruct (destroyed svc). Qed.

Lemma startupSettled_callback svc o :
  phase svc = ProcessingCallback → is_callback_outcome o = true →
  phase (startupSettled o svc) = Loaded ∧
  navigations (startupSettled o svc) =
    navigations svc ++ [callback_target (config svc) o].
Proof.
  intros Hph Ho. unfold startupSettled. rewrite Hph.
  destruct o; try done; simpl; by rewrite navigations_finishLoading.
Qed.

(** C6: in a redirect-callback run that is not skipped the navigator is
    called exactly once, when the exchange settles, success or failure, and
    never again: with the target path of the preserved application state if
    there is one, else with the configured error path if the exchange failed
    and one is configured, else with the root path. *)
Theorem callback_navigates_exactly_once
    (cfg : AuthConfig) (loc : Location) (evs1 evs2 : list SvcEvent)
    (o : StartupOutcome) :
  shouldHandleCallback cfg loc = true →
  Forall (λ e, is_startup e = false) evs1 →
  is_callback_outcome o = true →
  navigations (svc_run evs1 (create cfg loc)) = [] ∧
  navigations (svc_run (evs1 ++ StartupSettled o :: evs2) (create cfg loc)) =
    [callback_target cfg o] ∧
  (∀ r ap path, o = CallbackResolved r → (r ≫= appState) = Some ap →
     target ap = Some path → callback_target cfg o = path) ∧
  (∀ e path, o = CallbackRejected e → errorPath cfg = Some path →
     callback_target cfg o = path) ∧
  (∀ e, o = CallbackRejected e → errorPath cfg = None →
     callback_target cfg o = "/") ∧
  (∀ r, o = CallbackResolved r → ((r ≫= appState) ≫= target) = None →
     callback_target cfg o = "/").
Proof.
  intros Hcb Hno Ho.
  destruct (phase_before_startup cfg loc evs1 Hno) as (Hph & Hnav & Hcfg).
  split; [done|]. split; [|repeat split].
  - change (evs1 ++ StartupSettled o :: evs2)
      with (evs1 ++ [StartupSettled o] ++ evs2).
    rewrite !svc_run_app.
    set (svc := svc_run evs1 (create cfg loc)) in *.
    assert (phase svc = ProcessingCallback) as Hph'.
    { rewrite Hph. simpl. by rewrite Hcb. }
    destruct (startupSettled_callback svc o Hph' Ho) as [Hl Hn].
    change (svc_run [StartupSettled o] svc) with (startupSettled o svc).
    destruct (loaded_stays (startupSettled o svc) evs2 Hl) as [_ ->].
    by rewrite Hn, Hnav, Hcfg.
  - intros r ap path -> Hap Ht. simpl. unfold navigation_target.
    rewrite Hap. simpl. by rewrite Ht.
  - intros e path -> He. simpl. unfold navigation_target. simpl. by rewrite He.
  - intros e -> He. simpl. unfold navigation_target. simpl. by rewrite He.
  - intros r -> Hr. simpl. unfold navigation_target. by rewrite Hr.
Qed.

Lemma callback_navigates_exactly_once_witness :
  let cfg := {| skipRedirectCallback := false; errorPath := None |} in
  let loc := {| has_code := true; has_state := true; has_error := false |} in
  let o := CallbackResolved
             (Some {| appState := Some {| target := Some "/test-route" |} |}) in
  shouldHandleCallback cfg loc = true ∧
  navigations (svc_run ([SubscribeTo IsLoadingS] ++
                        StartupSettled o :: [LoginCompleted]) (create cfg loc)) =
    ["/test-route"].
Proof.
  intros cfg loc o. split; [reflexivity|].
  refine (proj1 (proj2 (callback_navigates_exactly_once cfg loc
    [SubscribeTo IsLoadingS] [LoginCompleted] o eq_refl _ eq_refl))).
  repeat constructor.
Defined.

(** ** A failed callback exchange *)

Lemma errorSubject_finishLoading svc :
  errorSubject (authState (finishLoading svc)) = errorSubject (authState svc).
Proof. unfold finishLoading. by destruct (destroyed svc). Qed.

Lemma notes_error_finishLoading sub svc :
  notes sub ErrorS (authState (finishLoading svc)) =
  notes sub ErrorS (authState svc).
Proof.
  unfold finishLoading. destruct (destroyed svc); [done|]. simpl.
  unfold setIsLoading. rewrite notes_broadcast.
  by rewrite notes_emit_all_other by (by left).
Qed.

Lemma elem_of_notes_setError sub e s :
  sub ∈ errorObservers s → Next (VErr e) ∈ notes sub ErrorS (setError e s).
Proof.
  intros Hin. unfold notes, setError, emit_all. cbn [log set_log].
  rewrite omap_app. apply elem_of_app. right.
  apply list_elem_of_omap. exists (mkObs ErrorS (Next (VErr e)) sub). split.
  - apply list_elem_of_fmap. by exists sub.
  - unfold note_of. by rewrite decide_True.
Qed.

(** C7: when [handleRedirectCallback] throws during startup, the error is
    put on error$ (the subscribers receive it, and it is replayed to whoever
    subscribes later), the navigator is still called, with the configured
    error path or the root path, and the startup sequence completes: the
    instance ends loading. *)
Theorem callback_failure_recorded_and_navigated
    (cfg : AuthConfig) (loc : Location) (evs1 : list SvcEvent) (e : Err) :
  let before := svc_run evs1 (create cfg loc) in
  let after := svc_step before (StartupSettled (CallbackRejected e)) in
  shouldHandleCallback cfg loc = true →
  Forall (λ ev, is_startup ev = false) evs1 →
  errorSubject (authState after) = Some e ∧
  (∀ sub, sub ∈ errorObservers (authState before) →
     Next (VErr e) ∈ notes sub ErrorS (authState after)) ∧
  notes (nextSub (authState after)) ErrorS
    (authState (svc_step after (SubscribeTo ErrorS))) = [Next (VErr e)] ∧
  navigations after = [default "/" (errorPath cfg)] ∧
  phase after = Loaded ∧
  (destroyed before = false → isLoadingSubject (authState after) = false).
Proof.
  intros before after Hcb Hno.
  destruct (phase_before_startup cfg loc evs1 Hno) as (Hph & Hnav & Hcfg).
  fold before in Hph, Hnav, Hcfg.
  assert (phase before = ProcessingCallback) as Hph'.
  { rewrite Hph. simpl. by rewrite Hcb. }
  assert (after = set_phase Loaded (finishLoading
            (navigateByUrl (navigation_target (config before) None true)
               (lift (setError e) before)))) as Hafter.
  { unfold after. cbn [svc_step]. unfold startupSettled. by rewrite Hph'. }
  assert (errorSubject (authState after) = Some e) as Herr.
  { rewrite Hafter. cbn [authState set_phase].
    by rewrite errorSubject_finishLoading. }
  split; [done|]. split; [|split; [|split; [|split]]].
  - intros sub Hsub. rewrite Hafter. cbn [authState set_phase].
    rewrite notes_error_finishLoading. by apply elem_of_notes_setError.
  - cbn [svc_step lift authState]. unfold subscribe.
    rewrite notes_emit_to, decide_True by done.
    change (errorSubject (set_nextSub _ (authState after)))
      with (errorSubject (authState after)). rewrite Herr.
    change (notes (nextSub (authState after)) ErrorS _)
      with (notes (nextSub (authState after)) ErrorS (authState after)).
    rewrite notes_fresh; [done| |done].
    change after with (svc_step (svc_run evs1 (create cfg loc))
                         (StartupSettled (CallbackRejected e))).
    rewrite <- svc_run_snoc. apply svc_fresh.
  - rewrite Hafter. cbn [navigations set_phase].
    rewrite navigations_finishLoading. simpl. by rewrite Hnav, Hcfg.
  - by rewrite Hafter.
  - intros Hd. rewrite Hafter. cbn [authState set_phase]. unfold finishLoading.
    simpl. by rewrite Hd.
Qed.

Lemma callback_failure_recorded_and_navigated_witness :
  let cfg := {| skipRedirectCallback := false; errorPath := Some "/error" |} in
  let loc := {| has_code := true; has_state := true; has_error := false |} in
  let after := svc_run [SubscribeTo ErrorS;
                        StartupSettled (CallbackRejected "exchange failed")]
                 (create cfg loc) in
  shouldHandleCallback cfg loc = true ∧
  errorSubject (authState after) = Some "exchange failed" ∧
  navigations after = ["/error"].
Proof.
  intros cfg loc after. split; [reflexivity|].
  assert (Forall (λ ev, is_startup ev = false) [SubscribeTo ErrorS]) as Hno
    by repeat constructor.
  destruct (callback_failure_recorded_and_navigated cfg loc
    [SubscribeTo ErrorS] "exchange failed" eq_refl Hno)
    as (He & _ & _ & Hn & _).
  split; [exact He|exact Hn].
Defined.

(** ** Local-only logout *)

(** No mutator of [AuthState] makes isAuthenticated$ emit: on its own the
    stream emits when a check of the client settles, or replays to a new
    subscriber. *)
Lemma mutator_silent sub s ev :
  is_mutator ev = true →
  notes sub IsAuthenticatedS (step s ev) = notes sub IsAuthenticatedS s.
Proof.
  destruct ev as [b| |t|e|st|p o]; try done; intros _; cbn [step].
  - unfold setIsLoading. rewrite notes_broadcast.
    by rewrite notes_emit_all_other by (by left).
  - unfold setError. by rewrite notes_emit_all_other by (by left).
Qed.

Lemma mutators_silent sub s ms :
  Forall (λ ev, is_mutator ev = true) ms →
  notes sub IsAuthenticatedS (run ms s) = notes sub IsAuthenticatedS s.
Proof.
  induction ms as [|ev ms IH] using rev_ind; intros Hms; [done|].
  apply Forall_app in Hms as [Hms Hev]. apply Forall_cons_1 in Hev as [Hev _].
  rewrite run_snoc, mutator_silent by done. by apply IH.
Qed.







(** * Further properties of AuthState *)

(** ** The calls of one trigger subscription *)

Lemma omap_owner_fmap k n (cs : list Call) :
  omap (λ c, if decide (owner c = k) then Some (call c) else None)
    (mkPending n <$> cs) = if decide (n = k) then cs else [].
Proof.
  induction cs as [|c cs IH]; csimpl; [by case_decide|].
  rewrite IH. by case_decide.
Qed.

Lemma omap_owner_imap k n (h : TriggerSub → list Call) (l : list TriggerSub) :
  omap (λ c, if decide (owner c = k) then Some (call c) else None)
    (mjoin (imap (λ i tr, mkPending (n + i) <$> h tr) l)) =
  if decide (n ≤ k) then from_option h [] (l !! (k - n)) else [].
Proof.
  revert n. induction l as [|x l IH]; intros n.
  - simpl. by case_decide.
  - rewrite imap_cons. simpl. rewrite omap_app, omap_owner_fmap.
    rewrite (imap_ext _ (λ i tr, mkPending (S n + i) <$> h tr))
      by (intros; simpl; by rewrite Nat.add_succ_r).
    rewrite IH, Nat.add_0_r.
    repeat case_decide; try lia; simpl.
    + subst. rewrite Nat.sub_diag. simpl. by rewrite app_nil_r.
    + replace (k - n) with (S (k - S n)) by lia. done.
    + done.
Qed.

Lemma calls_of_broadcast k f s :
  calls_of k (broadcast f s) =
  calls_of k s ++ from_option (λ tr, (f tr).2) [] (triggers s !! k).
Proof.
  unfold calls_of, broadcast. cbn [issued set_issued set_triggers].
  rewrite omap_app. f_equal.
  rewrite (omap_owner_imap k 0 (λ tr, (f tr).2)).
  rewrite decide_True by lia. by rewrite Nat.sub_0_r.
Qed.

Lemma calls_of_issue k k' cs s :
  calls_of k (issue k' cs s) = calls_of k s ++ (if decide (k' = k) then cs else []).
Proof.
  unfold calls_of, issue. cbn [issued set_issued].
  by rewrite omap_app, omap_owner_fmap.
Qed.

Lemma calls_of_out_of_range k s :
  Inv_bounds s → length (triggers s) ≤ k → calls_of k s = [].
Proof.
  intros [_ _ H] Hk. unfold calls_of.
  induction (issued s) as [|c l IH]; [done|].
  apply Forall_cons in H as [Hc Hl]. csimpl. rewrite IH by done.
  by rewrite decide_False by lia.
Qed.

(** ** The initial check is made once *)

Lemma Inv_initial_frame s s' :
  Inv_initial s →
  (∀ k tr', triggers s' !! k = Some tr' →
     ∃ tr, triggers s !! k = Some tr ∧ switched tr' = switched tr) →
  (∀ k, List.filter is_initial (calls_of k s') =
        List.filter is_initial (calls_of k s)) →
  Inv_initial s'.
Proof.
  intros H Ht Hc k tr' Hk. destruct (Ht k tr' Hk) as (tr & Hk0 & ->).
  unfold initial_checks. rewrite Hc. by apply H.
Qed.

Lemma Inv_initial_broadcast f s :
  (∀ tr, length (List.filter is_initial (f tr).2) +
         (if switched tr then 1 else 0) =
         if switched (f tr).1 then 1 else 0) →
  Inv_initial s → Inv_initial (broadcast f s).
Proof.
  intros Hf H k tr' Hk. apply lookup_broadcast in Hk as (tr & Hk & ->).
  unfold initial_checks. rewrite calls_of_broadcast, Hk. simpl.
  rewrite List.filter_app, length_app. rewrite <- (Hf tr).
  specialize (H k tr Hk). unfold initial_checks in H. lia.
Qed.

Lemma initial_tr_loading b tok tr :
  length (List.filter is_initial (tr_loading b tok tr).2) +
  (if switched tr then 1 else 0) =
  if switched (tr_loading b tok tr).1 then 1 else 0.
Proof.
  unfold tr_loading, tr_activate, tr_token, active_sub.
  destruct tr as [[] [] acc p], b, tok; simpl; try done;
    by destruct (token_changed _).
Qed.

Lemma initial_tr_token t tr :
  length (List.filter is_initial (tr_token t tr).2) +
  (if switched tr then 1 else 0) =
  if switched (tr_token t tr).1 then 1 else 0.
Proof.
  unfold tr_token. destruct (active_sub tr); simpl; [|done].
  by destruct (token_changed _).
Qed.

Lemma initial_tr_refresh tr :
  length (List.filter is_initial (tr_refresh tr).2) +
  (if switched tr then 1 else 0) =
  if switched (tr_refresh tr).1 then 1 else 0.
Proof. unfold tr_refresh. by destruct (active_sub tr). Qed.

Lemma filter_initial_profile d started :
  List.filter is_initial (profile_call d started) = [].
Proof. by destruct started. Qed.

Lemma Inv_initial_deliver k b s : Inv_initial s → Inv_initial (deliver k b s).
Proof.
  intros H. unfold deliver.
  destruct (triggers s !! k) as [tr|] eqn:Hk; [|done].
  destruct (pipe tr) as [prev|d sub buf act]; [case_decide|].
  - by apply (Inv_initial_frame s); eauto.
  - apply (Inv_initial_frame s); [done| |done].
    intros k' t' Hk'. simpl in Hk'.
    destruct (lookup_insert_with _ _ _ _ _ _ Hk Hk') as [[-> ->]|[_ Hk0]];
      eauto.
  - apply (Inv_initial_frame s); [done| |].
    + intros k' t' Hk'. simpl in Hk'.
      destruct (lookup_insert_with _ _ _ _ _ _ Hk Hk') as [[-> ->]|[_ Hk0]];
        eauto.
    + intros k'. rewrite calls_of_issue, List.filter_app.
      case_decide; rewrite ?filter_initial_profile; by rewrite app_nil_r.
Qed.

Lemma Inv_initial_complete_inner k u s :
  Inv_initial s → Inv_initial (complete_inner k u s).
Proof.
  intros H. unfold complete_inner.
  destruct (triggers s !! k) as [tr|] eqn:Hk; [|done].
  destruct (pipe tr) as [prev|d sub buf act]; [done|].
  apply (Inv_initial_frame s); [done| |].
  - intros k' t' Hk'. simpl in Hk'.
    destruct (lookup_insert_with _ _ _ _ _ _ Hk Hk') as [[-> ->]|[_ Hk0]];
      eauto.
  - intros k'. rewrite calls_of_issue, List.filter_app.
    case_decide; rewrite ?filter_initial_profile; by rewrite app_nil_r.
Qed.

Lemma Inv_initial_fail k e s : Inv_initial s → Inv_initial (fail k e s).
Proof.
  intros H. unfold fail.
  destruct (triggers s !! k) as [tr|] eqn:Hk; [|done].
  destruct (pipe tr) as [prev|d sub buf act];
    (apply (Inv_initial_frame s); [done| |done]);
    intros k' t' Hk'; simpl in Hk';
    destruct (lookup_insert_with _ _ _ _ _ _ Hk Hk') as [[-> ->]|[_ Hk0]];
    eauto.
Qed.

Lemma Inv_initial_subscribeTrigger p s :
  Inv_bounds s → Inv_initial s → Inv_initial (subscribeTrigger p s).
Proof.
  intros Hbd H k tr' Hk. unfold subscribeTrigger in *. simpl in Hk.
  unfold initial_checks. rewrite calls_of_issue.
  set (tr0 := {| live := true; switched := false; tokenAcc := seed; pipe := p |}) in *.
  apply lookup_app_Some in Hk as [Hk|[Hlen Hk]].
  - rewrite decide_False by (apply lookup_lt_Some in Hk; lia).
    rewrite app_nil_r. by apply H.
  - destruct (k - length (triggers s)) eqn:E; simplify_eq/=.
    assert (k = length (triggers s)) as -> by lia.
    rewrite decide_True by done.
    change (calls_of _ (set_triggers _ s)) with (calls_of (length (triggers s)) s).
    rewrite calls_of_out_of_range by done. simpl.
    by rewrite <- (initial_tr_loading (isLoadingSubject s) (accessToken s) tr0),
      Nat.add_0_r.
Qed.

Lemma Inv_initial_step s ev :
  Inv_bounds s → Inv_initial s → Inv_initial (step s ev).
Proof.
  intros Hbd H. destruct ev as [b| |t|e|st|p o]; cbn [step].
  - apply Inv_initial_broadcast; [apply initial_tr_loading|].
    apply (Inv_initial_frame s); eauto.
  - apply Inv_initial_broadcast; [apply initial_tr_refresh|done].
  - apply Inv_initial_broadcast; [apply initial_tr_token|].
    apply (Inv_initial_frame s); eauto.
  - apply (Inv_initial_frame s); eauto.
  - unfold subscribe. destruct st as [| |d|].
    + apply (Inv_initial_frame s); eauto.
    + case_match.
      * apply Inv_initial_subscribeTrigger; [by apply (Inv_bounds_frame s)|].
        apply (Inv_initial_frame s); eauto.
      * apply (Inv_initial_frame s); eauto.
    + apply Inv_initial_subscribeTrigger; [by apply (Inv_bounds_frame s)|].
      apply (Inv_initial_frame s); eauto.
    + apply (Inv_initial_frame s); eauto.
  - assert (Inv_initial (mark_settled p s)) as Hm
      by (apply (Inv_initial_frame s); eauto).
    apply settle_elim; intros; try done.
    + by apply Inv_initial_deliver.
    + by apply Inv_initial_complete_inner.
    + by apply Inv_initial_fail.
Qed.

Lemma Inv_initial_reachable s : reachable s → Inv_initial s.
Proof.
  revert s. apply reachable_ind.
  - by intros k tr Hk.
  - intros s ev Hr. apply Inv_initial_step. by apply Inv_bounds_reachable.
Qed.

(** X1: a subscription to [isAuthenticatedTrigger$] makes its initial check
    ([defer(() => this.authokClient.isAuthenticated())]) exactly once, when
    the first [false] of isLoading$ reaches it, and not before: however
    often the loading flag changes afterwards, [switchMap] is not run
    again. *)
Theorem initial_check_made_once
    (evs : list Event) (k : nat) (tr : TriggerSub) :
  let s := run evs init in
  triggers s !! k = Some tr →
  initial_checks k s = (if switched tr then 1 else 0) ∧
  ∀ b, initial_checks k (step (step s (CallSetIsLoading false))
                           (CallSetIsLoading b)) =
       initial_checks k (step s (CallSetIsLoading false)).
Proof.
  intros s Hk.
  pose proof (Inv_initial_reachable s (reachable_run evs)) as H.
  split; [by apply H|]. intros b.
  set (s1 := step s (CallSetIsLoading false)).
  assert (Inv_initial s1) as H1
    by apply Inv_initial_reachable, reachable_step, reachable_run.
  assert (Inv_initial (step s1 (CallSetIsLoading b))) as H2
    by apply Inv_initial_reachable, reachable_step, reachable_step, reachable_run.
  set (t1 := (tr_loading false (accessToken s) tr).1).
  assert (triggers s1 !! k = Some t1) as Hk1.
  { unfold s1. simpl. by rewrite list_lookup_fmap, Hk. }
  assert (∃ t2, triggers (step s1 (CallSetIsLoading b)) !! k = Some t2 ∧
                switched t2 = switched t1) as (t2 & Hk2 & Hsw).
  { eexists. split.
    - cbn [step]. unfold setIsLoading, broadcast. cbn [triggers set_issued set_triggers].
      rewrite list_lookup_fmap.
      change (triggers (emit_all _ _ _ (set_isLoadingSubject b s1)))
        with (triggers s1).
      by rewrite Hk1.
    - unfold t1, tr_loading, tr_activate, tr_token, active_sub.
      destruct tr as [[] [] acc p], b, (accessToken s), (accessToken _);
        simpl; done. }
  rewrite (H2 k t2 Hk2), (H1 k t1 Hk1). by rewrite Hsw.
Qed.

Lemma initial_check_made_once_witness :
  let evs := [Subscribe IsAuthenticatedS; CallSetIsLoading true;
              CallSetIsLoading false; CallSetIsLoading true;
              CallSetIsLoading false] in
  switched <$> triggers (run evs init) !! 0 = Some true ∧
  initial_checks 0 (run evs init) = 1.
Proof.
  intros evs. split; [reflexivity|].
  assert (triggers (run evs init) !! 0 =
          Some {| live := true; switched := true; tokenAcc := seed;
                  pipe := SharedPipe None |}) as Hk by reflexivity.
  exact (proj1 (initial_check_made_once evs 0 _ Hk)).
Defined.

(** ** One profile lookup for every check that returned [true] *)

Lemma count_true_app l1 l2 : count_true (l1 ++ l2) = count_true l1 + count_true l2.
Proof. unfold count_true. by rewrite List.filter_app, length_app. Qed.

Lemma count_true_drain (buffer : list bool) :
  count_true buffer =
  (if (drain buffer).2 then 1 else 0) + count_true (drain buffer).1.2.
Proof.
  induction buffer as [|[] buffer IH]; simpl; try done.
Qed.

Lemma profile_call_replicate d started :
  profile_call d started = replicate (if started then 1 else 0) (GetProfile d).
Proof. by destruct started. Qed.

Lemma filter_profile_replicate m d :
  List.filter is_profile_call (replicate m (GetProfile d)) =
  replicate m (GetProfile d).
Proof. induction m as [|m IH]; [done|]. simpl. by rewrite IH. Qed.

Lemma filter_profile_checks (cs : list Call) :
  Forall (λ c, ∃ o, c = IsAuthenticated o) cs →
  List.filter is_profile_call cs = [].
Proof.
  induction 1 as [|c cs [o ->] _ IH]; [done|]. simpl. done.
Qed.

Lemma Inv_profile_frame s s' :
  Inv_profile s →
  (∀ k tr', triggers s' !! k = Some tr' →
     ∃ tr, triggers s !! k = Some tr ∧ concat_view tr' = concat_view tr) →
  (∀ k tr, triggers s !! k = Some tr → concat_view tr ≠ None →
     fired_by k s' = fired_by k s) →
  (∀ k, profile_calls k s' = profile_calls k s) →
  Inv_profile s'.
Proof.
  intros H Ht Hf Hc k tr' Hk. destruct (Ht k tr' Hk) as (tr & Hk0 & ->).
  specialize (H k tr Hk0). rewrite Hc.
  destruct (concat_view tr) as [[[[d sub] buf] act]|] eqn:Hv; [|done].
  rewrite (Hf k tr Hk0); [done|congruence].
Qed.

Lemma Inv_profile_broadcast f s :
  keeps_pipes f → checks_only f → Inv_profile s → Inv_profile (broadcast f s).
Proof.
  intros Hf Hc H. apply (Inv_profile_frame s); try done.
  - intros k tr' Hk. apply lookup_broadcast in Hk as (tr & Hk & ->).
    exists tr. split; [done|]. by apply keeps_concat.
  - intros k. unfold profile_calls. rewrite calls_of_broadcast, List.filter_app.
    destruct (triggers s !! k) as [tr|]; simpl.
    + rewrite (filter_profile_checks _ (Hc tr)). by rewrite app_nil_r.
    + by rewrite app_nil_r.
Qed.

Lemma replicate_add_app {A} n m (x : A) :
  replicate n x ++ replicate m x = replicate (n + m) x.
Proof. by rewrite replicate_add. Qed.

Lemma Inv_profile_update s s' k tr tr' d sub buf act buf' act' started b :
  Inv_profile s →
  triggers s !! k = Some tr →
  concat_view tr = Some (d, sub, buf, act) →
  triggers s' = <[k := tr']> (triggers s) →
  concat_view tr' = Some (d, sub, buf', act') →
  (∀ k', k' ≠ k → fired_by k' s' = fired_by k' s) →
  (∀ k', k' ≠ k → profile_calls k' s' = profile_calls k' s) →
  fired_by k s' = fired_by k s ++ b →
  profile_calls k s' = profile_calls k s ++ profile_call d started →
  (if started then 1 else 0) + count_true buf' = count_true buf + count_true b →
  Inv_profile s'.
Proof.
  intros H Hk Hv Ht Hv' Hf Hc Hfk Hck Hcount k' t' Hk'. rewrite Ht in Hk'.
  destruct (lookup_insert_with _ _ _ _ _ _ Hk Hk') as [[-> ->]|[Hne Hk0]].
  - rewrite Hv'. specialize (H k tr Hk). rewrite Hv in H.
    destruct H as (m & Hm & Hcnt).
    exists (m + if started then 1 else 0). split.
    + by rewrite Hck, Hm, profile_call_replicate, replicate_add_app.
    + rewrite Hfk, count_true_app. lia.
  - specialize (H k' t' Hk0). rewrite Hc by done.
    destruct (concat_view t') as [[[[d' sub'] buf0] act0]|]; [|done].
    by rewrite Hf.
Qed.

Lemma Inv_profile_deliver k b s : Inv_profile s → Inv_profile (deliver k b s).
Proof.
  intros H. unfold deliver.
  destruct (triggers s !! k) as [tr|] eqn:Hk; [|done].
  destruct (pipe tr) as [prev|d sub buf act] eqn:Hp.
  - assert (concat_view tr = None) as Hv by (unfold concat_view; by rewrite Hp).
    assert (∀ k' t', triggers s !! k' = Some t' → concat_view t' ≠ None →
              fired_by k' (set_fired (fired s ++ [(k, b)]) s) = fired_by k' s) as Hf.
    { intros k' t' Hk' Hv'. rewrite (fired_by_snoc k' k b s) by done.
      rewrite decide_False; [by rewrite app_nil_r|]. intros ->. congruence. }
    case_decide.
    + apply (Inv_profile_frame s); eauto.
    + apply (Inv_profile_frame s); try done.
      intros k' t' Hk'. simpl in Hk'.
      destruct (lookup_insert_with _ _ _ _ _ _ Hk Hk') as [[-> ->]|[_ Hk0]];
        eauto.
  - assert (concat_view tr = Some (d, sub, buf, act)) as Hv
      by (unfold concat_view; by rewrite Hp).
    set (r := concat_next b buf act).
    eapply (Inv_profile_update s _ k tr _ d sub buf act r.1.2 r.2
              (negb act && r.2) [b]); try done.
    + intros k' Hne. unfold issue, emit_to, fired_by. simpl.
      rewrite omap_app. csimpl. rewrite decide_False by done.
      by rewrite app_nil_r.
    + intros k' Hne. unfold profile_calls. rewrite calls_of_issue.
      rewrite decide_False by done. by rewrite app_nil_r.
    + unfold issue, emit_to, fired_by. simpl. rewrite omap_app. csimpl.
      by rewrite decide_True by done.
    + unfold profile_calls. rewrite calls_of_issue, decide_True by done.
      rewrite List.filter_app. f_equal.
      by rewrite profile_call_replicate, filter_profile_replicate.
    + unfold r, concat_next. destruct act; simpl.
      * by rewrite count_true_app.
      * pose proof (count_true_drain buf) as Hd.
        destruct b; unfold count_true in *; simpl in *; lia.
Qed.

Lemma Inv_profile_complete_inner k u s :
  Inv_profile s → Inv_profile (complete_inner k u s).
Proof.
  intros H. unfold complete_inner.
  destruct (triggers s !! k) as [tr|] eqn:Hk; [|done].
  destruct (pipe tr) as [prev|d sub buf act] eqn:Hp; [done|].
  assert (concat_view tr = Some (d, sub, buf, act)) as Hv
    by (unfold concat_view; by rewrite Hp).
  set (r := drain buf).
  eapply (Inv_profile_update s _ k tr _ d sub buf act r.1.2 r.2 r.2 []);
    try done.
  - intros k' Hne. unfold profile_calls. rewrite calls_of_issue.
    rewrite decide_False by done. by rewrite app_nil_r.
  - by rewrite app_nil_r.
  - unfold profile_calls. rewrite calls_of_issue, decide_True by done.
    rewrite List.filter_app. f_equal.
    by rewrite profile_call_replicate, filter_profile_replicate.
  - pose proof (count_true_drain buf) as Hd. fold r in Hd.
    unfold count_true at 3. simpl. lia.
Qed.

Lemma Inv_profile_fail k e s : Inv_profile s → Inv_profile (fail k e s).
Proof.
  intros H. unfold fail.
  destruct (triggers s !! k) as [tr|] eqn:Hk; [|done].
  destruct (pipe tr) as [prev|d sub buf act];
    (apply (Inv_profile_frame s); try done);
    intros k' t' Hk'; simpl in Hk';
    destruct (lookup_insert_with _ _ _ _ _ _ Hk Hk') as [[-> ->]|[_ Hk0]];
    eauto.
Qed.

Lemma Inv_profile_subscribeTrigger p s :
  (∀ d sub buf act, p = ConcatPipe d sub buf act → buf = []) →
  Inv_bounds s → Inv_profile s → Inv_profile (subscribeTrigger p s).
Proof.
  intros Hp Hbd H k tr' Hk. unfold subscribeTrigger in *. simpl in Hk.
  set (tr0 := {| live := true; switched := false; tokenAcc := seed; pipe := p |}) in *.
  set (r := tr_loading (isLoadingSubject s) (accessToken s) tr0) in *.
  assert (profile_calls k (issue (length (triggers s)) r.2
            (set_triggers (triggers s ++ [r.1]) s)) = profile_calls k s) as Hc.
  { unfold profile_calls. rewrite calls_of_issue, List.filter_app.
    case_decide; [|by rewrite app_nil_r]. unfold r.
    rewrite (filter_profile_checks _ (checks_only_loading _ _ tr0)).
    by rewrite app_nil_r. }
  rewrite Hc.
  apply lookup_app_Some in Hk as [Hk|[Hlen Hk]]; [by apply H|].
  destruct (k - length (triggers s)) eqn:E; simplify_eq/=.
  unfold profile_calls. rewrite calls_of_out_of_range by done.
  change (fired_by k _) with (fired_by k s).
  rewrite fired_by_out_of_range by done.
  unfold concat_view. unfold r. rewrite tr_loading_pipe. simpl.
  destruct p as [prev|d sub buf act]; [done|].
  rewrite (Hp d sub buf act eq_refl). by exists 0.
Qed.

Lemma Inv_profile_step s ev :
  Inv_bounds s → Inv_profile s → Inv_profile (step s ev).
Proof.
  intros Hbd H. destruct ev as [b| |t|e|st|p o]; cbn [step].
  - apply Inv_profile_broadcast;
      [apply keeps_pipes_loading|apply checks_only_loading|].
    apply (Inv_profile_frame s); eauto.
  - by apply Inv_profile_broadcast;
      [apply keeps_pipes_refresh|apply checks_only_refresh|].
  - apply Inv_profile_broadcast;
      [apply keeps_pipes_token|apply checks_only_token|].
    apply (Inv_profile_frame s); eauto.
  - apply (Inv_profile_frame s); eauto.
  - unfold subscribe. destruct st as [| |d|].
    + apply (Inv_profile_frame s); eauto.
    + case_match.
      * apply Inv_profile_subscribeTrigger; [done|by apply (Inv_bounds_frame s)|].
        apply (Inv_profile_frame s); eauto.
      * apply (Inv_profile_frame s); eauto.
    + apply Inv_profile_subscribeTrigger;
        [by intros; simplify_eq|by apply (Inv_bounds_frame s)|].
      apply (Inv_profile_frame s); eauto.
    + apply (Inv_profile_frame s); eauto.
  - destruct (issued s !! p) as [c|] eqn:Hp; [|unfold settle; by rewrite Hp].
    assert (Inv_profile (mark_settled p s)) as Hm
      by (apply (Inv_profile_frame s); eauto).
    apply settle_elim; intros; try done.
    + by apply Inv_profile_deliver.
    + by apply Inv_profile_complete_inner.
    + by apply Inv_profile_fail.
Qed.

Lemma Inv_profile_reachable s : reachable s → Inv_profile s.
Proof.
  revert s. apply reachable_ind.
  - by intros k tr Hk.
  - intros s ev Hr. apply Inv_profile_step. by apply Inv_bounds_reachable.
Qed.


(** X2: a subscription of user$ or idTokenClaims$ calls only the getter
    of its own stream ([getUser] for user$, [getIdTokenClaims] for
    idTokenClaims$), and [concatMap] has called it once for every check of
    the subscription's trigger that returned [true], less the [true]
    results still waiting in its buffer; a check that returned [false]
    starts no lookup ([of(null)]).  The subscription that feeds
    isAuthenticated$ never calls a getter. *)
Theorem profile_lookup_per_true_check (evs : list Event) (k : nat) (tr : TriggerSub) :
  let s := run evs init in
  triggers s !! k = Some tr →
  match pipe tr with
  | SharedPipe _ => profile_calls k s = []
  | ConcatPipe d sub buffer active =>
      count_true buffer ≤ count_true (fired_by k s) ∧
      profile_calls k s =
        replicate (count_true (fired_by k s) - count_true buffer) (GetProfile d)
  end.
Proof.
  intros s Hk.
  pose proof (Inv_profile_reachable s (reachable_run evs) k tr Hk) as H.
  unfold concat_view in H. destruct (pipe tr) as [prev|d sub buffer active]; [done|].
  destruct H as (m & Hm & Hcnt). split; [lia|].
  rewrite Hm. f_equal. lia.
Qed.

Lemma profile_lookup_per_true_check_witness :
  let evs := [CallSetIsLoading false; Subscribe (DerivedS User);
              CallRefresh; Settle 0 (ResolveBool true);
              Settle 1 (ResolveBool false)] in
  fired_by 0 (run evs init) = [true; false] ∧
  profile_calls 0 (run evs init) = [GetProfile User].
Proof.
  intros evs. split; [reflexivity|].
  assert (triggers (run evs init) !! 0 =
          Some {| live := true; switched := true; tokenAcc := seed;
                  pipe := ConcatPipe User 0 [false] true |}) as Hk by reflexivity.
  exact (proj2 (profile_lookup_per_true_check evs 0 _ Hk)).
Defined.

(** ** The two plain subjects: isLoading$ and error$ *)

Lemma loading_event_cases ev :
  (∃ b, ev = CallSetIsLoading b) ∨ ev = Subscribe IsLoadingS ∨
  ((∀ b, ev ≠ CallSetIsLoading b) ∧ ev ≠ Subscribe IsLoadingS).
Proof.
  destruct ev as [b| |t|e|[| |d|]|p o]; eauto; by right; right.
Qed.

(** The [BehaviorSubject] holds the value of the last [setIsLoading], or
    its initial [true]. *)
Lemma isLoadingSubject_run evs :
  isLoadingSubject (run evs init) = default true (last (loading_calls evs)).
Proof.
  induction evs as [|ev evs IH] using rev_ind; [done|].
  unfold loading_calls in *. rewrite run_snoc, omap_app. csimpl.
  destruct (loading_event_cases ev) as [[b ->]|[->|[Hl Hs]]]; csimpl.
  - by rewrite last_snoc.
  - by rewrite app_nil_r.
  - destruct (loading_frame_step (run evs init) ev Hl Hs) as (-> & _).
    destruct ev; csimpl; rewrite ?app_nil_r; try done. by destruct (Hl b).
Qed.

(** What a step does for a subscriber of isLoading$. *)
Lemma loading_trace_step s ev sub :
  Inv_fresh s → NoDup (loadingObservers s) → sub ∈ loadingObservers s →
  NoDup (loadingObservers (step s ev)) ∧
  sub ∈ loadingObservers (step s ev) ∧
  notes sub IsLoadingS (step s ev) =
    notes sub IsLoadingS s ++ (Next ∘ VBool <$> option_list (loading_call ev)).
Proof.
  intros Hf Hnd Hin.
  destruct (loading_event_cases ev) as [[b ->]|[->|[Hl Hs]]].
  2:{ pose proof (fr_loading s Hf) as Hlt. rewrite Forall_forall in Hlt.
    cbn [step subscribe loadingObservers emit_to set_log set_loadingObservers
         set_nextSub]. split; [|split].
    - apply NoDup_app. split; [done|]. split; [|apply NoDup_singleton].
      intros x Hx ->%list_elem_of_singleton. specialize (Hlt _ Hx). lia.
    - apply elem_of_app. by left.
    - rewrite notes_emit_to. rewrite decide_False; [done|].
      intros [<- _]. specialize (Hlt _ Hin). simpl in Hlt. lia. }
  - cbn [step]. split; [done|]. split; [done|].
    unfold setIsLoading. rewrite notes_broadcast.
    by rewrite notes_emit_all_in.
  - destruct (loading_frame_step s ev Hl Hs) as (_ & -> & ->).
    split; [done|]. split; [done|].
    destruct ev; csimpl; rewrite ?app_nil_r; try done. by destruct (Hl b).
Qed.

(** X3: isLoading$ is a [BehaviorSubject]: a subscriber receives at once
    the value of the last [setIsLoading] before it subscribed ([true] when
    there was none), then the value of every later [setIsLoading], in call
    order and repeated values included; nothing else reaches it, whatever
    else happens to the instance. *)
Theorem isLoading_subscriber_trace (evs1 evs2 : list Event) :
  let s1 := run evs1 init in
  notes (nextSub s1) IsLoadingS (run evs2 (step s1 (Subscribe IsLoadingS))) =
    Next ∘ VBool <$>
      (default true (last (loading_calls evs1)) :: loading_calls evs2).
Proof.
  intros s1. set (sub := nextSub s1). set (s0 := step s1 (Subscribe IsLoadingS)).
  assert (reachable s0) as Hr0 by apply reachable_step, reachable_run.
  assert (NoDup (loadingObservers s1)) as Hnd1.
  { unfold s1. clear. induction evs1 as [|ev evs IH] using rev_ind;
      [apply NoDup_nil_2|].
    rewrite run_snoc.
    pose proof (Inv_fresh_reachable _ (reachable_run evs)) as Hf.
    destruct (loading_event_cases ev) as [[b ->]|[->|[Hl Hs]]]; [done| |].
    - pose proof (fr_loading _ Hf) as Hlt. rewrite Forall_forall in Hlt.
      cbn [step subscribe loadingObservers emit_to set_log
           set_loadingObservers set_nextSub].
      apply NoDup_app. split; [done|]. split; [|apply NoDup_singleton].
      intros x Hx ->%list_elem_of_singleton. specialize (Hlt _ Hx). lia.
    - by destruct (loading_frame_step (run evs init) ev Hl Hs) as (_ & -> & _). }
  cut (NoDup (loadingObservers (run evs2 s0)) ∧
       sub ∈ loadingObservers (run evs2 s0) ∧
       notes sub IsLoadingS (run evs2 s0) =
         Next ∘ VBool <$> (isLoadingSubject s1 :: loading_calls evs2)).
  { intros (_ & _ & ->). unfold s1. by rewrite isLoadingSubject_run. }
  induction evs2 as [|ev evs IH] using rev_ind.
  - pose proof (Inv_fresh_reachable _ (reachable_run evs1)) as Hf.
    pose proof (fr_loading _ Hf) as Hlt. rewrite Forall_forall in Hlt.
    cbn [run foldl]. unfold s0.
    cbn [step subscribe loadingObservers emit_to set_log
         set_loadingObservers set_nextSub]. split; [|split].
    + apply NoDup_app. split; [done|]. split; [|apply NoDup_singleton].
      intros x Hx ->%list_elem_of_singleton. specialize (Hlt _ Hx).
      fold s1 in Hlt. lia.
    + apply elem_of_app. right. by left.
    + fold (emit_to (nextSub s1) IsLoadingS
              [Next (VBool (isLoadingSubject s1))]
              (set_loadingObservers (loadingObservers s1 ++ [nextSub s1])
                 (set_nextSub (S (nextSub s1)) s1))).
      rewrite notes_emit_to, decide_True by done.
      change (notes sub IsLoadingS _) with (notes sub IsLoadingS s1).
      by rewrite notes_fresh.
  - destruct IH as (Hnd & Hin & Hn). rewrite run_snoc.
    assert (Inv_fresh (run evs s0)) as Hf
      by apply Inv_fresh_reachable, reachable_app, Hr0.
    destruct (loading_trace_step _ ev sub Hf Hnd Hin) as (Hnd' & Hin' & ->).
    split; [done|]. split; [done|].
    rewrite Hn. unfold loading_calls. rewrite omap_app.
    rewrite app_comm_cons, fmap_app. by destruct ev.
Qed.

(** *** error$ *)

Lemma error_frame_trans s1 s2 s3 :
  error_frame s1 s2 → error_frame s2 s3 → error_frame s1 s3.
Proof.
  intros (H1 & H2 & H3) (H4 & H5 & H6). split; [congruence|].
  split; [congruence|]. intros sub. by rewrite H6.
Qed.

Lemma error_frame_emit_to sub st ns s0 s :
  st ≠ ErrorS → error_frame s0 s → error_frame s0 (emit_to sub st ns s).
Proof.
  intros Hst H. apply (error_frame_trans _ s); [done|].
  split; [done|]. split; [done|]. intros sub'.
  rewrite notes_emit_to. rewrite decide_False by (by intros [_ ?]).
  by rewrite app_nil_r.
Qed.

Lemma error_frame_emit_all subs st n s0 s :
  st ≠ ErrorS → error_frame s0 s → error_frame s0 (emit_all subs st n s).
Proof.
  intros Hst H. apply (error_frame_trans _ s); [done|].
  split; [done|]. split; [done|]. intros sub'.
  by rewrite notes_emit_all_other by (by left).
Qed.

Lemma error_frame_deliver k b s : error_frame s (deliver k b s).
Proof.
  unfold deliver. destruct (triggers s !! k) as [tr|]; [|done].
  destruct (pipe tr) as [prev|d sub0 buf act]; [case_decide; [done|]|].
  - by apply error_frame_emit_all.
  - by apply error_frame_emit_to.
Qed.

Lemma error_frame_complete_inner k u s : error_frame s (complete_inner k u s).
Proof.
  unfold complete_inner. destruct (triggers s !! k) as [tr|]; [|done].
  destruct (pipe tr) as [prev|d sub0 buf act]; [done|].
  by apply error_frame_emit_to.
Qed.

Lemma error_frame_fail k e s : error_frame s (fail k e s).
Proof.
  unfold fail. destruct (triggers s !! k) as [tr|]; [|done].
  destruct (pipe tr) as [prev|d sub0 buf act].
  - by apply error_frame_emit_all.
  - by apply error_frame_emit_to.
Qed.

Lemma error_event_cases ev :
  (∃ e, ev = CallSetError e) ∨ ev = Subscribe ErrorS ∨
  ((∀ e, ev ≠ CallSetError e) ∧ ev ≠ Subscribe ErrorS).
Proof.
  destruct ev as [b| |t|e|[| |d|]|p o]; eauto; by right; right.
Qed.

(** Only [setError] and the subscriptions of error$ itself touch error$:
    no failed check, no failed profile lookup. *)
Lemma error_frame_step s ev :
  (∀ e, ev ≠ CallSetError e) → ev ≠ Subscribe ErrorS →
  error_frame s (step s ev).
Proof.
  intros He Hsub. destruct ev as [b| |t|e|st|p o]; cbn [step].
  - unfold setIsLoading. by apply error_frame_emit_all.
  - done.
  - done.
  - by destruct (He e).
  - unfold subscribe. destruct st as [| |d|]; [|  |done|done].
    + by apply error_frame_emit_to.
    + case_match; [done|]. by apply error_frame_emit_to.
  - apply settle_elim; intros; try done.
    + apply (error_frame_trans _ (mark_settled p s)); [done|].
      apply error_frame_deliver.
    + apply (error_frame_trans _ (mark_settled p s)); [done|].
      apply error_frame_complete_inner.
    + apply (error_frame_trans _ (mark_settled p s)); [done|].
      apply error_frame_fail.
Qed.

(** The [ReplaySubject(1)] holds the error of the last [setError]. *)
Lemma errorSubject_run evs :
  errorSubject (run evs init) = last (error_calls evs).
Proof.
  induction evs as [|ev evs IH] using rev_ind; [done|].
  unfold error_calls in *. rewrite run_snoc, omap_app.
  destruct (error_event_cases ev) as [[e ->]|[->|[Hl Hs]]]; csimpl.
  - by rewrite last_snoc.
  - by rewrite app_nil_r.
  - destruct (error_frame_step (run evs init) ev Hl Hs) as (-> & _).
    destruct ev; csimpl; rewrite ?app_nil_r; try done. by destruct (Hl e).
Qed.

Lemma errorObservers_subscribe s :
  Inv_fresh s → NoDup (errorObservers s) →
  NoDup (errorObservers (step s (Subscribe ErrorS))).
Proof.
  intros Hf Hnd. pose proof (fr_error s Hf) as Hlt. rewrite Forall_forall in Hlt.
  cbn [step subscribe errorObservers emit_to set_log
       set_errorObservers set_nextSub].
  apply NoDup_app. split; [done|]. split; [|apply NoDup_singleton].
  intros x Hx ->%list_elem_of_singleton. specialize (Hlt _ Hx). lia.
Qed.

Lemma error_trace_step s ev sub :
  Inv_fresh s → NoDup (errorObservers s) → sub ∈ errorObservers s →
  NoDup (errorObservers (step s ev)) ∧
  sub ∈ errorObservers (step s ev) ∧
  notes sub ErrorS (step s ev) =
    notes sub ErrorS s ++ (Next ∘ VErr <$> option_list (error_call ev)).
Proof.
  intros Hf Hnd Hin.
  destruct (error_event_cases ev) as [[e ->]|[->|[Hl Hs]]].
  - cbn [step]. split; [done|]. split; [done|].
    unfold setError. by rewrite notes_emit_all_in.
  - split; [by apply errorObservers_subscribe|].
    pose proof (fr_error s Hf) as Hlt. rewrite Forall_forall in Hlt.
    cbn [step subscribe errorObservers emit_to set_log set_errorObservers
         set_nextSub]. split.
    + apply elem_of_app. by left.
    + fold (emit_to (nextSub s) ErrorS (replay VErr (errorSubject s))
              (set_errorObservers (errorObservers s ++ [nextSub s])
                 (set_nextSub (S (nextSub s)) s))).
      rewrite notes_emit_to. rewrite decide_False; [done|].
      intros [Heq _]. specialize (Hlt _ Hin). simpl in Hlt. lia.
  - destruct (error_frame_step s ev Hl Hs) as (_ & -> & ->).
    split; [done|]. split; [done|].
    destruct ev; csimpl; rewrite ?app_nil_r; try done. by destruct (Hl e).
Qed.

(** X4: error$ is a [ReplaySubject(1)] fed by [setError] alone: a
    subscriber receives at once the error of the last [setError] before it
    subscribed (nothing when there was none), then the error of every later
    [setError], in call order; a failed check or profile lookup of the
    client adds nothing to it, and the stream never ends. *)
Theorem error_subscriber_trace (evs1 evs2 : list Event) :
  let s1 := run evs1 init in
  notes (nextSub s1) ErrorS (run evs2 (step s1 (Subscribe ErrorS))) =
    Next ∘ VErr <$> (option_list (last (error_calls evs1)) ++ error_calls evs2).
Proof.
  intros s1. set (sub := nextSub s1). set (s0 := step s1 (Subscribe ErrorS)).
  assert (reachable s0) as Hr0 by apply reachable_step, reachable_run.
  assert (NoDup (errorObservers s1)) as Hnd1.
  { unfold s1. clear. induction evs1 as [|ev evs IH] using rev_ind;
      [apply NoDup_nil_2|].
    rewrite run_snoc.
    pose proof (Inv_fresh_reachable _ (reachable_run evs)) as Hf.
    destruct (error_event_cases ev) as [[b ->]|[->|[Hl Hs]]]; [done| |].
    - by apply errorObservers_subscribe.
    - by destruct (error_frame_step (run evs init) ev Hl Hs) as (_ & -> & _). }
  cut (NoDup (errorObservers (run evs2 s0)) ∧
       sub ∈ errorObservers (run evs2 s0) ∧
       notes sub ErrorS (run evs2 s0) =
         Next ∘ VErr <$> (option_list (errorSubject s1) ++ error_calls evs2)).
  { intros (_ & _ & ->). unfold s1. by rewrite errorSubject_run. }
  induction evs2 as [|ev evs IH] using rev_ind.
  - pose proof (Inv_fresh_reachable _ (reachable_run evs1)) as Hf.
    cbn [run foldl]. split; [by apply errorObservers_subscribe|].
    unfold s0.
    cbn [step subscribe errorObservers emit_to set_log
         set_errorObservers set_nextSub]. split.
    + apply elem_of_app. right. by left.
    + fold (emit_to (nextSub s1) ErrorS (replay VErr (errorSubject s1))
              (set_errorObservers (errorObservers s1 ++ [nextSub s1])
                 (set_nextSub (S (nextSub s1)) s1))).
      rewrite notes_emit_to, decide_True by done.
      change (notes sub ErrorS _) with (notes sub ErrorS s1).
      rewrite notes_fresh by done. rewrite app_nil_r.
      change (errorSubject (set_nextSub _ s1)) with (errorSubject s1).
      by destruct (errorSubject s1).
  - destruct IH as (Hnd & Hin & Hn). rewrite run_snoc.
    assert (Inv_fresh (run evs s0)) as Hf
      by apply Inv_fresh_reachable, reachable_app, Hr0.
    destruct (error_trace_step _ ev sub Hf Hnd Hin) as (Hnd' & Hin' & ->).
    split; [done|]. split; [done|].
    rewrite Hn. unfold error_calls. rewrite omap_app.
    rewrite !fmap_app, <- !app_assoc. by destruct ev.
Qed.

(** *** refresh$ *)

Lemma refresh_waiting s :
  Forall (λ tr, switched tr = false) (triggers s) → refresh s = s.
Proof.
  intros H. unfold refresh, broadcast.
  rewrite join_imap_nil.
  - rewrite app_nil_r.
    replace ((λ tr, (tr_refresh tr).1) <$> triggers s) with (triggers s)
      by (by rewrite list_fmap_id).
    by destruct s.
  - intros i tr Hi. rewrite Forall_forall in H.
    assert (switched tr = false) as Hsw by (by eapply H, list_elem_of_lookup_2).
    unfold tr_refresh, active_sub. rewrite Hsw. by rewrite andb_false_r.
Qed.

(** X5: refresh$ is a plain [Subject] and replays nothing: a [refresh()]
    made before isLoading$ has emitted [false] reaches no subscription,
    present or future; the run goes on exactly as if the call had not been
    made. *)
Theorem refresh_before_loading_is_lost (evs1 evs2 : list Event) :
  CallSetIsLoading false ∉ evs1 →
  run (evs1 ++ CallRefresh :: evs2) init = run (evs1 ++ evs2) init.
Proof.
  intros Hevs. rewrite !run_app.
  change (run (CallRefresh :: evs2) (run evs1 init))
    with (run evs2 (refresh (run evs1 init))).
  by rewrite refresh_waiting by apply (gt_waiting _ (Inv_gate_run evs1 Hevs)).
Qed.

Lemma refresh_before_loading_is_lost_witness :
  let evs1 := [Subscribe IsAuthenticatedS; Subscribe (DerivedS User)] in
  let evs2 := [CallSetIsLoading false] in
  (CallSetIsLoading false ∉ evs1) ∧
  (call <$> issued (run (evs1 ++ CallRefresh :: evs2) init)) =
    [IsAuthenticated Initial; IsAuthenticated Initial].
Proof.
  intros evs1 evs2.
  assert (CallSetIsLoading false ∉ evs1) as Hevs.
  { intros H. apply elem_of_cons in H as [H|H]; [discriminate|].
    apply elem_of_cons in H as [H|H]; [discriminate|].
    by apply elem_of_nil in H. }
  split; [exact Hevs|].
  rewrite (refresh_before_loading_is_lost evs1 evs2 Hevs). reflexivity.
Defined.

(** ** A subscription ended by an error stays silent *)

Lemma same_at_refl k s : same_at k s s.
Proof. done. Qed.

Lemma same_at_trans k s1 s2 s3 :
  same_at k s1 s2 → same_at k s2 s3 → same_at k s1 s3.
Proof.
  intros (H1 & H2 & H3 & H4) (H5 & H6 & H7 & H8).
  split; [congruence|]. split; [congruence|]. split; [congruence|].
  intros tr d sub buf act Hk Hp.
  rewrite (H8 tr d sub buf act) by congruence. by eapply H4.
Qed.

Lemma dead_tr_loading b tok tr :
  live tr = false → tr_loading b tok tr = (tr, []).
Proof. intros H. unfold tr_loading. by rewrite H. Qed.

Lemma dead_tr_token t tr : live tr = false → tr_token t tr = (tr, []).
Proof. intros H. unfold tr_token, active_sub. by rewrite H. Qed.

Lemma dead_tr_refresh tr : live tr = false → tr_refresh tr = (tr, []).
Proof. intros H. unfold tr_refresh, active_sub. by rewrite H. Qed.

Lemma same_at_broadcast f k tr s :
  (∀ tr, live tr = false → f tr = (tr, [])) →
  triggers s !! k = Some tr → live tr = false →
  same_at k s (broadcast f s).
Proof.
  intros Hf Hk Hl. split; [|split; [|done]].
  - unfold broadcast. cbn [triggers set_issued set_triggers].
    rewrite list_lookup_fmap, Hk. simpl. by rewrite (Hf tr Hl).
  - rewrite calls_of_broadcast, Hk. simpl. by rewrite (Hf tr Hl), app_nil_r.
Qed.

(** A step at another trigger subscription [k']. *)
Lemma same_at_other k k' s s' cs bs (ns : list Obs) :
  k' ≠ k →
  triggers s' !! k = triggers s !! k →
  issued s' = issued s ++ (mkPending k' <$> cs) →
  fired s' = fired s ++ ((λ b, (k', b)) <$> bs) →
  log s' = log s ++ ns →
  (∀ tr d sub buffer active,
     triggers s !! k = Some tr → pipe tr = ConcatPipe d sub buffer active →
     omap (note_of sub (DerivedS d)) ns = []) →
  same_at k s s'.
Proof.
  intros Hne Ht Hi Hf Hlog Hns. split; [|split; [|split]].
  - done.
  - unfold calls_of. rewrite Hi, omap_app, omap_owner_fmap.
    by rewrite decide_False, app_nil_r.
  - unfold fired_by. rewrite Hf, omap_app.
    replace (omap _ ((λ b, (k', b)) <$> bs)) with (@nil bool);
      [by rewrite app_nil_r|].
    clear Hf. induction bs as [|b bs IH]; [done|]. csimpl.
    by rewrite decide_False by done.
  - intros tr d sub buf act Hk Hp. unfold notes.
    by rewrite Hlog, omap_app, (Hns tr d sub buf act), app_nil_r.
Qed.

Lemma omap_note_other sub st sub' st' (ns : list Notification) :
  sub' ≠ sub →
  omap (note_of sub st) ((λ n, mkObs st' n sub') <$> ns) = [].
Proof.
  intros Hne. rewrite omap_note_to. by rewrite decide_False by (by intros [? _]).
Qed.

Lemma same_at_deliver k k' b s :
  Inv_concat s → k' ≠ k → same_at k s (deliver k' b s).
Proof.
  intros H Hne. unfold deliver.
  destruct (triggers s !! k') as [tr'|] eqn:Hk'; [|done].
  destruct (pipe tr') as [prev|d' sub' buf' act'] eqn:Hp'; [case_decide|].
  - eapply (same_at_other k k' s _ [] [b] []); try done; simpl;
      by rewrite app_nil_r.
  - eapply (same_at_other k k' s _ [] [b]); try done.
    + simpl. by rewrite list_lookup_insert_ne.
    + by rewrite app_nil_r.
    + intros tr d sub buf act Hk Hp. by apply omap_note_all_other; left.
  - eapply (same_at_other k k' s _ _ [b]); try done.
    + simpl. by rewrite list_lookup_insert_ne.
    + intros tr d sub buf act Hk Hp. apply omap_note_other.
      by eapply (other_subscriber s k k').
Qed.

Lemma same_at_complete_inner k k' u s :
  Inv_concat s → k' ≠ k → same_at k s (complete_inner k' u s).
Proof.
  intros H Hne. unfold complete_inner.
  destruct (triggers s !! k') as [tr'|] eqn:Hk'; [|done].
  destruct (pipe tr') as [prev|d' sub' buf' act'] eqn:Hp'; [done|].
  eapply (same_at_other k k' s _ _ []); try done.
  - simpl. by rewrite list_lookup_insert_ne.
  - by rewrite app_nil_r.
  - intros tr d sub buf act Hk Hp. apply omap_note_other.
    by eapply (other_subscriber s k k').
Qed.

Lemma same_at_fail k k' e s :
  Inv_concat s → k' ≠ k → same_at k s (fail k' e s).
Proof.
  intros H Hne. unfold fail.
  destruct (triggers s !! k') as [tr'|] eqn:Hk'; [|done].
  destruct (pipe tr') as [prev|d' sub' buf' act'] eqn:Hp'.
  - eapply (same_at_other k k' s _ [] []); try done.
    + simpl. by rewrite list_lookup_insert_ne.
    + by rewrite app_nil_r.
    + by rewrite app_nil_r.
    + intros tr d sub buf act Hk Hp. by apply omap_note_all_other; left.
  - eapply (same_at_other k k' s _ [] []); try done.
    + simpl. by rewrite list_lookup_insert_ne.
    + by rewrite app_nil_r.
    + by rewrite app_nil_r.
    + intros tr d sub buf act Hk Hp. apply (omap_note_other _ _ _ _ [_]).
      by eapply (other_subscriber s k k').
Qed.

Lemma same_at_log k s s' ns :
  triggers s' = triggers s → issued s' = issued s → fired s' = fired s →
  log s' = log s ++ ns →
  Forall (λ o, ∀ d, obs_stream o ≠ DerivedS d) ns →
  same_at k s s'.
Proof.
  intros Ht Hi Hf Hlog Hns. split; [by rewrite Ht|].
  split; [unfold calls_of; by rewrite Hi|].
  split; [unfold fired_by; by rewrite Hf|].
  intros tr d sub buf act _ _. unfold notes. rewrite Hlog, omap_app.
  replace (omap (note_of sub (DerivedS d)) ns) with (@nil Notification);
    [by rewrite app_nil_r|].
  clear Hlog. induction Hns as [|o ns Ho _ IH]; [done|]. csimpl.
  unfold note_of at 1. rewrite decide_False; [done|].
  intros [_ Hst]. by apply (Ho d).
Qed.

Lemma same_at_subscribeTrigger k p s :
  k < length (triggers s) → same_at k s (subscribeTrigger p s).
Proof.
  intros Hlt. unfold subscribeTrigger. split; [|split; [|done]].
  - cbn [issue triggers set_issued set_triggers].
    by rewrite lookup_app_l.
  - rewrite calls_of_issue. rewrite decide_False by lia. by rewrite app_nil_r.
Qed.

(** No step does anything to a subscription that has ended. *)
Lemma same_at_step k tr s ev :
  Inv_bounds s → Inv_concat s →
  triggers s !! k = Some tr → live tr = false →
  same_at k s (step s ev).
Proof.
  intros Hbd Hcc Hk Hl.
  assert (k < length (triggers s)) as Hlt by (by eapply lookup_lt_Some).
  destruct ev as [b| |t|e|st|p o]; cbn [step].
  - unfold setIsLoading.
    apply (same_at_trans k _ (emit_all (loadingObservers s) IsLoadingS
             (Next (VBool b)) (set_isLoadingSubject b s))).
    + eapply (same_at_log k s); try done.
      apply Forall_fmap, Forall_true. by intros sub d.
    + eapply same_at_broadcast; [intros; by apply dead_tr_loading|exact Hk|done].
  - eapply same_at_broadcast; [apply dead_tr_refresh|exact Hk|done].
  - unfold setAccessToken.
    apply (same_at_trans k _ (set_accessToken (Some t) s)); [done|].
    eapply same_at_broadcast; [apply dead_tr_token|exact Hk|done].
  - unfold setError. eapply (same_at_log k s); try done.
    apply Forall_fmap, Forall_true. by intros sub d.
  - unfold subscribe. destruct st as [| |d|].
    + eapply (same_at_log k s); try done.
      apply Forall_fmap, Forall_true. by intros n d.
    + case_match.
      * apply (same_at_trans k _ (set_share
            {| shareStarted := true; shareHasError := false;
               shareBuffer := None; shareObservers := [nextSub s] |}
            (set_nextSub (S (nextSub s)) s))); [done|].
        by apply same_at_subscribeTrigger.
      * eapply (same_at_log k s); try done.
        apply Forall_fmap, Forall_true. by intros n d.
    + apply (same_at_trans k _ (set_nextSub (S (nextSub s)) s)); [done|].
      by apply same_at_subscribeTrigger.
    + eapply (same_at_log k s); try done.
      apply Forall_fmap, Forall_true. by intros n d.
  - destruct (issued s !! p) as [c|] eqn:Hp; [|unfold settle; by rewrite Hp].
    assert (Inv_concat (mark_settled p s)) as Hm.
    { apply Inv_concat_mark; [|done]. done. }
    assert (same_at k s (mark_settled p s)) as Hsm by done.
    apply settle_elim; intros; try done.
    + apply (same_at_trans k _ (mark_settled p s)); [done|].
      apply same_at_deliver; [done|]. intros Heq.
      destruct H3 as (tr0 & Hk0 & Hl0). rewrite Heq in Hk0. congruence.
    + apply (same_at_trans k _ (mark_settled p s)); [done|].
      apply same_at_complete_inner; [done|]. intros Heq.
      destruct H3 as (tr0 & Hk0 & Hl0). rewrite Heq in Hk0. congruence.
    + apply (same_at_trans k _ (mark_settled p s)); [done|].
      apply same_at_fail; [done|]. intros Heq.
      destruct H2 as (tr0 & Hk0 & Hl0). rewrite Heq in Hk0. congruence.
Qed.

Lemma same_at_run k tr s evs :
  reachable s → triggers s !! k = Some tr → live tr = false →
  same_at k s (run evs s).
Proof.
  intros Hr Hk Hl. induction evs as [|ev evs IH] using rev_ind; [done|].
  rewrite run_snoc. apply (same_at_trans k _ (run evs s)); [done|].
  assert (reachable (run evs s)) as Hr' by (by apply reachable_app).
  apply (same_at_step k tr).
  - by apply Inv_bounds_reachable.
  - by apply Inv_concat_reachable.
  - destruct IH as (-> & _). done.
  - done.
Qed.

(** X6: a trigger subscription that an error has ended stays ended: no
    later call of a mutator, subscription or answer of the client changes
    its state, makes it call the client or emit, and the subscriber of
    user$ or idTokenClaims$ that it fed receives nothing more. *)
Theorem ended_subscription_stays_silent
    (evs1 evs2 : list Event) (k : nat) (tr : TriggerSub) :
  let s := run evs1 init in
  let s' := run evs2 s in
  triggers s !! k = Some tr → live tr = false →
  triggers s' !! k = Some tr ∧
  calls_of k s' = calls_of k s ∧
  fired_by k s' = fired_by k s ∧
  ∀ d sub buffer active, pipe tr = ConcatPipe d sub buffer active →
    notes sub (DerivedS d) s' = notes sub (DerivedS d) s.
Proof.
  intros s s' Hk Hl.
  destruct (same_at_run k tr s evs2 (reachable_run evs1) Hk Hl)
    as (H1 & H2 & H3 & H4).
  split; [by rewrite <- Hk|]. split; [done|]. split; [done|].
  intros d sub buf act Hp. by apply (H4 tr d sub buf act).
Qed.

Lemma ended_subscription_stays_silent_witness :
  let evs1 := [CallSetIsLoading false; Subscribe (DerivedS User);
               CallRefresh; Settle 0 (Reject "login_required")] in
  let evs2 := [Settle 1 (ResolveBool true); CallRefresh;
               CallSetAccessToken "t"] in
  calls_of 0 (run evs2 (run evs1 init)) =
    [IsAuthenticated Initial; IsAuthenticated Refreshed] ∧
  notes 0 (DerivedS User) (run evs2 (run evs1 init)) = [Error "login_required"].
Proof.
  intros evs1 evs2.
  assert (triggers (run evs1 init) !! 0 =
          Some {| live := false; switched := true; tokenAcc := seed;
                  pipe := ConcatPipe User 0 [] false |}) as Hk by reflexivity.
  destruct (ended_subscription_stays_silent evs1 evs2 0 _ Hk eq_refl)
    as (_ & Hc & _ & Hn).
  split; [exact Hc|]. exact (Hn User 0 [] false eq_refl).
Defined.

(** X7: nothing in the class catches an error on user$ or idTokenClaims$:
    when a call of the client made for such a subscription fails, be it the
    check or the profile lookup, the subscriber receives the error, and
    that is the last thing it ever receives; the results that [concatMap]
    still held in its buffer are dropped without a lookup. *)
Theorem failure_ends_derived_stream
    (evs1 evs2 : list Event) (p : nat) (c : Pending) (e : Err)
    (tr : TriggerSub) (d : Derived) (sub : nat) (buffer : list bool)
    (active : bool) :
  let s := run evs1 init in
  let s' := run evs2 (step s (Settle p (Reject e))) in
  issued s !! p = Some c → p ∉ settled s →
  triggers s !! owner c = Some tr → live tr = true →
  pipe tr = ConcatPipe d sub buffer active →
  notes sub (DerivedS d) s' = notes sub (DerivedS d) s ++ [Error e] ∧
  calls_of (owner c) s' = calls_of (owner c) s.
Proof.
  intros s s' Hp Hs Hk Hl Hpipe. unfold s'.
  set (s2 := step s (Settle p (Reject e))).
  assert (reachable s2) as Hr2 by apply reachable_step, reachable_run.
  assert (s2 = fail (owner c) e (mark_settled p s)) as E.
  { unfold s2. cbn [step]. apply settle_reject; [done|done|by exists tr]. }
  assert (triggers s2 !! owner c = Some (terminated tr)) as Hk2.
  { rewrite E. unfold fail. cbn [mark_settled triggers set_settled].
    rewrite Hk, Hpipe. cbn [emit_to triggers set_log set_triggers].
    apply list_lookup_insert_eq. by eapply lookup_lt_Some. }
  destruct (same_at_run (owner c) (terminated tr) s2 evs2 Hr2 Hk2 eq_refl)
    as (_ & -> & _ & Hn).
  rewrite (Hn (terminated tr) d sub buffer active Hk2 Hpipe).
  rewrite E. unfold fail. cbn [mark_settled triggers set_settled].
  rewrite Hk, Hpipe. split; [|done].
  by rewrite notes_emit_to, decide_True by done.
Qed.

Lemma failure_ends_derived_stream_witness :
  let evs1 := [CallSetIsLoading false; Subscribe (DerivedS User);
               Settle 0 (ResolveBool true); CallRefresh;
               Settle 2 (ResolveBool true)] in
  let evs2 := [CallRefresh; Settle 3 (ResolveBool true)] in
  let s' := run evs2 (step (run evs1 init) (Settle 1 (Reject "timeout"))) in
  notes 0 (DerivedS User) s' = [Error "timeout"] ∧
  calls_of 0 s' =
    [IsAuthenticated Initial; GetProfile User; IsAuthenticated Refreshed].
Proof.
  intros evs1 evs2 s'.
  assert (1 ∉ settled (run evs1 init)) as Hs.
  { refine (bool_decide_unpack _ _). vm_compute. exact I. }
  exact (failure_ends_derived_stream evs1 evs2 1
           (mkPending 0 (GetProfile User)) "timeout"
           {| live := true; switched := true; tokenAcc := seed;
              pipe := ConcatPipe User 0 [true] true |}
           User 0 [true] true eq_refl Hs eq_refl eq_refl eq_refl).
Defined.

(** ** isAuthenticated$ is its trigger, less the repetitions *)

Lemma distinctUntilChanged_from_snoc {A} `{EqDecision A}
    (prev : option A) (l : list A) (x : A) :
  Rx.distinctUntilChanged_from prev (l ++ [x]) =
  Rx.distinctUntilChanged_from prev l ++
    (if decide (from_option Some prev (last l) = Some x) then [] else [x]).
Proof.
  revert prev. induction l as [|y l IH]; intros prev; simpl.
  - by repeat case_decide.
  - assert (∀ q, from_option Some q (last (y :: l)) =
                 from_option Some (Some y) (last l)) as Hlast.
    { intros q. destruct l as [|z l]; [done|]. rewrite last_cons_cons.
      by destruct (last (z :: l)) eqn:E; [|apply last_None in E]. }
    rewrite Hlast. case_decide as Hy.
    + rewrite IH. do 2 f_equal. subst prev.
      by destruct (last l).
    + by rewrite IH.
Qed.

Lemma follows_frame sub k s s' :
  follows_source sub k s →
  (∀ tr, triggers s !! k = Some tr →
     ∃ tr', triggers s' !! k = Some tr' ∧ live tr' = live tr ∧ pipe tr' = pipe tr) →
  fired_by k s' = fired_by k s →
  notes sub IsAuthenticatedS s' = notes sub IsAuthenticatedS s →
  (sub ∈ shareObservers (share s') ↔ sub ∈ shareObservers (share s)) →
  follows_source sub k s'.
Proof.
  intros (tr & Hk & Hp & Hseen & Hobs) Ht Hf Hn Ho.
  destruct (Ht tr Hk) as (tr' & Hk' & Hl' & Hp').
  exists tr'. split; [done|]. rewrite Hf, Hp', Hl', Ho.
  split; [done|]. split; [|done]. by rewrite (seen_notes _ _ s s').
Qed.

Lemma follows_broadcast f sub k s :
  keeps_pipes f → follows_source sub k s → follows_source sub k (broadcast f s).
Proof.
  intros Hf H. apply (follows_frame sub k s); try done.
  intros tr Hk. exists (f tr).1. split.
  - unfold broadcast. cbn [triggers set_issued set_triggers].
    by rewrite list_lookup_fmap, Hk.
  - apply Hf.
Qed.

Lemma follows_same_triggers sub k s s' :
  follows_source sub k s →
  triggers s' = triggers s → fired s' = fired s → share s' = share s →
  notes sub IsAuthenticatedS s' = notes sub IsAuthenticatedS s →
  follows_source sub k s'.
Proof.
  intros H Ht Hf Hs Hn. apply (follows_frame sub k s); try done.
  - intros tr Hk. exists tr. by rewrite Ht.
  - unfold fired_by. by rewrite Hf.
  - by rewrite Hs.
Qed.

Lemma follows_subscribeTrigger sub k p s :
  follows_source sub k s → follows_source sub k (subscribeTrigger p s).
Proof.
  intros H. apply (follows_frame sub k s); try done.
  intros tr Hk. exists tr. split; [|done]. unfold subscribeTrigger.
  cbn [issue triggers set_issued set_triggers].
  rewrite lookup_app_l; [done|]. by eapply lookup_lt_Some.
Qed.

(** The live source is the only trigger that can reach the observers. *)
Lemma follows_not_observer sub k k' s tr' prev :
  Inv_share s → follows_source sub k s → k' ≠ k →
  triggers s !! k' = Some tr' → live tr' = true → pipe tr' = SharedPipe prev →
  sub ∉ shareObservers (share s).
Proof.
  intros Hsh (tr & Hk & Hp & _ & Hobs) Hne Hk' Hl' Hp' Hin.
  apply Hobs in Hin. apply Hne.
  apply (sh_unique s Hsh k' k prev (last (fired_by k s))).
  - by exists tr'.
  - by exists tr.
Qed.

Lemma follows_deliver sub k k' b s :
  Inv_share s → live_at k' s →
  follows_source sub k s → follows_source sub k (deliver k' b s).
Proof.
  intros Hsh (tr' & Hk' & Hl') H. unfold deliver. rewrite Hk'.
  assert (k' < length (triggers s)) as Hlt by (by eapply lookup_lt_Some).
  destruct (decide (k' = k)) as [->|Hne].
  - destruct H as (tr & Hk & Hp & Hseen & Hobs). simplify_eq.
    rewrite Hp.
    assert (fired_by k (set_fired (fired s ++ [(k, b)]) s) =
            fired_by k s ++ [b]) as Hf.
    { rewrite (fired_by_snoc k k b s) by done. by rewrite decide_True. }
    case_decide as Hb.
    + exists tr'. split; [done|]. rewrite Hf, last_snoc. split; [by rewrite Hp, Hb|].
      split; [|done]. change (seen sub _ (set_fired _ s)) with (seen sub IsAuthenticatedS s).
      rewrite Hseen. unfold Rx.distinctUntilChanged.
      rewrite distinctUntilChanged_from_snoc. rewrite decide_True; [by rewrite app_nil_r|].
      rewrite Hb. done.
    + exists (with_pipe (SharedPipe (Some b)) tr'). split.
      { unfold share_next. cbn [emit_all triggers set_log set_share set_triggers].
        by apply list_lookup_insert_eq. }
      unfold share_next.
      change (fired_by k (emit_all _ _ _ _))
        with (fired_by k (set_fired (fired s ++ [(k, b)]) s)).
      rewrite Hf, last_snoc. split; [done|]. split; [|done].
      unfold seen. rewrite notes_emit_all_in;
        [|apply (sh_nodup s Hsh)|by apply Hobs].
      rewrite omap_app. change (omap bool_of (notes sub IsAuthenticatedS _))
        with (seen sub IsAuthenticatedS s).
      rewrite Hseen. unfold Rx.distinctUntilChanged.
      rewrite distinctUntilChanged_from_snoc. rewrite decide_False; [done|].
      by destruct (last (fired_by k s)).
  - assert (fired_by k (set_fired (fired s ++ [(k', b)]) s) = fired_by k s) as Hf.
    { rewrite (fired_by_snoc k k' b s) by done.
      by rewrite decide_False, app_nil_r. }
    destruct (pipe tr') as [prev|d sub0 buf act] eqn:Hp'; [case_decide|].
    + apply (follows_frame sub k s); try done.
      intros tr Hk. by exists tr.
    + apply (follows_frame sub k s); try done.
      * intros tr Hk. exists tr. split; [|done]. unfold share_next.
        cbn [emit_all triggers set_log set_share set_triggers set_fired].
        by rewrite list_lookup_insert_ne.
      * unfold share_next. rewrite notes_emit_all_other; [done|]. right.
        by apply (follows_not_observer sub k k' s tr' prev).
    + apply (follows_frame sub k s); try done.
      * intros tr Hk. exists tr. split; [|done].
        cbn [issue emit_to triggers set_log set_issued set_triggers set_fired].
        by rewrite list_lookup_insert_ne.
      * rewrite notes_issue, notes_emit_to.
        rewrite decide_False by (by intros [_ ?]). by rewrite app_nil_r.
Qed.

Lemma follows_complete_inner sub k k' u s :
  follows_source sub k s → follows_source sub k (complete_inner k' u s).
Proof.
  intros H. unfold complete_inner.
  destruct (triggers s !! k') as [tr'|] eqn:Hk'; [|done].
  destruct (pipe tr') as [prev|d sub0 buf act] eqn:Hp'; [done|].
  assert (k' ≠ k) as Hne.
  { intros ->. destruct H as (tr & Hk & Hp & _). congruence. }
  apply (follows_frame sub k s); try done.
  - intros tr Hk. exists tr. split; [|done].
    cbn [issue emit_to triggers set_log set_issued set_triggers].
    by rewrite list_lookup_insert_ne.
  - rewrite notes_issue, notes_emit_to.
    rewrite decide_False by (by intros [_ ?]). by rewrite app_nil_r.
Qed.

Lemma follows_fail sub k k' e s :
  Inv_share s → live_at k' s →
  follows_source sub k s → follows_source sub k (fail k' e s).
Proof.
  intros Hsh (tr' & Hk' & Hl') H.
  pose proof H as (tr & Hk & Hp & Hseen & Hobs).
  assert (k' < length (triggers s)) as Hlt by (by eapply lookup_lt_Some).
  assert (fired_by k (fail k' e s) = fired_by k s) as Hf.
  { unfold fired_by. by rewrite (proj1 (proj2 (fail_fields k' e s))). }
  pose proof (seen_fail sub IsAuthenticatedS k' e s) as Hs.
  unfold follows_source. rewrite Hf, Hs. unfold fail. rewrite Hk'.
  destruct (decide (k' = k)) as [->|Hne].
  - simplify_eq. rewrite Hp. exists (terminated tr').
    split; [by apply list_lookup_insert_eq|]. split; [done|]. split; [done|].
    simpl. split; [by intros ?%elem_of_nil|done].
  - exists tr. destruct (pipe tr') as [prev|d sub0 buf act] eqn:Hp'.
    + split; [simpl; by rewrite list_lookup_insert_ne|].
      split; [done|]. split; [done|]. simpl.
      split; [by intros ?%elem_of_nil|]. intros Hl. exfalso.
      apply (follows_not_observer sub k k' s tr' prev); try done.
      by apply Hobs.
    + split; [simpl; by rewrite list_lookup_insert_ne|]. done.
Qed.

Lemma follows_step sub k s ev :
  Inv_fresh s → Inv_share s → sub < nextSub s →
  follows_source sub k s → follows_source sub k (step s ev).
Proof.
  intros Hfr Hsh Hsub H. destruct ev as [b| |t|e|st|p o]; cbn [step].
  - unfold setIsLoading. apply follows_broadcast; [apply keeps_pipes_loading|].
    apply (follows_same_triggers sub k s); try done.
    by rewrite notes_emit_all_other by (by left).
  - apply follows_broadcast; [apply keeps_pipes_refresh|done].
  - apply follows_broadcast; [apply keeps_pipes_token|].
    by apply (follows_same_triggers sub k s).
  - unfold setError. apply (follows_same_triggers sub k s); try done.
    by rewrite notes_emit_all_other by (by left).
  - unfold subscribe. destruct st as [| |d|].
    + apply (follows_same_triggers sub k s); try done.
      rewrite notes_emit_to. rewrite decide_False by (by intros [_ ?]).
      by rewrite app_nil_r.
    + case_match eqn:Hnew.
      * apply follows_subscribeTrigger.
        apply (follows_frame sub k s); try done.
        { intros tr Hk. by exists tr. }
        cbn [share set_share shareObservers]. split.
        -- intros ->%list_elem_of_singleton. lia.
        -- intros Hin. destruct (sh_started s Hsh sub Hin) as [Hst Herr].
           cbn [share set_nextSub] in Hnew. by rewrite Hst, Herr in Hnew.
      * apply (follows_frame sub k s); try done.
        { intros tr Hk. by exists tr. }
        { rewrite notes_emit_to. rewrite decide_False; [by rewrite app_nil_r|].
          intros [Heq _]. lia. }
        cbn [emit_to share set_log set_share shareObservers set_nextSub].
        rewrite elem_of_app, list_elem_of_singleton. split; [|by left].
        intros [?|Heq]; [done|lia].
    + apply follows_subscribeTrigger. by apply (follows_same_triggers sub k s).
    + apply (follows_same_triggers sub k s); try done.
      rewrite notes_emit_to. rewrite decide_False by (by intros [_ ?]).
      by rewrite app_nil_r.
  - assert (Inv_share (mark_settled p s)) as Hm
      by (by apply (Inv_share_frame s)).
    assert (follows_source sub k (mark_settled p s)) as Hfm
      by (by apply (follows_same_triggers sub k s)).
    apply settle_elim; intros; try done.
    + by apply follows_deliver.
    + by apply follows_complete_inner.
    + by apply follows_fail.
Qed.

Lemma nextSub_mono s ev : nextSub s ≤ nextSub (step s ev).
Proof.
  destruct ev as [b| |t|e|st|p o]; cbn [step]; try done.
  - unfold subscribe. destruct st as [| |d|]; try case_match; cbn; lia.
  - apply settle_elim; intros; try done.
    + unfold deliver. repeat case_match; done.
    + unfold complete_inner. repeat case_match; done.
    + unfold fail. repeat case_match; done.
Qed.

(** X8: the subscriber that makes [shareReplay] subscribe its source (the
    first subscriber, or the first one after a failed check) receives on
    isAuthenticated$ exactly what that trigger subscription emits, passed
    through [distinctUntilChanged()]: every result that differs from the
    one before it, and no other. *)
Theorem isAuthenticated_is_distinct_trigger (evs1 evs2 : list Event) :
  let s1 := run evs1 init in
  let s' := run evs2 (step s1 (Subscribe IsAuthenticatedS)) in
  negb (shareStarted (share s1)) || shareHasError (share s1) = true →
  seen (nextSub s1) IsAuthenticatedS s' =
    Rx.distinctUntilChanged (fired_by (length (triggers s1)) s').
Proof.
  intros s1 s' Hnew.
  set (sub := nextSub s1). set (k := length (triggers s1)).
  set (s0 := step s1 (Subscribe IsAuthenticatedS)).
  assert (reachable s1) as Hr1 by apply reachable_run.
  assert (reachable s0) as Hr0 by (by apply reachable_step).
  cut (follows_source sub k s' ∧ sub < nextSub s').
  { by intros [(tr & _ & _ & Hseen & _) _]. }
  unfold s'. fold s0. induction evs2 as [|ev evs IH] using rev_ind.
  - cbn [run foldl]. split.
    + unfold s0. cbn [step subscribe]. cbn [share set_nextSub]. rewrite Hnew.
      eexists. split; [|split; [|split]].
      * unfold subscribeTrigger.
        cbn [issue triggers set_issued set_triggers set_share set_nextSub].
        fold k. rewrite lookup_app_r by done. by rewrite Nat.sub_diag.
      * rewrite tr_loading_pipe. cbn [pipe]. f_equal. symmetry.
        change (fired_by k _) with (fired_by k s1).
        rewrite fired_by_out_of_range; [done| |done].
        by apply Inv_bounds_reachable.
      * change (seen sub IsAuthenticatedS _) with (seen sub IsAuthenticatedS s1).
        change (fired_by k _) with (fired_by k s1).
        rewrite fired_by_out_of_range; [| |done];
          [|by apply Inv_bounds_reachable].
        unfold seen. rewrite notes_fresh; [done| |done].
        by apply Inv_fresh_reachable.
      * cbn [subscribeTrigger issue share set_issued set_triggers set_share
             shareObservers].
        rewrite (proj1 (keeps_pipes_loading _ _ _)). cbn [live].
        split; [done|]. intros _. by apply list_elem_of_singleton.
    + unfold s0. cbn [step subscribe]. cbn [share set_nextSub]. rewrite Hnew.
      cbn. unfold sub. lia.
  - destruct IH as [IH Hlt]. rewrite run_snoc.
    assert (reachable (run evs s0)) as Hr by (by apply reachable_app).
    split.
    + apply follows_step; try done;
        [by apply Inv_fresh_reachable|by apply Inv_share_reachable].
    + pose proof (nextSub_mono (run evs s0) ev). lia.
Qed.

Lemma isAuthenticated_is_distinct_trigger_witness :
  let evs1 := [CallSetIsLoading false] in
  let evs2 := [CallRefresh; Settle 0 (ResolveBool true);
               Settle 1 (ResolveBool true); CallRefresh;
               Settle 2 (ResolveBool false)] in
  let s' := run evs2 (step (run evs1 init) (Subscribe IsAuthenticatedS)) in
  fired_by 0 s' = [true; true; false] ∧
  seen 0 IsAuthenticatedS s' = [true; false].
Proof.
  intros evs1 evs2 s'. split; [reflexivity|].
  exact (isAuthenticated_is_distinct_trigger evs1 evs2 eq_refl).
Defined.

(** X9: however many subscribers isAuthenticated$ has, [shareReplay]
    keeps at most one live subscription to the trigger behind it; a
    subscriber that joins while this subscription lives adds no trigger
    subscription and starts no check of its own (user$ and idTokenClaims$,
    which are not shared, subscribe the trigger once per subscriber). *)
Theorem shared_stream_has_one_source (evs : list Event) :
  let s := run evs init in
  (∀ k1 k2 prev1 prev2,
     source_at s k1 prev1 → source_at s k2 prev2 → k1 = k2) ∧
  (∀ k prev, source_at s k prev →
     triggers (step s (Subscribe IsAuthenticatedS)) = triggers s ∧
     issued (step s (Subscribe IsAuthenticatedS)) = issued s) ∧
  (∀ d, length (triggers (step s (Subscribe (DerivedS d)))) =
        S (length (triggers s))).
Proof.
  intros s.
  pose proof (Inv_share_reachable s (reachable_run evs)) as Hsh.
  split; [apply (sh_unique s Hsh)|]. split.
  - intros k prev Hsrc. destruct (sh_source s Hsh k prev Hsrc) as (_ & Hst & Herr).
    cbn [step subscribe]. cbn [share set_nextSub]. by rewrite Hst, Herr.
  - intros d. cbn [step subscribe subscribeTrigger issue triggers set_issued
                   set_triggers set_nextSub].
    rewrite length_app. simpl. lia.
Qed.

Lemma shared_stream_has_one_source_witness :
  let evs := [Subscribe IsAuthenticatedS; Subscribe (DerivedS User);
              CallSetIsLoading false; Settle 0 (ResolveBool true)] in
  let s := run evs init in
  source_at s 0 (Some true) ∧
  length (issued (step s (Subscribe IsAuthenticatedS))) = 2.
Proof.
  intros evs s.
  assert (source_at s 0 (Some true)) as Hsrc.
  { eexists. split; [reflexivity|]. split; reflexivity. }
  split; [exact Hsrc|].
  destruct (proj1 (proj2 (shared_stream_has_one_source evs)) 0 (Some true) Hsrc)
    as [_ Hi].
  fold s in Hi. rewrite Hi. reflexivity.
Defined.

(** ** The options of the client *)

Lemma createClient_rest_lookup (config : gmap string JsVal) (k : string) :
  delete "httpInterceptor"
    (delete "maxAge" (delete "clientId" (delete "redirectUri" config))) !! k =
  if decide (k ∈ taken_out) then None else config !! k.
Proof.
  rewrite !lookup_delete. unfold taken_out.
  destruct (decide (k ∈ _)) as [Hk|Hk]; set_unfold in Hk.
  - destruct Hk as [[[->| ->]| ->]| ->]; by repeat case_decide.
  - repeat (case_decide; [exfalso; apply Hk; subst k; tauto|]). done.
Qed.

Lemma createClient_lookup ua origin (config : gmap string JsVal) (k : string) :
  ∃ opts, createClient ua origin (Some config) = inr opts ∧
    opts !! k =
      if decide (k = "authokClient") then Some (sdk_identity ua)
      else if decide (k ∈ taken_out) then
        None
      else if decide (k = "redirect_uri") then
        Some (spread_over k (js_or (prop "redirectUri" config) (JStr origin)) config)
      else if decide (k = "client_id") then
        Some (spread_over k (prop "clientId" config) config)
      else if decide (k = "max_age") then
        Some (spread_over k (prop "maxAge" config) config)
      else config !! k.
Proof.
  eexists. split; [reflexivity|].
  destruct (decide (k = "authokClient")) as [->|Hk]; [by rewrite lookup_insert_eq|].
  rewrite lookup_insert_ne by done.
  rewrite lookup_union, createClient_rest_lookup.
  destruct (decide (k ∈ taken_out)) as [Hout|Hout].
  - unfold taken_out in Hout. set_unfold in Hout.
    destruct Hout as [[[->| ->]| ->]| ->];
      by rewrite !lookup_insert_ne, lookup_empty by done.
  - unfold spread_over.
    destruct (decide (k = "redirect_uri")) as [->|H1].
    { rewrite !lookup_insert_ne by done. rewrite lookup_insert_eq.
      by destruct (config !! "redirect_uri"). }
    destruct (decide (k = "client_id")) as [->|H2].
    { rewrite !lookup_insert_ne by done. rewrite lookup_insert_eq.
      by destruct (config !! "client_id"). }
    destruct (decide (k = "max_age")) as [->|H3].
    { rewrite lookup_insert_eq. by destruct (config !! "max_age"). }
    rewrite !lookup_insert_ne by done. rewrite lookup_empty.
    by destruct (config !! k).
Qed.

Lemma truthy_js_or a origin : origin ≠ "" → truthy (js_or a (JStr origin)) = true.
Proof.
  intros Ho. unfold js_or. destruct (truthy a) eqn:Ha; [done|]. simpl.
  apply negb_true_iff, String.eqb_neq, Ho.
Qed.

(** X10: [createClient] throws exactly when no configuration is there, with
    a message that starts with [Configuration must be specified].
    Otherwise the options it hands to the client have the properties of the
    configuration except [redirectUri], [clientId], [maxAge] and
    [httpInterceptor], plus [redirect_uri], [client_id], [max_age] and
    [authokClient]; [authokClient] is always the name and version of the
    SDK, whatever the configuration says, and every other property of the
    configuration is passed on unchanged. *)
Theorem createClient_options
    (ua : UserAgent) (origin : string) (config : option (gmap string JsVal)) :
  match createClient ua origin config with
  | inl msg =>
      config = None ∧ ∃ rest, msg = "Configuration must be specified" +:+ rest
  | inr opts =>
      ∃ c, config = Some c ∧
        dom opts = (dom c ∖ taken_out) ∪ set_by_factory ∧
        opts !! "authokClient" = Some (sdk_identity ua) ∧
        ∀ k, k ∉ taken_out → k ∉ set_by_factory → opts !! k = c !! k
  end.
Proof.
  destruct config as [c|]; [|split; [done|by eexists]].
  destruct (createClient ua origin (Some c)) as [msg|opts] eqn:E; [done|].
  assert (∀ k, opts !! k =
      if decide (k = "authokClient") then Some (sdk_identity ua)
      else if decide (k ∈ taken_out) then None
      else if decide (k = "redirect_uri") then
        Some (spread_over k (js_or (prop "redirectUri" c) (JStr origin)) c)
      else if decide (k = "client_id") then
        Some (spread_over k (prop "clientId" c) c)
      else if decide (k = "max_age") then
        Some (spread_over k (prop "maxAge" c) c)
      else c !! k) as Hlook.
  { intros k. destruct (createClient_lookup ua origin c k) as (o & Ho & Hk).
    rewrite E in Ho. by simplify_eq. }
  exists c. split; [done|]. split; [|split].
  - apply set_eq. intros k. rewrite elem_of_dom, Hlook.
    rewrite elem_of_union, elem_of_difference, elem_of_dom.
    assert (∀ A (x : A), is_Some (Some x)) as Hsome by eauto.
    destruct (decide (k = "authokClient")) as [->|H1].
    { split; [intros _; right; unfold set_by_factory; set_solver|done]. }
    destruct (decide (k ∈ taken_out)) as [Hout|Hout].
    { split; [by intros [? ?]|]. intros [[_ ?]|Hs]; [done|]. exfalso.
      unfold taken_out, set_by_factory in *. set_unfold.
      destruct Hout as [[[->| ->]| ->]| ->];
        destruct Hs as [[[?|?]|?]|?]; discriminate. }
    destruct (decide (k = "redirect_uri")) as [->|H2].
    { split; [intros _; right; unfold set_by_factory; set_solver|done]. }
    destruct (decide (k = "client_id")) as [->|H3].
    { split; [intros _; right; unfold set_by_factory; set_solver|done]. }
    destruct (decide (k = "max_age")) as [->|H4].
    { split; [intros _; right; unfold set_by_factory; set_solver|done]. }
    split; [by left|]. intros [[? _]|Hs]; [done|]. exfalso.
    unfold set_by_factory in Hs. set_unfold. tauto.
  - rewrite Hlook. by rewrite decide_True.
  - intros k Hout Hset. rewrite Hlook. unfold set_by_factory in Hset.
    set_unfold in Hset. repeat case_decide; subst; try done; exfalso; tauto.
Qed.

Lemma createClient_options_witness :
  let config : gmap string JsVal :=
    {[ "domain" := JStr "test.domain.com"; "clientId" := JStr "abc123" ]} in
  ∃ opts,
    createClient {| ua_name := "authok-angular"; ua_version := "1.0.0" |}
      "http://localhost:4200" (Some config) = inr opts ∧
    opts !! "domain" = Some (JStr "test.domain.com").
Proof.
  intros config.
  pose proof (createClient_options
                {| ua_name := "authok-angular"; ua_version := "1.0.0" |}
                "http://localhost:4200" (Some config)) as H.
  destruct (createClient _ _ (Some config)) as [msg|opts]; [by destruct H|].
  exists opts. split; [reflexivity|].
  destruct H as (c & Hc & _ & _ & Hpass). injection Hc as <-.
  rewrite Hpass.
  - reflexivity.
  - unfold taken_out. set_unfold. intros [[[?|?]|?]|?]; discriminate.
  - unfold set_by_factory. set_unfold. intros [[[?|?]|?]|?]; discriminate.
Defined.

(** X11: the three renamed options.  [client_id] and [max_age] take the
    values of [clientId] and [maxAge], [redirect_uri] the value of
    [redirectUri] or, when that is missing or empty, the origin of the
    window; but [...rest] is spread after them, so a property of the
    configuration that already has the new name takes precedence over the
    renamed one.  Without such a property, and with a non-empty origin, the
    client is never handed an empty [redirect_uri]. *)
Theorem createClient_renamed_options
    (ua : UserAgent) (origin : string) (c : gmap string JsVal) :
  ∃ opts, createClient ua origin (Some c) = inr opts ∧
    opts !! "client_id" = Some (spread_over "client_id" (prop "clientId" c) c) ∧
    opts !! "max_age" = Some (spread_over "max_age" (prop "maxAge" c) c) ∧
    opts !! "redirect_uri" =
      Some (spread_over "redirect_uri"
              (js_or (prop "redirectUri" c) (JStr origin)) c) ∧
    (c !! "redirect_uri" = None → origin ≠ "" →
       ∃ v, opts !! "redirect_uri" = Some v ∧ truthy v = true) ∧
    (truthy (prop "redirectUri" c) = true → c !! "redirect_uri" = None →
       opts !! "redirect_uri" = c !! "redirectUri").
Proof.
  destruct (createClient_lookup ua origin c "client_id") as (opts & E & H1).
  destruct (createClient_lookup ua origin c "max_age") as (o2 & E2 & H2).
  destruct (createClient_lookup ua origin c "redirect_uri") as (o3 & E3 & H3).
  rewrite E in E2, E3. injection E2 as <-. injection E3 as <-.
  exists opts. split; [done|]. split; [exact H1|]. split; [exact H2|].
  split; [exact H3|]. split.
  - intros Hno Ho. eexists. split; [exact H3|].
    unfold spread_over. rewrite Hno. by apply truthy_js_or.
  - intros Ht Hno. rewrite H3. unfold spread_over, js_or. rewrite Hno, Ht.
    unfold prop in *. by destruct (c !! "redirectUri").
Qed.

Lemma createClient_renamed_options_witness :
  let config : gmap string JsVal :=
    {[ "domain" := JStr "test.domain.com"; "clientId" := JStr "abc123";
       "redirectUri" := JStr "" ]} in
  ∃ opts,
    createClient {| ua_name := "authok-angular"; ua_version := "1.0.0" |}
      "http://localhost:4200" (Some config) = inr opts ∧
    ∃ v, opts !! "redirect_uri" = Some v ∧ truthy v = true.
Proof.
  intros config.
  destruct (createClient_renamed_options
              {| ua_name := "authok-angular"; ua_version := "1.0.0" |}
              "http://localhost:4200" config)
    as (opts & E & _ & _ & _ & H & _).
  exists opts. split; [exact E|]. apply H; [reflexivity|discriminate].
Defined.

(** ** The invitation URL of the playground *)

Lemma append_cons c (a b : string) : String c a +:+ b = String c (a +:+ b).
Proof. done. Qed.

Lemma append_nil_l (a : string) : "" +:+ a = a.
Proof. done. Qed.

Lemma strip_prefix_app (key rest : string) : strip_prefix key (key +:+ rest) = Some rest.
Proof.
  induction key as [|a key IH]; [done|].
  rewrite append_cons. simpl. by rewrite Ascii.eqb_refl.
Qed.

Lemma strip_prefix_Some (key s rest : string) :
  strip_prefix key s = Some rest → s = key +:+ rest.
Proof.
  revert s. induction key as [|a key IH]; intros s; simpl.
  - by intros [= ->].
  - destruct s as [|b s]; [done|].
    destruct (Ascii.eqb a b) eqn:E; [|done].
    apply Ascii.eqb_eq in E as ->. intros H.
    by rewrite append_cons, (IH s H).
Qed.

Lemma take_word_split (s : string) : ∃ post, s = take_word s +:+ post.
Proof.
  induction s as [|c s [post IH]]; simpl; [by exists ""|].
  destruct (is_word c).
  - exists post. rewrite append_cons. by f_equal.
  - by eexists.
Qed.

Lemma take_word_idemp (s : string) : take_word (take_word s) = take_word s.
Proof.
  induction s as [|c s IH]; simpl; [done|].
  destruct (is_word c) eqn:E; simpl; [|done]. by rewrite E, IH.
Qed.

Lemma match_here_Some (key s w : string) :
  match_here key s = Some w →
  ∃ post, s = key +:+ w +:+ post ∧ w ≠ "" ∧ take_word (w +:+ post) = w.
Proof.
  unfold match_here. destruct (strip_prefix key s) as [rest|] eqn:E; [|done].
  apply strip_prefix_Some in E as ->.
  destruct (take_word_split rest) as [post Hpost].
  destruct (take_word rest) as [|c w'] eqn:Hw; [done|]. intros [= <-].
  exists post. split; [by rewrite <- Hpost|]. split; [done|].
  by rewrite <- Hpost.
Qed.

Lemma match_here_None (key : string) c (post : string) :
  match_here key (key +:+ String c post) = None → is_word c = false.
Proof.
  unfold match_here. rewrite strip_prefix_app. simpl.
  by destruct (is_word c).
Qed.

Lemma capture_spec (key url : string) :
  match capture key url with
  | Some w => first_word_after key url w
  | None => ∀ pre, ¬ occurs_at key url pre
  end.
Proof.
  induction url as [|a url IH].
  - simpl. destruct (match_here key "") as [w|] eqn:E.
    + apply match_here_Some in E as (post & Hs & Hw & Hmax).
      exists "", post. split; [done|]. split; [done|]. split; [done|].
      intros pre' _. simpl. lia.
    + intros pre (c & post & Hs & Hc). destruct pre.
      * rewrite append_nil_l in Hs. rewrite Hs in E.
        apply match_here_None in E. congruence.
      * by rewrite append_cons in Hs.
  - cbn [capture]. destruct (match_here key (String a url)) as [w|] eqn:E.
    + apply match_here_Some in E as (post & Hs & Hw & Hmax).
      exists "", post. split; [done|]. split; [done|]. split; [done|].
      intros pre' _. simpl. lia.
    + assert (∀ c post, String a url = key +:+ String c post →
                is_word c = false) as Hhere.
      { intros c post Hs. rewrite Hs in E. by apply match_here_None in E. }
      destruct (capture key url) as [w|].
      * destruct IH as (pre & post & Hs & Hw & Hmax & Hfirst).
        exists (String a pre), post.
        split; [by rewrite append_cons, <- Hs|].
        split; [done|]. split; [done|].
        intros pre' (c & post' & Hs' & Hc). destruct pre' as [|b pre'].
        -- rewrite append_nil_l in Hs'. rewrite (Hhere c post' Hs') in Hc. done.
        -- rewrite append_cons in Hs'. injection Hs' as -> Hs'. simpl.
           apply le_n_S, Hfirst. by exists c, post'.
      * intros pre' (c & post' & Hs' & Hc). destruct pre' as [|b pre'].
        -- rewrite append_nil_l in Hs'. rewrite (Hhere c post' Hs') in Hc. done.
        -- rewrite append_cons in Hs'. injection Hs' as -> Hs'.
           apply (IH pre'). by exists c, post'.
Qed.

(** X12: [loginHandleInvitationUrl] starts a login exactly when the text
    entered has [organization=] followed by a word character
    ([[a-zA-Z0-9_]]) somewhere: an invitation alone, an empty text or a
    cancelled prompt start none.  The organization it logs in with is the
    whole run of word characters after the first such [organization=], and
    the invitation, which is passed only if [invitation=] is followed by a
    word character somewhere, is the run after the first such
    [invitation=]. *)
Theorem invitation_login_needs_organization (answer : option string) :
  match loginHandleInvitationUrl answer with
  | Some login =>
      ∃ url, answer = Some url ∧
        first_word_after "organization=" url (login_organization login) ∧
        match login_invitation login with
        | Some inv => first_word_after "invitation=" url inv
        | None => ∀ pre, ¬ occurs_at "invitation=" url pre
        end
  | None =>
      ∀ url, answer = Some url → ∀ pre, ¬ occurs_at "organization=" url pre
  end.
Proof.
  destruct answer as [url|]; [|done]. unfold loginHandleInvitationUrl.
  destruct (String.eqb url "") eqn:E.
  - apply String.eqb_eq in E as ->. intros url [= <-] pre (c & post & Hs & _).
    destruct pre; [|by rewrite append_cons in Hs].
    rewrite append_nil_l in Hs. by rewrite append_cons in Hs.
  - pose proof (capture_spec "organization=" url) as Horg.
    pose proof (capture_spec "invitation=" url) as Hinv.
    destruct (capture "organization=" url) as [org|].
    + destruct (capture "invitation=" url) as [inv|]; by exists url.
    + by intros url' [= <-].
Qed.

Lemma invitation_login_needs_organization_witness :
  let url := "https://app.example.com/?invitation=Ab3_x&org=acme" in
  loginHandleInvitationUrl (Some url) = None ∧
  ∀ pre, ¬ occurs_at "organization=" url pre.
Proof.
  intros url. split; [reflexivity|].
  pose proof (invitation_login_needs_organization (Some url)) as H.
  change (loginHandleInvitationUrl (Some url)) with (@None InvitationLogin) in H.
  exact (H url eq_refl).
Defined.

(** ** accessTokenTrigger$ in closed form *)

(** X13: the [scan] and [filter] of accessTokenTrigger$ amount to
    [distinctUntilChanged] on the tokens: the pairs that pass have as
    [current] the tokens that differ from the token before them, and each
    pair has as [previous] the [current] of the pair before it ([null] for
    the first), the last [current] being the last token recorded. *)
Theorem accessTokenTrigger_is_distinctUntilChanged (tokens : list Token) :
  current <$> accessTokenTrigger tokens =
    Some <$> Rx.distinctUntilChanged tokens ∧
  None :: (current <$> accessTokenTrigger tokens) =
    (previous <$> accessTokenTrigger tokens) ++ [last tokens].
Proof.
  induction tokens as [|t pre [IH1 IH2]] using rev_ind; [done|].
  rewrite accessTokenTrigger_snoc, last_snoc.
  unfold Rx.distinctUntilChanged in *.
  rewrite distinctUntilChanged_from_snoc.
  destruct (decide (last pre = Some t)) as [Ht|Ht].
  - rewrite decide_True by (by rewrite Ht). rewrite !app_nil_r.
    split; [done|]. by rewrite IH2, Ht.
  - rewrite decide_False by (by destruct (last pre)).
    rewrite !fmap_app. simpl. split; [by rewrite IH1|].
    by rewrite app_comm_cons, IH2.
Qed.
